(** * Ceaflate: chunked deflate container

    A shallow embedding of [main.cpp]: the container header, the chunk
    planner of [compress_file] and [decompress_file], the per-chunk codec
    wrappers [perform_compression] and [perform_decompression], the worker
    scheduler [perform_job] with [busy_workers] and [next_worker], and the
    file writer [write_file].

    Conventions.
    - [std::size_t] is 64 bits wide and [std::uint32_t] / zlib's [uInt] are
      32 bits wide; values are [Z] and every arithmetic step of the source is
      followed by its wrap-around ([size_t], [uint32_t], [uInt]).
    - Header fields are read and written in little-endian byte order.
    - A pointer into a buffer is the list of bytes from the pointed position
      to the end of the buffer.
    - zlib is an external library: its two call sequences are the fields of
      the class [Zlib].
    - Files open, and every read and write the program asks for is carried
      out; what a run prints on [stdout] is left out. *)

From Stdlib Require Import ZArith List Bool Lia.
From coqutil Require Import Byte Word.LittleEndianList.
Import ListNotations.
Local Open Scope Z_scope.

(** ** Machine integers *)

Definition size_t (z : Z) : Z := z mod 2 ^ 64.
Definition uint32_t (z : Z) : Z := z mod 2 ^ 32.
Definition uInt (z : Z) : Z := z mod 2 ^ 32.
Definition UINT32_MAX : Z := 4294967295.

Definition EXIT_SUCCESS : Z := 0.
Definition EXIT_FAILURE : Z := 1.

(** [sizeof(std::uint32_t)] *)
Definition sizeof_uint32_t : Z := 4.

(** [v.size()] of a byte vector. *)
Definition size (v : list byte) : Z := Z.of_nat (length v).

(** A [std::uint32_t] stored in, or loaded from, the first four bytes a
    pointer views. *)
Definition store_uint32_t (v : Z) : list byte := le_split 4 v.
Definition load_uint32_t (p : list byte) : Z := le_combine (firstn 4 p).

(** [p + n] for a byte pointer [p]. *)
Definition advance (p : list byte) (n : Z) : list byte := skipn (Z.to_nat n) p.

(** Bytes [data] written into buffer [buf] from position [pos] on. *)
Definition write_at (buf : list byte) (pos : nat) (data : list byte) : list byte :=
  firstn pos buf ++ data ++ skipn (pos + length data) buf.

(** [std::make_unique<std::byte []>(n)]: [n] value-initialised bytes. *)
Definition make_unique (n : Z) : list byte := repeat Byte.x00 (Z.to_nat n).

(** ** Constants and structures *)

Definition CHUNK_SIZE : Z := 0x20000.

Definition MAX_BLOCKS : Z := 0xFFFF.

(** [sizeof(CompressedMapHeader)]: [block_count] and [MAX_BLOCKS] offsets. *)
Definition sizeof_CompressedMapHeader : Z := 4 + 4 * MAX_BLOCKS.

(** The header as [compress_file] fills it: [block_offsets] lists the entries
    that were assigned, the remaining entries of the table stay zero. *)
Record CompressedMapHeader := {
  block_count : Z;
  block_offsets : list Z
}.

(** The bytes of a header held in a zero-filled vector of
    [sizeof(CompressedMapHeader)] bytes. *)
Definition header_bytes (h : CompressedMapHeader) : list byte :=
  store_uint32_t (block_count h)
  ++ flat_map store_uint32_t (block_offsets h)
  ++ repeat Byte.x00 (4 * (Z.to_nat MAX_BLOCKS - length (block_offsets h))).

(** Fields of the header that [reinterpret_cast] lays over a byte vector. *)
Definition header_block_count (data : list byte) : Z := load_uint32_t data.
Definition header_block_offsets (data : list byte) (i : nat) : Z :=
  load_uint32_t (advance data (4 + 4 * Z.of_nat i)).

Record Worker := mkWorker {
  input : list byte;
  input_size : Z;
  output : list byte;
  output_size : Z;
  offset : Z;
  failure : bool;
  mutex : bool;       (* [true] while the mutex is held *)
  started : bool
}.

Definition set_failure (w : Worker) : Worker :=
  mkWorker (input w) (input_size w) (output w) (output_size w) (offset w)
           true (mutex w) (started w).
Definition set_output (w : Worker) (o : list byte) : Worker :=
  mkWorker (input w) (input_size w) o (output_size w) (offset w)
           (failure w) (mutex w) (started w).
Definition set_output_size (w : Worker) (n : Z) : Worker :=
  mkWorker (input w) (input_size w) (output w) n (offset w)
           (failure w) (mutex w) (started w).
Definition lock (w : Worker) : Worker :=
  mkWorker (input w) (input_size w) (output w) (output_size w) (offset w)
           (failure w) true (started w).
Definition unlock (w : Worker) : Worker :=
  mkWorker (input w) (input_size w) (output w) (output_size w) (offset w)
           (failure w) false (started w).
Definition set_started (w : Worker) : Worker :=
  mkWorker (input w) (input_size w) (output w) (output_size w) (offset w)
           (failure w) (mutex w) true.

(** ** Diagnostics and results of a run *)

(** The messages the program prints on [stderr]. *)
Inductive Diag :=
| NotEnoughBytes
| InvalidBlockCountMax (block_count : Z)
| InvalidBlockCountZero
| InvalidOffset (i : nat) (offset file_size : Z)
| BlockFailedToDecompress (i : nat)
| MaximumBlocksExceeded (block_count : Z)
| BlockFailedToCompress (i : nat)
| FinalSizeExceeds (current_offset : Z)
| FailedToWrite.

(** What a run leaves behind: the exit status, the diagnostics in the order
    printed, and the contents of the output file ([None] when the output file
    was never opened). *)
Record Run := {
  exit_status : Z;
  diagnostics : list Diag;
  output_file : option (list byte)
}.

Definition fail (d : list Diag) : Run :=
  {| exit_status := EXIT_FAILURE; diagnostics := d; output_file := None |}.

(** ** The zlib interface *)

Class Zlib := {
  (** [deflateInit(Z_BEST_COMPRESSION)], [deflate(Z_FINISH)], [deflateEnd] on
      a stream that reads the bytes [src] ([avail_in] of them) with room for
      [avail_out] bytes: whether the three calls returned [Z_OK],
      [Z_STREAM_END] and [Z_OK], and the [total_out] bytes produced. *)
  zlib_deflate : forall (src : list byte) (avail_out : Z), bool * list byte;
  (** [inflateInit], [inflate(Z_FINISH)], [inflateEnd] on a stream whose
      [next_in] views [src] with the declared length [avail_in] and room for
      [avail_out] bytes: whether the three calls returned [Z_OK],
      [Z_STREAM_END] and [Z_OK], and the bytes produced. [src] ends where
      the buffer ends: what [inflate] would read in memory past the buffer,
      when [avail_in] declares more than the buffer holds, is not part of
      [src]. *)
  zlib_inflate : forall (src : list byte) (avail_in avail_out : Z), bool * list byte
}.

(** What the program relies on: neither call writes past [avail_out]; a
    complete stream is no longer than zlib's [compressBound] of the source
    length; and a stream produced by [deflate] is inflated back whenever the
    declared input covers it (whatever follows it) and the room is the
    original length. *)
Class ZlibContract (zlib : Zlib) := {
  deflate_fits : forall src avail_out,
    0 <= avail_out -> size (snd (zlib_deflate src avail_out)) <= avail_out;
  deflate_bound : forall src avail_out stream,
    zlib_deflate src avail_out = (true, stream) ->
    size stream
    <= size src + size src / 4096 + size src / 16384 + size src / 33554432 + 13;
  inflate_fits : forall src avail_in avail_out,
    0 <= avail_out -> size (snd (zlib_inflate src avail_in avail_out)) <= avail_out;
  inflate_deflate : forall src avail_out stream rest avail_in,
    zlib_deflate src avail_out = (true, stream) ->
    size stream <= avail_in ->
    zlib_inflate (stream ++ rest) avail_in (size src) = (true, src)
}.

(** What [inflate] with [Z_FINISH] does with the room it is given: a stream
    that ends within some room ends the same way within any room that holds
    its data, and does not end within less. *)
Class InflateFinish (zlib : Zlib) := {
  inflate_room : forall src avail_in room data room',
    zlib_inflate src avail_in room = (true, data) ->
    size data <= room' ->
    zlib_inflate src avail_in room' = (true, data);
  inflate_overflow : forall src avail_in room data room',
    zlib_inflate src avail_in room = (true, data) ->
    room' < size data ->
    fst (zlib_inflate src avail_in room') = false
}.

(** ** Reading and writing files *)

(** [read_file] on a file that opens and holds [contents]. *)
Definition read_file (contents : list byte) (minimum_size : Z) : Diag + list byte :=
  if (negb (minimum_size =? 0)) && (size contents <? minimum_size)
  then inl NotEnoughBytes
  else inr contents.

(** The loop of [write_file] over the workers, [f] being what the file holds
    so far. [fwrite] of one item of size zero returns 0, which the loop takes
    for a failure. *)
Fixpoint write_workers (workers : list Worker) (f : list byte) : Run :=
  match workers with
  | [] => {| exit_status := EXIT_SUCCESS; diagnostics := []; output_file := Some f |}
  | w :: workers' =>
      if output_size w =? 0
      then {| exit_status := EXIT_FAILURE; diagnostics := [FailedToWrite];
              output_file := Some f |}
      else write_workers workers'
             (f ++ firstn (Z.to_nat (output_size w)) (output w))
  end.

(** [write_file] on an output file that opens and accepts every write. *)
Definition write_file (workers : list Worker) (start : list byte) : Run :=
  write_workers workers start.

(** ** The codec jobs *)

Section Codec.
Context {zlib : Zlib}.

Definition perform_decompression (worker : Worker) : Worker :=
    let avail_in := uInt (input_size worker) in
    let avail_out := uInt (output_size worker) in
    let '(ok, produced) := zlib_inflate (input worker) avail_in avail_out in
    let worker := set_output worker (write_at (output worker) 0 produced) in
    let worker := if ok then worker else set_failure worker in
    unlock worker.

Definition perform_compression (worker : Worker) : Worker :=
    let avail_in := uInt (input_size worker) in
    let avail_out := uInt (size_t (output_size worker - sizeof_uint32_t)) in
    let '(ok, produced) :=
      zlib_deflate (firstn (Z.to_nat avail_in) (input worker)) avail_out in
    let worker :=
      set_output worker
        (write_at (output worker) (Z.to_nat sizeof_uint32_t) produced) in
    let worker :=
      if ok then set_output_size worker (size_t (size produced + sizeof_uint32_t))
      else set_failure worker in
    unlock worker.
End Codec.

(** ** The worker scheduler *)

(** [next_worker]: the index of the first worker that was not started. *)
Fixpoint next_worker (workers : list Worker) : option nat :=
  match workers with
  | [] => None
  | w :: workers' =>
      if started w then option_map S (next_worker workers') else Some 0%nat
  end.

(** [busy_workers] on a snapshot of the workers: [try_lock] fails on a held
    mutex, and then the worker counts when it was started. *)
Definition busy_workers (workers : list Worker) : Z :=
  fold_left (fun count w => if mutex w then count + Z.b2z (started w) else count)
            workers 0.

(** [perform_job]. The sequential branch calls [function] on every worker;
    the threaded branch is the dispatch loop of [step] below, and every run of
    that loop that leaves it holds the workers given here
    ([dispatch_loop_result]). *)
Definition perform_job (hardware_concurrency : Z) (function : Worker -> Worker)
    (workers : list Worker) : list Worker :=
  match workers with
  | [] => []
  | _ =>
      let workers := map lock workers in
      let max_threads := hardware_concurrency in
      if max_threads <=? 1 then map function workers
      else map (fun w => function (set_started w)) workers
  end.

(** The dispatch loop of [perform_job], one scheduler step or one thread
    completion at a time. *)
Inductive Phase :=
| Polling                                            (* top of [while(true)] *)
| Counting (next : option nat) (i : nat) (count : Z) (* in [busy_workers], [i] workers seen *)
| Deciding (next : option nat) (busy_count : Z)      (* at the [if] chain *)
| Exited.                                            (* after [break] *)

Record Sched := mkSched {
  jobs : list Worker;
  phase : Phase
}.

Inductive Event :=
| Dispatch (i : nat)   (* worker [i] handed to a new thread *)
| Complete (i : nat)   (* the thread of worker [i] ran [function] to its end *)
| Silent.

(** Worker [i] replaced by [w]. *)
Fixpoint put (workers : list Worker) (i : nat) (w : Worker) : list Worker :=
  match workers, i with
  | [], _ => []
  | _ :: workers', O => w :: workers'
  | w0 :: workers', S i' => w0 :: put workers' i' w
  end.

Section DispatchLoop.
Variable max_threads : Z.
Variable function : Worker -> Worker.

  (** [step_try_lock_fail] asks nothing of the mutex: [try_lock] returns
      [false] on a held mutex and is allowed to do so on a free one.
      A detached thread exists for exactly the workers that were started and
      still hold their mutex; [step_thread] is such a thread running
      [function], which ends by releasing the mutex. *)
Inductive step : Sched -> Event -> Sched -> Prop :=
  | step_next_worker ws :
      step (mkSched ws Polling) Silent
           (mkSched ws (Counting (next_worker ws) 0 0))
  | step_try_lock_ok ws next i count w :
      nth_error ws i = Some w -> mutex w = false ->
      step (mkSched ws (Counting next i count)) Silent
           (mkSched ws (Counting next (S i) count))
  | step_try_lock_fail ws next i count w :
      nth_error ws i = Some w ->
      step (mkSched ws (Counting next i count)) Silent
           (mkSched ws (Counting next (S i) (count + Z.b2z (started w))))
  | step_counted ws next count :
      step (mkSched ws (Counting next (length ws) count)) Silent
           (mkSched ws (Deciding next count))
  | step_break ws :
      step (mkSched ws (Deciding None 0)) Silent (mkSched ws Exited)
  | step_launch ws i busy_count w :
      nth_error ws i = Some w -> busy_count < max_threads ->
      step (mkSched ws (Deciding (Some i) busy_count)) (Dispatch i)
           (mkSched (put ws i (set_started w)) Polling)
  | step_sleep ws next busy_count :
      ~ (busy_count = 0 /\ next = None) ->
      ~ (next <> None /\ busy_count < max_threads) ->
      step (mkSched ws (Deciding next busy_count)) Silent (mkSched ws Polling)
  | step_thread ws ph i w :
      nth_error ws i = Some w -> started w = true -> mutex w = true ->
      step (mkSched ws ph) (Complete i) (mkSched (put ws i (function w)) ph).

  (** States the loop passes through when entered with [workers]. *)
Inductive reachable (workers : list Worker) : Sched -> Prop :=
  | reach_enter : reachable workers (mkSched (map lock workers) Polling)
  | reach_step s e s' :
      reachable workers s -> step s e s' -> reachable workers s'.
End DispatchLoop.

(** ** The pipeline drivers *)

(** A [for] loop over the block indices [i, i + count) that leaves the
    function at the first block whose set-up reports an error. *)
Fixpoint allocate (setup : nat -> Diag + Worker) (i count : nat) : Diag + list Worker :=
  match count with
  | O => inr []
  | S count' =>
      match setup i with
      | inl d => inl d
      | inr w =>
          match allocate setup (S i) count' with
          | inl d => inl d
          | inr ws => inr (w :: ws)
          end
      end
  end.

(** The loop that prints one message per failed worker, from index [i] on. *)
Fixpoint report_failures (message : nat -> Diag) (i : nat) (workers : list Worker)
    : list Diag :=
  match workers with
  | [] => []
  | w :: workers' =>
      (if failure w then [message i] else [])
      ++ report_failures message (S i) workers'
  end.

(** The loop of [compress_file] that sets the offsets. *)
Fixpoint set_offsets (current_offset : Z) (workers : list Worker) : Diag + list Z :=
  match workers with
  | [] => inr []
  | w :: workers' =>
      if UINT32_MAX <? current_offset
      then inl (FinalSizeExceeds current_offset)
      else
        match set_offsets (size_t (current_offset + output_size w)) workers' with
        | inl d => inl d
        | inr offsets => inr (uint32_t current_offset :: offsets)
        end
  end.

Section Pipeline.
Context {zlib : Zlib}.
Variable hardware_concurrency : Z.

  (** The body of the allocation loop of [decompress_file] at block [i]. *)
Definition decompress_worker (compressed_file : list byte) (i : nat)
      : Diag + Worker :=
    let file_size := size compressed_file in
    let offset := header_block_offsets compressed_file i in
    if file_size <? size_t (offset + sizeof_uint32_t)
    then inl (InvalidOffset i offset file_size)
    else
      let input := advance compressed_file offset in
      let uncompressed_size := load_uint32_t input in
      let remaining_size :=
        size_t (size_t (file_size - offset) + sizeof_uint32_t) in
      inr (mkWorker (advance input sizeof_uint32_t) remaining_size
                    (make_unique uncompressed_size) uncompressed_size
                    0 false false false).

Definition decompress_file (contents : list byte) : Run :=
    match read_file contents sizeof_CompressedMapHeader with
    | inl d => fail [d]
    | inr compressed_file =>
        let block_count := header_block_count compressed_file in
        if MAX_BLOCKS <? block_count
        then fail [InvalidBlockCountMax block_count]
        else if block_count =? 0
        then fail [InvalidBlockCountZero]
        else
          match allocate (decompress_worker compressed_file) 0
                         (Z.to_nat block_count) with
          | inl d => fail [d]
          | inr workers =>
              let workers :=
                perform_job hardware_concurrency perform_decompression workers in
              if existsb failure workers
              then fail (report_failures BlockFailedToDecompress 0 workers)
              else write_file workers []
          end
    end.

  (** The body of the allocation loop of [compress_file] at block [i]. *)
Definition compress_worker (uncompressed_file : list byte) (i : nat)
      : Diag + Worker :=
    let file_size := size uncompressed_file in
    let offset := size_t (Z.of_nat i * CHUNK_SIZE) in
    if file_size <? size_t (offset + sizeof_uint32_t)
    then inl (InvalidOffset i offset file_size)
    else
      let input := advance uncompressed_file offset in
      let remaining_size := size_t (file_size - offset) in
      let remaining_size :=
        if CHUNK_SIZE <? remaining_size then CHUNK_SIZE else remaining_size in
      let worker_offset := sizeof_uint32_t in
      let max_size := size_t (size_t (remaining_size * 2) + worker_offset) in
      inr (mkWorker input remaining_size
                    (write_at (make_unique max_size) 0
                              (store_uint32_t (uint32_t remaining_size)))
                    max_size worker_offset false false false).

  (** [block_count] as [compress_file] computes it from the file size. *)
Definition plan_block_count (file_size : Z) : Z :=
    size_t (file_size / CHUNK_SIZE + Z.b2z (0 <? file_size mod CHUNK_SIZE)).

Definition compress_file (contents : list byte) : Run :=
    match read_file contents 0 with
    | inl d => fail [d]
    | inr uncompressed_file =>
        let file_size := size uncompressed_file in
        let block_count := plan_block_count file_size in
        if MAX_BLOCKS <? block_count
        then fail [MaximumBlocksExceeded block_count]
        else
          match allocate (compress_worker uncompressed_file) 0
                         (Z.to_nat block_count) with
          | inl d => fail [d]
          | inr workers =>
              let workers :=
                perform_job hardware_concurrency perform_compression workers in
              if existsb failure workers
              then fail (report_failures BlockFailedToCompress 0 workers)
              else
                match set_offsets sizeof_CompressedMapHeader workers with
                | inl d => fail [d]
                | inr offsets =>
                    write_file workers
                      (header_bytes {| block_count := uint32_t block_count;
                                       block_offsets := offsets |})
                end
          end
    end.
End Pipeline.

(** The bytes of chunk [i] run from [i * CHUNK_SIZE] to the end of the file,
    [CHUNK_SIZE] of them at most. *)
Definition chunk_size (file_size : Z) (i : nat) : Z :=
  Z.min CHUNK_SIZE (file_size - Z.of_nat i * CHUNK_SIZE).

(** The workers the allocation loops set up for block [i] when its offset
    passes the check. *)
Definition planned_worker (uncompressed_file : list byte) (i : nat) : Worker :=
  let remaining_size := chunk_size (size uncompressed_file) i in
  mkWorker (advance uncompressed_file (Z.of_nat i * CHUNK_SIZE))
           remaining_size
           (write_at (make_unique (remaining_size * 2 + 4)) 0
                     (store_uint32_t remaining_size))
           (remaining_size * 2 + 4)
           4 false false false.

Definition located_worker (compressed_file : list byte) (i : nat) : Worker :=
  let offset := header_block_offsets compressed_file i in
  let uncompressed_size := load_uint32_t (advance compressed_file offset) in
  mkWorker (advance (advance compressed_file offset) sizeof_uint32_t)
           (size_t (size_t (size compressed_file - offset) + sizeof_uint32_t))
           (make_unique uncompressed_size) uncompressed_size
           0 false false false.

(** ** The layout of a container

    What [compress_file] is to write for [contents], stated from the chunks:
    chunk [i] of the file, the outcome of [deflate] on it with the room of the
    job's buffer behind the size prefix, the record of block [i], and the
    offsets as running sums of the record sizes. *)

Definition chunk (contents : list byte) (i : nat) : list byte :=
  firstn (Z.to_nat (chunk_size (size contents) i))
         (advance contents (Z.of_nat i * CHUNK_SIZE)).

(** The bytes [write_file] writes for a worker. *)
Definition block_record (w : Worker) : list byte :=
  firstn (Z.to_nat (output_size w)) (output w).

Definition total (sizes : list Z) : Z := fold_right Z.add 0 sizes.

Fixpoint offsets_from (start : Z) (sizes : list Z) : list Z :=
  match sizes with
  | [] => []
  | n :: sizes' => start :: offsets_from (start + n) sizes'
  end.

Section Layout.
Context {zlib : Zlib}.

Definition deflated (contents : list byte) (i : nat) : bool * list byte :=
  zlib_deflate (chunk contents i) (2 * chunk_size (size contents) i).

Definition record (contents : list byte) (i : nat) : list byte :=
  store_uint32_t (chunk_size (size contents) i) ++ snd (deflated contents i).

Definition records (contents : list byte) : list (list byte) :=
  map (record contents)
      (seq 0 (Z.to_nat ((size contents + 131071) / 131072))).

Definition container (contents : list byte) : list byte :=
  header_bytes
    {| block_count := (size contents + 131071) / 131072;
       block_offsets :=
         offsets_from sizeof_CompressedMapHeader
                      (map size (records contents)) |}
  ++ concat (records contents).
End Layout.

(** ** A reference codec

    A stream is the 32-bit length of the data followed by the data, stored as
    they are. It meets [ZlibContract] and serves to run the pipeline on
    concrete files. *)

Definition stored_deflate (src : list byte) (avail_out : Z) : bool * list byte :=
  let stream := store_uint32_t (size src) ++ src in
  if (size src <? 2 ^ 32) && (size stream <=? avail_out)
  then (true, stream)
  else (false, []).

Definition stored_inflate (src : list byte) (avail_in avail_out : Z)
    : bool * list byte :=
  let avail := firstn (Z.to_nat avail_in) src in
  if size avail <? 4 then (false, [])
  else
    let n := load_uint32_t avail in
    let body := skipn 4 avail in
    if (size body <? n) || (avail_out <? n)
    then (false, firstn (Z.to_nat avail_out) body)
    else (true, firstn (Z.to_nat n) body).

Definition Stored : Zlib :=
  {| zlib_deflate := stored_deflate; zlib_inflate := stored_inflate |}.

(** ** zlib streams of stored blocks

    [inflate] on the zlib stream format (RFC 1950: two header bytes, deflate
    data, the Adler-32 checksum of the data) where the deflate data (RFC
    1951) is made of stored blocks: a header byte with [BFINAL] in bit 0 and
    [BTYPE] = 00 in bits 1 and 2, [LEN] and its complement [NLEN] in two
    bytes each, and [LEN] bytes of data. Blocks of compressed data are not
    modelled and are reported as errors; [deflate], which
    [decompress_file] does not call, reports an error as well. *)

Definition adler32 (data : list byte) : Z :=
  let sums :=
    fold_left (fun (s : Z * Z) (x : byte) =>
                 let a := (fst s + byte.unsigned x) mod 65521 in
                 (a, (snd s + a) mod 65521))
              data (1, 0) in
  snd sums * 65536 + fst sums.

(** The Adler-32 value is stored most significant byte first. *)
Definition load_be32 (p : list byte) : Z := le_combine (rev (firstn 4 p)).

(** The stored blocks at the front of [p]: their data, and what follows the
    final block. Every block takes five bytes at least, so [length p] is
    fuel enough. *)
Fixpoint stored_blocks (fuel : nat) (p : list byte)
    : option (list byte * list byte) :=
  match fuel with
  | O => None
  | S fuel' =>
      match p with
      | h :: l0 :: l1 :: n0 :: n1 :: body =>
          let bfinal := Z.testbit (byte.unsigned h) 0 in
          let btype := Z.land (Z.shiftr (byte.unsigned h) 1) 3 in
          let len := le_combine [l0; l1] in
          let nlen := le_combine [n0; n1] in
          if negb (btype =? 0) then None
          else if negb (nlen =? 65535 - len) then None
          else if size body <? len then None
          else
            let data := firstn (Z.to_nat len) body in
            let rest := skipn (Z.to_nat len) body in
            if bfinal then Some (data, rest)
            else
              match stored_blocks fuel' rest with
              | Some (data', rest') => Some (data ++ data', rest')
              | None => None
              end
      | _ => None
      end
  end.

(** [inflateInit], [inflate(Z_FINISH)], [inflateEnd]: [Z_STREAM_END] is
    returned when the header is that of a deflate stream without preset
    dictionary, the blocks end within the [avail_in] bytes, their data fit
    [avail_out] and the checksum matches; the room that is left plays no
    part. *)
Definition stored_blocks_inflate (src : list byte) (avail_in avail_out : Z)
    : bool * list byte :=
  match firstn (Z.to_nat avail_in) src with
  | cmf :: flg :: p =>
      let cm := Z.land (byte.unsigned cmf) 15 in
      let cinfo := Z.shiftr (byte.unsigned cmf) 4 in
      let fdict := Z.testbit (byte.unsigned flg) 5 in
      if negb ((cm =? 8) && (cinfo <=? 7)
               && ((byte.unsigned cmf * 256 + byte.unsigned flg) mod 31 =? 0)
               && negb fdict)
      then (false, [])
      else
        match stored_blocks (length p) p with
        | None => (false, [])
        | Some (data, rest) =>
            if avail_out <? size data
            then (false, firstn (Z.to_nat avail_out) data)
            else if size rest <? 4 then (false, data)
            else (load_be32 rest =? adler32 data, data)
        end
  | _ => (false, [])
  end.

Definition StoredBlocks : Zlib :=
  {| zlib_deflate := fun _ _ => (false, []);
     zlib_inflate := stored_blocks_inflate |}.

(** ** What the dispatch loop maintains *)

(** A job is pending, running or done: the worker as [perform_job] locked it,
    then marked started, then passed through [function]. *)
Definition job_state (function : Worker -> Worker) (w0 w : Worker) : Prop :=
  w = lock w0
  \/ w = set_started (lock w0)
  \/ w = function (set_started (lock w0)).

(** After [i] workers were examined by [busy_workers]: [next] is still what
    [next_worker] returns, [count] is no less than the number of busy workers
    among the first [i], and a count of zero with no worker left to start
    means that the first [i] mutexes were found free. *)
Definition counted (ws : list Worker) (next : option nat) (i : nat) (count : Z)
    : Prop :=
  next = next_worker ws
  /\ (i <= length ws)%nat
  /\ busy_workers (firstn i ws) <= count
  /\ (next = None -> count = 0 ->
      forall j w, (j < i)%nat -> nth_error ws j = Some w -> mutex w = false).

Definition phase_invariant (ws : list Worker) (ph : Phase) : Prop :=
  match ph with
  | Polling => True
  | Counting next i count => counted ws next i count
  | Deciding next busy_count => counted ws next (length ws) busy_count
  | Exited => forall j w, nth_error ws j = Some w -> mutex w = false
  end.

Definition invariant (max_threads : Z) (function : Worker -> Worker)
    (workers : list Worker) (s : Sched) : Prop :=
  length (jobs s) = length workers
  /\ (forall j w0 w,
        nth_error workers j = Some w0 -> nth_error (jobs s) j = Some w ->
        job_state function w0 w)
  /\ busy_workers (jobs s) <= max_threads
  /\ phase_invariant (jobs s) (phase s).

(** The worker a job starts from: [perform_job] locks every mutex, and the
    dispatch loop marks the worker started before it hands it to a thread. *)
Definition prepare (hardware_concurrency : Z) (w : Worker) : Worker :=
  if hardware_concurrency <=? 1 then lock w else set_started (lock w).

(** ** Example files *)

(** The header of a container with one block placed right after it. *)
Definition one_block_header : list byte :=
  header_bytes {| block_count := 1; block_offsets := [262144] |}.

(** A container that ends with its header: block 0 lies outside the file. *)
Definition truncated_container : list byte := one_block_header.

(** A container whose only block holds the two bytes 61 62 as a stream of the
    reference codec. *)
Definition small_container : list byte :=
  one_block_header
  ++ store_uint32_t 2
  ++ store_uint32_t 2 ++ [Byte.x61; Byte.x62].

(** A file of five bytes and the container the reference codec makes of it. *)
Definition five_bytes : list byte :=
  [Byte.x01; Byte.x02; Byte.x03; Byte.x04; Byte.x05].

Definition five_bytes_container : list byte :=
  one_block_header
  ++ store_uint32_t 5
  ++ store_uint32_t 5 ++ five_bytes.

(** Equality test on byte vectors, to compare files by computation. *)
Fixpoint bytes_eqb (a b : list byte) : bool :=
  match a, b with
  | [], [] => true
  | x :: a', y :: b' => Stdlib.Strings.Byte.eqb x y && bytes_eqb a' b'
  | _, _ => false
  end.

Definition holds_bytes (o : option (list byte)) (b : list byte) : bool :=
  match o with
  | Some a => bytes_eqb a b
  | None => false
  end.

(** The container [compress_file] writes for the empty file. *)
Definition empty_container : list byte :=
  header_bytes {| block_count := 0; block_offsets := [] |}.

(** A decompression job of the reference codec whose stream holds two
    bytes while its buffer was allocated for five. *)
Definition short_stream_job : Worker :=
  mkWorker (store_uint32_t 2 ++ [Byte.x61; Byte.x62]) 14
           (make_unique 5) 5 0 false true false.

(** The same stream with room for one byte only. *)
Definition long_stream_job : Worker :=
  mkWorker (store_uint32_t 2 ++ [Byte.x61; Byte.x62]) 14
           (make_unique 1) 1 0 false true false.

(** The zlib stream of the two bytes [ab] in one stored block: header
    [78 01], block header [01], [LEN] = 2, [NLEN], the data, and the
    checksum [012600C4]. *)
Definition ab_stream : list byte :=
  [Byte.x78; Byte.x01;
   Byte.x01; Byte.x02; Byte.x00; Byte.xfd; Byte.xff; Byte.x61; Byte.x62;
   Byte.x01; Byte.x26; Byte.x00; Byte.xc4].

(** A container whose only block declares five bytes and holds [ab_stream],
    and the job [decompress_file] sets up for it. *)
Definition ab_container : list byte :=
  one_block_header ++ store_uint32_t 5 ++ ab_stream.

Definition ab_job : Worker :=
  mkWorker ab_stream 21 (make_unique 5) 5 0 false false false.

(** A codec whose calls all report an error. *)
Definition Refusing : Zlib :=
  {| zlib_deflate := fun _ _ => (false, []);
     zlib_inflate := fun _ _ _ => (false, []) |}.

(** A container whose only block is cut off after the first byte of its
    stream. *)
Definition corrupt_container : list byte :=
  one_block_header ++ store_uint32_t 5 ++ [Byte.x05].

(** A worker as the allocation loops leave it, and the states of the
    dispatch loop on it up to the first dispatch. *)
Definition fresh_job : Worker :=
  mkWorker (store_uint32_t 2 ++ [Byte.x61; Byte.x62]) 14
           (make_unique 2) 2 0 false false false.

Definition deciding_state : Sched :=
  mkSched [lock fresh_job] (Deciding (Some 0%nat) 0).

Definition dispatched_state : Sched :=
  mkSched [set_started (lock fresh_job)] Polling.

(** A file of 32765 full chunks and four more bytes, all zero. *)
Definition huge_file : list byte := repeat Byte.x00 (Z.to_nat 4294574084).

(** ** Continuing the dispatch loop *)

(** The dispatch loop continued from one state to another, by scheduler
    steps and thread completions. *)
Inductive continues (max_threads : Z) (function : Worker -> Worker)
    : Sched -> Sched -> Prop :=
| continues_here s : continues max_threads function s s
| continues_step s e s' s'' :
    step max_threads function s e s' ->
    continues max_threads function s' s'' ->
    continues max_threads function s s''.

(** ** Further example files and runs *)

(** A container whose only block declares an uncompressed size of zero and
    holds the stream of the reference codec for no data. *)
Definition zero_block_container : list byte :=
  one_block_header ++ store_uint32_t 0 ++ store_uint32_t 0.

(** Three workers as the jobs leave them, the second with nothing to
    write. *)
Definition written_worker (bytes : list byte) : Worker :=
  mkWorker [] 0 bytes (size bytes) 0 false false false.

Definition workers_with_gap : list Worker :=
  [written_worker [Byte.x61; Byte.x62]; written_worker [];
   written_worker [Byte.x63]].

(** A file of 65535 full chunks and one more byte, all zero. *)
Definition oversized_file : list byte :=
  repeat Byte.x00 (Z.to_nat 8589803521).

(** One worker, run to its end, and the loop left. *)
Definition exited_state : Sched :=
  mkSched [@perform_decompression Stored (set_started (lock fresh_job))]
          Exited.

(** * Properties *)

(** ** Comparing runs by computation *)

Lemma bytes_eqb_eq a b : bytes_eqb a b = true -> a = b.
Proof.
  revert b. induction a as [|x a IH]; intros [|y b] H; simpl in H;
    try discriminate; [reflexivity|].
  apply andb_true_iff in H. destruct H as [Hx Hab].
  apply Stdlib.Strings.Byte.byte_dec_bl in Hx. subst y.
  f_equal. apply IH. exact Hab.
Qed.

Lemma holds_bytes_eq o b : holds_bytes o b = true -> o = Some b.
Proof.
  destruct o as [a|]; simpl; [|discriminate].
  intros H. f_equal. apply bytes_eqb_eq. exact H.
Qed.

Lemma Run_eq r e d o :
  exit_status r = e -> diagnostics r = d -> output_file r = o ->
  r = {| exit_status := e; diagnostics := d; output_file := o |}.
Proof. destruct r. simpl. intros -> -> ->. reflexivity. Qed.

Ltac run_by_computation :=
  apply Run_eq;
  [ vm_compute; reflexivity
  | vm_compute; reflexivity
  | first [ apply holds_bytes_eq; vm_compute; reflexivity
          | vm_compute; reflexivity ] ].


(** ** Machine integers and byte lists *)

Lemma size_t_small z : 0 <= z < 2 ^ 64 -> size_t z = z.
Proof. intros H. unfold size_t. apply Z.mod_small. exact H. Qed.

Lemma uint32_t_small z : 0 <= z < 2 ^ 32 -> uint32_t z = z.
Proof. intros H. unfold uint32_t. apply Z.mod_small. exact H. Qed.

Lemma uInt_small z : 0 <= z < 2 ^ 32 -> uInt z = z.
Proof. intros H. unfold uInt. apply Z.mod_small. exact H. Qed.

Lemma size_nonneg v : 0 <= size v.
Proof. unfold size. lia. Qed.

Lemma size_app u v : size (u ++ v) = size u + size v.
Proof. unfold size. rewrite length_app. lia. Qed.

Lemma size_nil : size [] = 0.
Proof. reflexivity. Qed.

Lemma load_uint32_t_range p : 0 <= load_uint32_t p < 2 ^ 32.
Proof.
  unfold load_uint32_t.
  pose proof (le_combine_bound (firstn 4 p)) as H.
  pose proof (length_firstn 4 p) as L.
  assert (2 ^ (8 * Z.of_nat (length (firstn 4 p))) <= 2 ^ 32).
  { apply Z.pow_le_mono_r; lia. }
  lia.
Qed.

Lemma load_store_uint32_t v rest :
  load_uint32_t (store_uint32_t v ++ rest) = uint32_t v.
Proof.
  unfold load_uint32_t, store_uint32_t, uint32_t.
  rewrite firstn_app, length_le_split, Nat.sub_diag, firstn_O, app_nil_r.
  rewrite firstn_all2 by (rewrite length_le_split; lia).
  apply le_combine_split.
Qed.

Lemma header_offset_range data i : 0 <= header_block_offsets data i < 2 ^ 32.
Proof. apply load_uint32_t_range. Qed.

(** ** Header validation in [decompress_file] *)

Section HeaderValidation.
Context {zlib : Zlib}.
Variable hardware_concurrency : Z.

Lemma decompress_file_short contents :
    size contents < sizeof_CompressedMapHeader ->
    decompress_file hardware_concurrency contents = fail [NotEnoughBytes].
  Proof.
    intros H. unfold decompress_file, read_file.
    replace (size contents <? sizeof_CompressedMapHeader) with true
      by (symmetry; apply Z.ltb_lt; exact H).
    reflexivity.
  Qed.

Lemma read_file_enough contents :
    sizeof_CompressedMapHeader <= size contents ->
    read_file contents sizeof_CompressedMapHeader = inr contents.
  Proof.
    intros H. unfold read_file.
    replace (size contents <? sizeof_CompressedMapHeader) with false
      by (symmetry; apply Z.ltb_ge; exact H).
    rewrite andb_false_r. reflexivity.
  Qed.

Lemma decompress_file_zero_blocks contents :
    sizeof_CompressedMapHeader <= size contents ->
    header_block_count contents = 0 ->
    decompress_file hardware_concurrency contents = fail [InvalidBlockCountZero].
  Proof.
    intros Hsize Hcount. unfold decompress_file.
    rewrite read_file_enough by exact Hsize.
    cbv zeta. rewrite Hcount. reflexivity.
  Qed.

Lemma decompress_file_too_many_blocks contents :
    sizeof_CompressedMapHeader <= size contents ->
    MAX_BLOCKS < header_block_count contents ->
    decompress_file hardware_concurrency contents
    = fail [InvalidBlockCountMax (header_block_count contents)].
  Proof.
    intros Hsize Hcount. unfold decompress_file.
    rewrite read_file_enough by exact Hsize.
    cbv zeta.
    replace (MAX_BLOCKS <? header_block_count contents) with true
      by (symmetry; apply Z.ltb_lt; exact Hcount).
    reflexivity.
  Qed.
End HeaderValidation.

(** C5. [decompress_file] needs a file of at least the header size, and on a
    header whose [block_count] is 0 or above 65535 it ends with a format
    diagnostic, the failure status and no output file. *)
Theorem decompress_file_rejects_block_count
    (zlib : Zlib) (hardware_concurrency : Z) (contents : list byte) :
  (size contents < sizeof_CompressedMapHeader ->
   decompress_file hardware_concurrency contents
   = {| exit_status := EXIT_FAILURE; diagnostics := [NotEnoughBytes];
        output_file := None |})
  /\ (sizeof_CompressedMapHeader <= size contents ->
      header_block_count contents = 0 ->
      decompress_file hardware_concurrency contents
      = {| exit_status := EXIT_FAILURE; diagnostics := [InvalidBlockCountZero];
           output_file := None |})
  /\ (sizeof_CompressedMapHeader <= size contents ->
      65535 < header_block_count contents ->
      decompress_file hardware_concurrency contents
      = {| exit_status := EXIT_FAILURE;
           diagnostics := [InvalidBlockCountMax (header_block_count contents)];
           output_file := None |}).
Proof.
  split; [|split].
  - apply decompress_file_short.
  - apply decompress_file_zero_blocks.
  - apply decompress_file_too_many_blocks.
Qed.

(** A header-sized file of zero bytes declares no block; one that starts
    with the bytes 00 00 01 00 declares 65536 blocks. *)
Lemma decompress_file_rejects_block_count_witness :
  @decompress_file Stored 4 (repeat Byte.x00 (Z.to_nat 262144))
  = {| exit_status := EXIT_FAILURE; diagnostics := [InvalidBlockCountZero];
       output_file := None |}
  /\ @decompress_file Stored 4
       (store_uint32_t 65536 ++ repeat Byte.x00 (Z.to_nat 262140))
     = {| exit_status := EXIT_FAILURE;
          diagnostics :=
            [InvalidBlockCountMax
               (header_block_count
                  (store_uint32_t 65536 ++ repeat Byte.x00 (Z.to_nat 262140)))];
          output_file := None |}
  /\ @decompress_file Stored 4 [Byte.x01]
     = {| exit_status := EXIT_FAILURE; diagnostics := [NotEnoughBytes];
          output_file := None |}.
Proof.
  split; [|split].
  - apply (proj1 (proj2 (decompress_file_rejects_block_count
                           Stored 4 (repeat Byte.x00 (Z.to_nat 262144))))).
    + vm_compute. discriminate.
    + vm_compute. reflexivity.
  - apply (proj2 (proj2 (decompress_file_rejects_block_count Stored 4
             (store_uint32_t 65536 ++ repeat Byte.x00 (Z.to_nat 262140))))).
    + vm_compute. discriminate.
    + vm_compute. reflexivity.
  - apply (proj1 (decompress_file_rejects_block_count Stored 4 [Byte.x01])).
    vm_compute. reflexivity.
Defined.

(** ** The allocation loop *)

Lemma allocate_length setup i n ws :
  allocate setup i n = inr ws -> length ws = n.
Proof.
  revert i ws. induction n as [|n IH]; intros i ws H; simpl in H.
  - injection H as <-. reflexivity.
  - destruct (setup i) as [d|w]; [discriminate|].
    destruct (allocate setup (S i) n) as [d|ws'] eqn:E; [discriminate|].
    injection H as <-. simpl. f_equal. apply (IH (S i)). exact E.
Qed.

Lemma allocate_nth setup i n ws k w :
  allocate setup i n = inr ws -> nth_error ws k = Some w ->
  setup (i + k)%nat = inr w.
Proof.
  revert i ws k. induction n as [|n IH]; intros i ws k H Hk; simpl in H.
  - injection H as <-. destruct k; discriminate.
  - destruct (setup i) as [d|w0] eqn:E0; [discriminate|].
    destruct (allocate setup (S i) n) as [d|ws'] eqn:E; [discriminate|].
    injection H as <-. destruct k as [|k]; simpl in Hk.
    + injection Hk as <-. rewrite Nat.add_0_r. exact E0.
    + replace (i + S k)%nat with (S i + k)%nat by lia.
      apply (IH (S i) ws'); assumption.
Qed.

Lemma allocate_succeeds setup i n :
  (forall k, (k < n)%nat -> exists w, setup (i + k)%nat = inr w) ->
  exists ws, allocate setup i n = inr ws.
Proof.
  revert i. induction n as [|n IH]; intros i H; simpl.
  - exists []. reflexivity.
  - destruct (H 0%nat ltac:(lia)) as [w Hw]. rewrite Nat.add_0_r in Hw.
    rewrite Hw.
    destruct (IH (S i)) as [ws Hws].
    { intros k Hk. replace (S i + k)%nat with (i + S k)%nat by lia.
      apply H. lia. }
    rewrite Hws. exists (w :: ws). reflexivity.
Qed.

(** The loop returns at the first block whose set-up reports an error. *)
Lemma allocate_first_error setup i n :
  (exists k d, (k < n)%nat /\ setup (i + k)%nat = inl d) ->
  exists k d, (k < n)%nat /\ setup (i + k)%nat = inl d
    /\ (forall j, (j < k)%nat -> exists w, setup (i + j)%nat = inr w)
    /\ allocate setup i n = inl d.
Proof.
  revert i. induction n as [|n IH]; intros i (k & d & Hk & Hd).
  - lia.
  - simpl. destruct (setup i) as [d0|w0] eqn:E0.
    + exists 0%nat, d0. rewrite Nat.add_0_r.
      split; [lia|]. split; [exact E0|]. split; [|reflexivity].
      intros j Hj. lia.
    + destruct k as [|k].
      { rewrite Nat.add_0_r in Hd. congruence. }
      destruct (IH (S i)) as (k' & d' & Hk' & Hd' & Hbefore & Hall).
      { exists k, d. split; [lia|].
        replace (S i + k)%nat with (i + S k)%nat by lia. exact Hd. }
      exists (S k'), d'. repeat split.
      * lia.
      * replace (i + S k')%nat with (S i + k')%nat by lia. exact Hd'.
      * intros [|j] Hj.
        -- exists w0. rewrite Nat.add_0_r. exact E0.
        -- replace (i + S j)%nat with (S i + j)%nat by lia.
           apply Hbefore. lia.
      * rewrite Hall. reflexivity.
Qed.

(** ** Diagnostics of the later stages *)

Lemma report_failures_In message i workers d :
  In d (report_failures message i workers) <->
  exists k w, nth_error workers k = Some w /\ failure w = true
              /\ d = message (i + k)%nat.
Proof.
  revert i. induction workers as [|w ws IH]; intros i; simpl.
  - split; [tauto|]. intros ([|k] & w & H & _); discriminate.
  - rewrite in_app_iff, IH. split.
    + intros [H | (k & w' & Hk & Hf & ->)].
      * destruct (failure w) eqn:F; simpl in H; [|tauto].
        destruct H as [<-|[]]. exists 0%nat, w.
        rewrite Nat.add_0_r. auto.
      * exists (S k), w'. simpl. split; [exact Hk|]. split; [exact Hf|].
        f_equal. lia.
    + intros ([|k] & w' & Hk & Hf & ->); simpl in Hk.
      * injection Hk as ->. rewrite Hf. left. left. f_equal. lia.
      * right. exists k, w'. split; [exact Hk|]. split; [exact Hf|].
        f_equal. lia.
Qed.

Lemma write_workers_diagnostics workers f d :
  In d (diagnostics (write_workers workers f)) -> d = FailedToWrite.
Proof.
  revert f. induction workers as [|w ws IH]; intros f; simpl.
  - tauto.
  - destruct (output_size w =? 0); simpl.
    + intros [<-|[]]. reflexivity.
    + apply IH.
Qed.

(** The file starts with whatever was written before the workers. *)
Lemma write_workers_prefix workers f :
  exists tail, output_file (write_workers workers f) = Some (f ++ tail).
Proof.
  revert f. induction workers as [|w ws IH]; intros f; simpl.
  - exists []. rewrite app_nil_r. reflexivity.
  - destruct (output_size w =? 0); simpl.
    + exists []. rewrite app_nil_r. reflexivity.
    + destruct (IH (f ++ firstn (Z.to_nat (output_size w)) (output w)))
        as [tail H].
      rewrite H, <- app_assoc. eexists. reflexivity.
Qed.

(** ** Offset validation in [decompress_file] *)

Section OffsetValidation.
Context {zlib : Zlib}.
Variable hardware_concurrency : Z.

Lemma decompress_worker_error f i :
  size f < header_block_offsets f i + 4 ->
  decompress_worker f i
  = inl (InvalidOffset i (header_block_offsets f i) (size f)).
Proof.
  intros H. unfold decompress_worker, sizeof_uint32_t.
  pose proof (header_offset_range f i) as R.
  rewrite size_t_small by lia.
  replace (size f <? header_block_offsets f i + 4) with true
    by (symmetry; apply Z.ltb_lt; exact H).
  reflexivity.
Qed.

Lemma decompress_worker_ok f i :
  header_block_offsets f i + 4 <= size f ->
  decompress_worker f i = inr (located_worker f i).
Proof.
  intros H. unfold decompress_worker, located_worker, sizeof_uint32_t.
  pose proof (header_offset_range f i) as R.
  rewrite (size_t_small (header_block_offsets f i + 4)) by lia.
  replace (size f <? header_block_offsets f i + 4) with false
    by (symmetry; apply Z.ltb_ge; exact H).
  reflexivity.
Qed.

Lemma decompress_file_allocates contents :
  sizeof_CompressedMapHeader <= size contents ->
  1 <= header_block_count contents <= 65535 ->
  decompress_file hardware_concurrency contents
  = match allocate (decompress_worker contents) 0
                   (Z.to_nat (header_block_count contents)) with
    | inl d => fail [d]
    | inr workers =>
        let workers :=
          perform_job hardware_concurrency perform_decompression workers in
        if existsb failure workers
        then fail (report_failures BlockFailedToDecompress 0 workers)
        else write_file workers []
    end.
Proof.
  intros Hsize Hcount. unfold decompress_file.
  rewrite read_file_enough by exact Hsize. cbv zeta.
  replace (MAX_BLOCKS <? header_block_count contents) with false
    by (symmetry; apply Z.ltb_ge; unfold MAX_BLOCKS; lia).
  replace (header_block_count contents =? 0) with false
    by (symmetry; apply Z.eqb_neq; lia).
  reflexivity.
Qed.
End OffsetValidation.

(** C6. On a file with a valid block count, [decompress_file] ends with an
    offset diagnostic, the failure status and no output file as soon as one of
    the first [block_count] offsets has [offset + 4 > file_size] (the
    diagnostic names the first such block); when no such offset exists, every
    worker is set up and no offset diagnostic is printed. *)
Theorem decompress_file_validates_offsets
    (zlib : Zlib) (hardware_concurrency : Z) (contents : list byte) :
  sizeof_CompressedMapHeader <= size contents ->
  1 <= header_block_count contents <= 65535 ->
  let count := Z.to_nat (header_block_count contents) in
  ((exists i, (i < count)%nat
              /\ header_block_offsets contents i + 4 > size contents) ->
   exists i, (i < count)%nat
     /\ header_block_offsets contents i + 4 > size contents
     /\ (forall j, (j < i)%nat ->
                   header_block_offsets contents j + 4 <= size contents)
     /\ decompress_file hardware_concurrency contents
        = {| exit_status := EXIT_FAILURE;
             diagnostics :=
               [InvalidOffset i (header_block_offsets contents i) (size contents)];
             output_file := None |})
  /\ ((forall i, (i < count)%nat ->
                 header_block_offsets contents i + 4 <= size contents) ->
      (exists workers,
          allocate (decompress_worker contents) 0 count = inr workers
          /\ length workers = count)
      /\ forall i o s,
          ~ In (InvalidOffset i o s)
               (diagnostics (decompress_file hardware_concurrency contents))).
Proof.
  intros Hsize Hcount count. split.
  - intros (i & Hi & Hbad).
    destruct (allocate_first_error (decompress_worker contents) 0 count)
      as (k & d & Hk & Hd & Hbefore & Hall).
    { exists i. eexists. split; [exact Hi|]. simpl.
      apply decompress_worker_error. lia. }
    simpl in Hd.
    assert (Hkbad : size contents < header_block_offsets contents k + 4).
    { destruct (Z_lt_le_dec (size contents)
                            (header_block_offsets contents k + 4)) as [L|L].
      - exact L.
      - rewrite decompress_worker_ok in Hd by exact L. discriminate. }
    rewrite decompress_worker_error in Hd by exact Hkbad.
    injection Hd as <-.
    exists k. repeat split.
    + exact Hk.
    + lia.
    + intros j Hj. destruct (Hbefore j Hj) as [w Hw]. simpl in Hw.
      destruct (Z_lt_le_dec (size contents)
                            (header_block_offsets contents j + 4)) as [L|L].
      * rewrite decompress_worker_error in Hw by exact L. discriminate.
      * exact L.
    + rewrite decompress_file_allocates by assumption.
      fold count. rewrite Hall. reflexivity.
  - intros Hgood.
    destruct (allocate_succeeds (decompress_worker contents) 0 count)
      as [workers Hws].
    { intros k Hk. simpl. eexists. apply decompress_worker_ok.
      apply Hgood. exact Hk. }
    split.
    + exists workers. split; [exact Hws|].
      apply (allocate_length _ _ _ _ Hws).
    + intros i o s Hin.
      rewrite decompress_file_allocates in Hin by assumption.
      fold count in Hin. rewrite Hws in Hin. cbv zeta in Hin.
      destruct (existsb failure _) in Hin.
      * simpl in Hin. apply report_failures_In in Hin.
        destruct Hin as (k & w & _ & _ & Hd). discriminate.
      * apply write_workers_diagnostics in Hin. discriminate.
Qed.

(** A file that ends with its header puts block 0 out of bounds; a file with
    ten more bytes holds it. *)
Lemma decompress_file_validates_offsets_witness :
  @decompress_file Stored 4 truncated_container
  = {| exit_status := EXIT_FAILURE;
       diagnostics := [InvalidOffset 0 262144 262144];
       output_file := None |}
  /\ (exists workers,
         allocate (@decompress_worker small_container) 0 1 = inr workers
         /\ length workers = 1%nat).
Proof.
  split.
  - destruct (proj1 (decompress_file_validates_offsets
                       Stored 4 truncated_container
                       ltac:(vm_compute; discriminate)
                       ltac:(split; vm_compute; discriminate)))
      as (i & Hi & _ & _ & H).
    + exists 0%nat. split; [vm_compute; lia | vm_compute; reflexivity].
    + change (Z.to_nat (header_block_count truncated_container))
        with 1%nat in Hi.
      assert (i = 0%nat) as -> by lia.
      exact H.
  - apply (proj2 (decompress_file_validates_offsets
                    Stored 4 small_container
                    ltac:(vm_compute; discriminate)
                    ltac:(split; vm_compute; discriminate))).
    intros i Hi.
    change (Z.to_nat (header_block_count small_container)) with 1%nat in Hi.
    assert (i = 0%nat) as -> by lia.
    vm_compute. discriminate.
Defined.

(** ** The input handed to a decompression job *)

Lemma size_skipn n (v : list byte) :
  size (skipn n v) = size v - Z.min (Z.of_nat n) (size v).
Proof. unfold size. rewrite length_skipn. lia. Qed.

Lemma size_advance v n :
  0 <= n <= size v -> size (advance v n) = size v - n.
Proof. intros H. unfold advance. rewrite size_skipn. lia. Qed.

Lemma advance_advance v n m :
  0 <= n -> 0 <= m -> advance (advance v n) m = advance v (n + m).
Proof.
  intros Hn Hm. unfold advance. rewrite skipn_skipn. f_equal. lia.
Qed.

(** What the allocation loop of [decompress_file] hands to the job of block
    [i], [o] being the block's offset: the input starts at byte [o + 4], and
    its declared length is [file_size - o + 4], eight bytes more than the
    file holds from there on. *)
Lemma decompress_worker_input contents i w :
  size contents + 4 < 2 ^ 64 ->
  decompress_worker contents i = inr w ->
  let o := header_block_offsets contents i in
  input w = advance contents (o + 4)
  /\ size (input w) = size contents - o - 4
  /\ input_size w = size contents - o + 4.
Proof.
  intros Hbound H o. pose proof (header_offset_range contents i) as R.
  pose proof (size_nonneg contents) as S0.
  destruct (Z_lt_le_dec (size contents)
                        (header_block_offsets contents i + 4)) as [L|L].
  { rewrite decompress_worker_error in H by exact L. discriminate. }
  rewrite decompress_worker_ok in H by exact L. injection H as <-.
  unfold located_worker. fold o in R, L |- *. cbn [input input_size].
  unfold sizeof_uint32_t.
  rewrite advance_advance by lia. split; [reflexivity|]. split.
  - rewrite size_advance by lia. lia.
  - rewrite (size_t_small (size contents - o)) by lia.
    rewrite size_t_small by lia. reflexivity.
Qed.

(** C3. On [small_container] (a header, the size prefix of block 0 at offset
    262144, and six more bytes) the job of block 0 gets the input that starts
    at byte 262148, which holds 6 bytes to the end of the file, with the
    declared length 14 = [file_size - o + 4], not 6 = [file_size - o - 4]. *)
Theorem decompress_worker_declared_length :
  let w :=
    mkWorker [Byte.x02; Byte.x00; Byte.x00; Byte.x00; Byte.x61; Byte.x62]
             14 [Byte.x00; Byte.x00] 2 0 false false false in
  @decompress_worker small_container 0 = inr w
  /\ size small_container = 262154
  /\ header_block_offsets small_container 0 = 262144
  /\ input w = advance small_container (262144 + 4)
  /\ size (input w) = 6
  /\ input_size w = 14.
Proof.
  vm_compute. repeat split; reflexivity.
Qed.

(** ** The chunk plan of [compress_file] *)

(** [file_size / CHUNK_SIZE + (file_size % CHUNK_SIZE > 0)] is the quotient
    rounded up. *)
Lemma plan_block_count_ceil n :
  0 <= n < 2 ^ 64 -> plan_block_count n = (n + 131071) / 131072.
Proof.
  intros H. unfold plan_block_count, CHUNK_SIZE.
  pose proof (Z.div_mod n 131072 ltac:(lia)) as E.
  pose proof (Z.mod_pos_bound n 131072 ltac:(lia)) as B.
  assert (Q : 0 <= n / 131072 < 2 ^ 47).
  { split; [apply Z.div_pos; lia|].
    apply Z.div_lt_upper_bound; lia. }
  destruct (0 <? n mod 131072) eqn:M; simpl Z.b2z.
  - apply Z.ltb_lt in M. rewrite size_t_small by lia.
    apply Z.div_unique with (r := n mod 131072 - 1); lia.
  - apply Z.ltb_ge in M. rewrite size_t_small by lia.
    apply Z.div_unique with (r := 131071); lia.
Qed.

Section ChunkPlan.
Context {zlib : Zlib}.
Variable hardware_concurrency : Z.

Lemma compress_worker_error f i :
  Z.of_nat i <= 65535 ->
  size f < Z.of_nat i * 131072 + 4 ->
  compress_worker f i
  = inl (InvalidOffset i (Z.of_nat i * 131072) (size f)).
Proof.
  intros Hi H. unfold compress_worker, sizeof_uint32_t, CHUNK_SIZE.
  rewrite (size_t_small (Z.of_nat i * 131072)) by lia.
  rewrite size_t_small by lia.
  replace (size f <? Z.of_nat i * 131072 + 4) with true
    by (symmetry; apply Z.ltb_lt; exact H).
  reflexivity.
Qed.

Lemma compress_worker_ok f i :
  Z.of_nat i <= 65535 -> size f < 2 ^ 64 ->
  Z.of_nat i * 131072 + 4 <= size f ->
  compress_worker f i = inr (planned_worker f i).
Proof.
  intros Hi Hf H.
  unfold compress_worker, planned_worker, chunk_size, sizeof_uint32_t,
    CHUNK_SIZE.
  rewrite (size_t_small (Z.of_nat i * 131072)) by lia.
  rewrite (size_t_small (Z.of_nat i * 131072 + 4)) by lia.
  replace (size f <? Z.of_nat i * 131072 + 4) with false
    by (symmetry; apply Z.ltb_ge; exact H).
  rewrite (size_t_small (size f - Z.of_nat i * 131072)) by lia.
  destruct (131072 <? size f - Z.of_nat i * 131072) eqn:C.
  - apply Z.ltb_lt in C. rewrite Z.min_l by lia.
    rewrite (size_t_small (131072 * 2)) by lia.
    rewrite size_t_small by lia.
    rewrite uint32_t_small by lia. reflexivity.
  - apply Z.ltb_ge in C. rewrite Z.min_r by lia.
    rewrite (size_t_small ((size f - Z.of_nat i * 131072) * 2)) by lia.
    rewrite size_t_small by lia.
    rewrite uint32_t_small by lia. reflexivity.
Qed.

Lemma compress_file_allocates contents :
  size contents < 2 ^ 64 ->
  (size contents + 131071) / 131072 <= 65535 ->
  compress_file hardware_concurrency contents
  = match allocate (compress_worker contents) 0
                   (Z.to_nat ((size contents + 131071) / 131072)) with
    | inl d => fail [d]
    | inr workers =>
        let workers :=
          perform_job hardware_concurrency perform_compression workers in
        if existsb failure workers
        then fail (report_failures BlockFailedToCompress 0 workers)
        else
          match set_offsets sizeof_CompressedMapHeader workers with
          | inl d => fail [d]
          | inr offsets =>
              write_file workers
                (header_bytes
                   {| block_count := (size contents + 131071) / 131072;
                      block_offsets := offsets |})
          end
    end.
Proof.
  intros Hsize Hcount. pose proof (size_nonneg contents) as S0.
  unfold compress_file, read_file. simpl andb. cbv iota zeta.
  rewrite plan_block_count_ceil by lia.
  replace (MAX_BLOCKS <? (size contents + 131071) / 131072) with false
    by (symmetry; apply Z.ltb_ge; unfold MAX_BLOCKS; lia).
  rewrite uint32_t_small; [reflexivity|].
  split; [apply Z.div_pos; lia | lia].
Qed.

Lemma compress_file_too_many_blocks contents :
  size contents < 2 ^ 64 ->
  65535 < (size contents + 131071) / 131072 ->
  compress_file hardware_concurrency contents
  = fail [MaximumBlocksExceeded ((size contents + 131071) / 131072)].
Proof.
  intros Hsize Hcount. pose proof (size_nonneg contents) as S0.
  unfold compress_file, read_file. simpl andb. cbv iota zeta.
  rewrite plan_block_count_ceil by lia.
  replace (MAX_BLOCKS <? (size contents + 131071) / 131072) with true
    by (symmetry; apply Z.ltb_lt; unfold MAX_BLOCKS; lia).
  reflexivity.
Qed.
End ChunkPlan.

(** C4. On a non-empty input within the block limit whose size modulo 131072
    is 1, 2 or 3, the allocation loop of [compress_file] stops at the last
    block with the invalid-offset diagnostic, so that no job is run, and
    [compress_file] ends with the failure status and no output file. *)
Theorem compress_file_rejects_short_tail
    (zlib : Zlib) (hardware_concurrency : Z) (contents : list byte) :
  0 < size contents ->
  1 <= size contents mod 131072 <= 3 ->
  size contents <= 65535 * 131072 ->
  let last := Z.to_nat (size contents / 131072) in
  let d := InvalidOffset last (Z.of_nat last * 131072) (size contents) in
  allocate (compress_worker contents) 0
           (Z.to_nat (plan_block_count (size contents))) = inl d
  /\ compress_file hardware_concurrency contents
     = {| exit_status := EXIT_FAILURE; diagnostics := [d];
          output_file := None |}.
Proof.
  intros Hpos Hmod Hmax last d.
  pose proof (Z.div_mod (size contents) 131072 ltac:(lia)) as E.
  assert (Q : 0 <= size contents / 131072 <= 65534).
  { split; [apply Z.div_pos; lia|].
    assert (size contents / 131072 < 65535); [|lia].
    apply Z.div_lt_upper_bound; lia. }
  assert (Hceil : (size contents + 131071) / 131072
                  = size contents / 131072 + 1).
  { symmetry.
    apply Z.div_unique with (r := size contents mod 131072 - 1); lia. }
  assert (Hlast : Z.of_nat last = size contents / 131072).
  { unfold last. lia. }
  assert (Hall : allocate (compress_worker contents) 0
                   (Z.to_nat ((size contents + 131071) / 131072)) = inl d).
  { destruct (allocate_first_error (compress_worker contents) 0
                (Z.to_nat ((size contents + 131071) / 131072)))
      as (k & d' & Hk & Hd' & Hbefore & Hall).
    { exists last, d. split; [lia|]. simpl.
      apply compress_worker_error; lia. }
    simpl in Hd'.
    destruct (Z_lt_le_dec (size contents) (Z.of_nat k * 131072 + 4))
      as [L|L].
    - assert (k = last) as -> by nia.
      rewrite compress_worker_error in Hd' by lia.
      rewrite Hall. injection Hd' as <-. reflexivity.
    - rewrite compress_worker_ok in Hd' by lia. discriminate. }
  split.
  - rewrite plan_block_count_ceil by lia. exact Hall.
  - rewrite compress_file_allocates by lia. rewrite Hall. reflexivity.
Qed.

(** A file of one byte: block 0 would start at offset 0, and 0 + 4 > 1. *)
Lemma compress_file_rejects_short_tail_witness :
  @compress_file Stored 4 [Byte.x2a]
  = {| exit_status := EXIT_FAILURE; diagnostics := [InvalidOffset 0 0 1];
       output_file := None |}.
Proof.
  apply (proj2 (compress_file_rejects_short_tail Stored 4 [Byte.x2a]
                  ltac:(reflexivity)
                  ltac:(split; vm_compute; discriminate)
                  ltac:(vm_compute; discriminate))).
Defined.

(** ** The header of the container written by [compress_file] *)

Lemma header_block_count_bytes h tail :
  header_block_count (header_bytes h ++ tail) = uint32_t (block_count h).
Proof.
  unfold header_block_count, header_bytes.
  rewrite <- app_assoc. apply load_store_uint32_t.
Qed.

(** Whatever [compress_file] leaves in the output file starts with a header
    that holds the planned block count. *)
Lemma compress_file_output_header
    {zlib : Zlib} (hardware_concurrency : Z) (contents c : list byte) :
  size contents < 2 ^ 64 ->
  output_file (compress_file hardware_concurrency contents) = Some c ->
  exists offsets tail,
    c = header_bytes {| block_count := (size contents + 131071) / 131072;
                        block_offsets := offsets |} ++ tail
    /\ 0 <= (size contents + 131071) / 131072 <= 65535.
Proof.
  intros Hsize H. pose proof (size_nonneg contents) as S0.
  assert (P : 0 <= (size contents + 131071) / 131072)
    by (apply Z.div_pos; lia).
  destruct (Z_le_gt_dec ((size contents + 131071) / 131072) 65535) as [L|L].
  - rewrite compress_file_allocates in H by assumption.
    destruct (allocate _ _ _) as [d|workers]; [discriminate|].
    cbv zeta in H.
    destruct (existsb failure _); [discriminate|].
    destruct (set_offsets _ _) as [d|offsets]; [discriminate|].
    unfold write_file in H.
    destruct (write_workers_prefix
                (perform_job hardware_concurrency perform_compression workers)
                (header_bytes
                   {| block_count := (size contents + 131071) / 131072;
                      block_offsets := offsets |})) as [tail T].
    rewrite T in H.
    exists offsets, tail. split; [congruence | lia].
  - rewrite compress_file_too_many_blocks in H by lia. discriminate.
Qed.

(** C2 (amended). The header of a container written by [compress_file] holds
    [block_count = ceil(N / 131072)] for an input of [N] bytes; for the empty
    input that count is 0. *)
Theorem compress_file_block_count
    (zlib : Zlib) (hardware_concurrency : Z) (contents c : list byte) :
  size contents < 2 ^ 64 ->
  output_file (compress_file hardware_concurrency contents) = Some c ->
  header_block_count c = (size contents + 131071) / 131072
  /\ (size contents = 0 -> header_block_count c = 0).
Proof.
  intros Hsize H.
  destruct (compress_file_output_header _ _ _ Hsize H)
    as (offsets & tail & -> & R).
  rewrite header_block_count_bytes. cbn [block_count].
  rewrite uint32_t_small by lia.
  split; [reflexivity|]. intros ->. reflexivity.
Qed.

(** Five bytes make one chunk. *)
Lemma compress_file_block_count_witness :
  output_file (@compress_file Stored 4 five_bytes) = Some five_bytes_container
  /\ header_block_count five_bytes_container = 1.
Proof.
  assert (E : output_file (@compress_file Stored 4 five_bytes)
              = Some five_bytes_container)
    by (apply holds_bytes_eq; vm_compute; reflexivity).
  split; [exact E|].
  exact (proj1 (compress_file_block_count Stored 4 five_bytes
                  five_bytes_container ltac:(reflexivity) E)).
Defined.

(** C2 (as stated) fails on the empty input: [compress_file] succeeds and
    writes a header whose block count is 0, not 1. *)
Lemma compress_file_empty_block_count :
  @compress_file Stored 4 []
  = {| exit_status := EXIT_SUCCESS; diagnostics := [];
       output_file := Some empty_container |}
  /\ header_block_count empty_container = 0
  /\ header_block_count empty_container <> 1.
Proof.
  split; [run_by_computation|].
  split; [vm_compute; reflexivity | vm_compute; discriminate].
Qed.

(** ** The reference codec meets the contract *)

Lemma size_firstn n (v : list byte) :
  size (firstn n v) = Z.min (Z.of_nat n) (size v).
Proof. unfold size. rewrite length_firstn. lia. Qed.

Lemma size_store_uint32_t v : size (store_uint32_t v) = 4.
Proof. unfold size, store_uint32_t. rewrite length_le_split. reflexivity. Qed.

Lemma Stored_contract : ZlibContract Stored.
Proof.
  constructor; cbn [zlib_deflate zlib_inflate Stored].
  - intros src avail_out H. unfold stored_deflate.
    destruct (size src <? 2 ^ 32); cbn [andb]; [|simpl; exact H].
    destruct (_ <=? avail_out) eqn:E; simpl; [|exact H].
    apply Z.leb_le in E. exact E.
  - intros src avail_out stream Hd. unfold stored_deflate in Hd.
    destruct (_ && _); [|discriminate].
    assert (stream = store_uint32_t (size src) ++ src) as -> by congruence.
    rewrite size_app, size_store_uint32_t.
    pose proof (size_nonneg src) as S0.
    pose proof (Z.div_pos (size src) 4096 S0 ltac:(lia)).
    pose proof (Z.div_pos (size src) 16384 S0 ltac:(lia)).
    pose proof (Z.div_pos (size src) 33554432 S0 ltac:(lia)).
    lia.
  - intros src avail_in avail_out H. unfold stored_inflate.
    destruct (_ <? 4); [simpl; exact H|].
    destruct (_ <? _) eqn:E1; cbn [orb].
    + simpl. rewrite size_firstn. lia.
    + destruct (avail_out <? _) eqn:E2; simpl; rewrite size_firstn.
      * lia.
      * apply Z.ltb_ge in E2.
        pose proof (load_uint32_t_range
                      (firstn (Z.to_nat avail_in) src)). lia.
  - intros src avail_out stream rest avail_in Hd Hin.
    unfold stored_deflate in Hd.
    destruct (size src <? 2 ^ 32) eqn:E32; cbn [andb] in Hd; [|discriminate].
    destruct (_ <=? avail_out); [|discriminate].
    assert (stream = store_uint32_t (size src) ++ src) as -> by congruence.
    clear Hd. apply Z.ltb_lt in E32.
    pose proof (size_nonneg src) as S0.
    rewrite size_app, size_store_uint32_t in Hin.
    unfold stored_inflate. cbv zeta.
    rewrite firstn_app.
    assert (L4 : length (store_uint32_t (size src)) = 4%nat)
      by apply length_le_split.
    rewrite (firstn_all2 (n := Z.to_nat avail_in)
               (store_uint32_t (size src) ++ src))
      by (rewrite length_app, L4; unfold size in Hin; lia).
    rewrite <- app_assoc.
    set (tail := firstn _ rest).
    rewrite load_store_uint32_t, uint32_t_small by lia.
    replace (skipn 4 (store_uint32_t (size src) ++ src ++ tail))
      with (src ++ tail)
      by (rewrite skipn_app, L4, Nat.sub_diag, skipn_all2 by lia;
          reflexivity).
    rewrite !size_app, size_store_uint32_t.
    pose proof (size_nonneg tail) as T0.
    replace (4 + (size src + size tail) <? 4) with false
      by (symmetry; apply Z.ltb_ge; lia).
    replace (size src + size tail <? size src) with false
      by (symmetry; apply Z.ltb_ge; lia).
    rewrite Z.ltb_irrefl. cbn [orb]. cbv iota.
    f_equal. unfold size. rewrite Nat2Z.id.
    rewrite firstn_app, Nat.sub_diag, firstn_O, app_nil_r.
    apply firstn_all.
Qed.

(** ** The codec jobs *)

Section Jobs.
Context {zlib : Zlib}.

Lemma perform_decompression_mutex w : mutex (perform_decompression w) = false.
Proof.
  unfold perform_decompression.
  destruct (zlib_inflate _ _ _) as [[|] produced]; reflexivity.
Qed.

Lemma perform_decompression_started w :
  started (perform_decompression w) = started w.
Proof.
  unfold perform_decompression.
  destruct (zlib_inflate _ _ _) as [[|] produced]; reflexivity.
Qed.

Lemma perform_compression_mutex w : mutex (perform_compression w) = false.
Proof.
  unfold perform_compression.
  destruct (zlib_deflate _ _) as [[|] produced]; reflexivity.
Qed.

Lemma perform_compression_started w :
  started (perform_compression w) = started w.
Proof.
  unfold perform_compression.
  destruct (zlib_deflate _ _) as [[|] produced]; reflexivity.
Qed.
End Jobs.

(** The reference codec ends a stream the same way whatever room is left. *)
Lemma Stored_finish : InflateFinish Stored.
Proof.
  split; cbn [zlib_inflate Stored]; unfold stored_inflate;
    intros src avail_in room data room'.
  - destruct (size _ <? 4); [discriminate|].
    destruct (size _ <? _) eqn:Hbody; cbn [orb].
    + discriminate.
    + destruct (room <? _) eqn:Hroom; [discriminate|]. intros H Hfit.
      assert (Hdata : data
                = firstn (Z.to_nat (load_uint32_t
                                      (firstn (Z.to_nat avail_in) src)))
                         (skipn 4 (firstn (Z.to_nat avail_in) src)))
        by congruence.
      apply Z.ltb_ge in Hbody.
      pose proof (load_uint32_t_range (firstn (Z.to_nat avail_in) src)).
      rewrite Hdata, size_firstn in Hfit.
      replace (room' <? _) with false by (symmetry; apply Z.ltb_ge; lia).
      rewrite Hdata. reflexivity.
  - destruct (size _ <? 4); [discriminate|].
    destruct (size _ <? _) eqn:Hbody; cbn [orb].
    + discriminate.
    + destruct (room <? _) eqn:Hroom; [discriminate|]. intros H Hover.
      assert (Hdata : data
                = firstn (Z.to_nat (load_uint32_t
                                      (firstn (Z.to_nat avail_in) src)))
                         (skipn 4 (firstn (Z.to_nat avail_in) src)))
        by congruence.
      apply Z.ltb_ge in Hbody.
      pose proof (load_uint32_t_range (firstn (Z.to_nat avail_in) src)).
      rewrite Hdata, size_firstn in Hover.
      replace (room' <? _) with true by (symmetry; apply Z.ltb_lt; lia).
      reflexivity.
Qed.

(** C9 (amended). A decompression job is marked failed exactly when the codec
    does not report the end of the stream; the codec writes at most
    [output_capacity] bytes to the front of the buffer and the job leaves the
    rest of the buffer as it was. For a stream that holds [data]: with more
    data than [output_capacity] the job is marked failed; otherwise it is
    not, the buffer holds the data followed by what it held before, and this
    is what [write_file] writes for the job; the buffer is filled exactly
    when the data are [output_capacity] bytes. *)
Theorem perform_decompression_outcome
    (zlib : Zlib) (contract : ZlibContract zlib) (finish : InflateFinish zlib)
    (worker : Worker) :
  failure worker = false ->
  0 <= output_size worker < 2 ^ 32 ->
  size (output worker) = output_size worker ->
  let result :=
    zlib_inflate (input worker) (uInt (input_size worker))
                 (output_size worker) in
  let done := perform_decompression worker in
  (failure done = true <-> fst result = false)
  /\ size (snd result) <= output_size worker
  /\ output done = snd result ++ skipn (length (snd result)) (output worker)
  /\ size (output done) = output_size worker
  /\ output_size done = output_size worker
  /\ forall room data,
       zlib_inflate (input worker) (uInt (input_size worker)) room
       = (true, data) ->
       (output_size worker < size data -> failure done = true)
       /\ (size data <= output_size worker ->
           failure done = false
           /\ output done = data ++ skipn (length data) (output worker)
           /\ (0 < output_size worker ->
               forall start,
                 write_file [done] start
                 = {| exit_status := EXIT_SUCCESS; diagnostics := [];
                      output_file :=
                        Some (start ++ data
                              ++ skipn (length data) (output worker)) |}))
       /\ (size data = output_size worker -> output done = data).
Proof.
  intros Hf Hcap Hbuf result done.
  assert (Hfit : size (snd result) <= output_size worker).
  { apply inflate_fits. lia. }
  assert (Hfail : failure done = true <-> fst result = false).
  { subst done. unfold perform_decompression.
    rewrite (uInt_small (output_size worker)) by exact Hcap.
    fold result. destruct result as [[|] produced];
      cbn [fst failure unlock set_output set_failure].
    - rewrite Hf. split; discriminate.
    - split; reflexivity. }
  assert (Hout : output done
                 = snd result ++ skipn (length (snd result)) (output worker)).
  { subst done. unfold perform_decompression.
    rewrite (uInt_small (output_size worker)) by exact Hcap.
    fold result. destruct result as [[|] produced];
      cbn [snd output unlock set_output set_failure]; reflexivity. }
  assert (Hsize : size (output done) = output_size worker).
  { rewrite Hout, size_app, size_skipn. unfold size in *. lia. }
  assert (Hcapacity : output_size done = output_size worker).
  { subst done. unfold perform_decompression.
    destruct (zlib_inflate (input worker) (uInt (input_size worker))
                           (uInt (output_size worker)))
      as [[|] produced]; reflexivity. }
  split; [exact Hfail|]. split; [exact Hfit|]. split; [exact Hout|].
  split; [exact Hsize|]. split; [exact Hcapacity|].
  intros room data Hdata. split; [|split].
  - intros Hover. apply (proj2 Hfail). subst result.
    apply (inflate_overflow _ _ room data _ Hdata Hover).
  - intros Hroom.
    assert (Hresult : result = (true, data)).
    { subst result. apply (inflate_room _ _ room data _ Hdata Hroom). }
    rewrite Hresult in Hfail, Hout. cbn [fst snd] in Hfail, Hout.
    split.
    { destruct (failure done); [|reflexivity].
      pose proof (proj1 Hfail eq_refl). discriminate. }
    split; [exact Hout|].
    intros Hpos start. unfold write_file. cbn [write_workers].
    rewrite Hcapacity.
    replace (output_size worker =? 0) with false
      by (symmetry; apply Z.eqb_neq; lia).
    rewrite firstn_all2 by (unfold size in Hsize; lia).
    rewrite Hout. reflexivity.
  - intros Hfull.
    assert (Hresult : result = (true, data)).
    { subst result.
      apply (inflate_room _ _ room data _ Hdata). lia. }
    rewrite Hresult in Hout. cbn [snd] in Hout. rewrite Hout.
    rewrite skipn_all2 by (unfold size in *; lia).
    apply app_nil_r.
Qed.

(** Jobs of the reference codec on a stream of two bytes: with room for one
    byte the job is marked failed, with room for five bytes it is not, and
    [write_file] writes the two bytes and the three that were in the
    buffer. *)
Lemma perform_decompression_outcome_witness :
  stored_inflate (input short_stream_job) (uInt 14) 2
  = (true, [Byte.x61; Byte.x62])
  /\ failure (@perform_decompression Stored long_stream_job) = true
  /\ failure (@perform_decompression Stored short_stream_job) = false
  /\ write_file [@perform_decompression Stored short_stream_job] []
     = {| exit_status := EXIT_SUCCESS; diagnostics := [];
          output_file :=
            Some [Byte.x61; Byte.x62; Byte.x00; Byte.x00; Byte.x00] |}.
Proof.
  assert (Hdata : stored_inflate (input short_stream_job) (uInt 14) 2
                  = (true, [Byte.x61; Byte.x62]))
    by (vm_compute; reflexivity).
  pose proof (perform_decompression_outcome Stored Stored_contract
                Stored_finish short_stream_job ltac:(reflexivity)
                ltac:(split; vm_compute; [discriminate | reflexivity])
                ltac:(reflexivity)) as H.
  pose proof (perform_decompression_outcome Stored Stored_contract
                Stored_finish long_stream_job ltac:(reflexivity)
                ltac:(split; vm_compute; [discriminate | reflexivity])
                ltac:(reflexivity)) as H'.
  cbv zeta in H, H'.
  destruct H as (_ & _ & _ & _ & _ & H).
  destruct H' as (_ & _ & _ & _ & _ & H').
  destruct (H 2 [Byte.x61; Byte.x62] Hdata) as (_ & Hshort & _).
  destruct (H' 2 [Byte.x61; Byte.x62] Hdata) as (Hlong & _).
  destruct (Hshort ltac:(vm_compute; discriminate)) as (Hunfailed & _ & Hfile).
  split; [exact Hdata|].
  split; [apply Hlong; vm_compute; reflexivity|].
  split; [exact Hunfailed|].
  apply (Hfile ltac:(reflexivity) []).
Defined.

(** C9 (as stated) fails. [ab_stream] is a zlib stream of the two bytes
    [ab]; in [ab_container] its block declares five bytes, and [ab_job] is
    the job [decompress_file] sets up for it. [inflate] ends the stream
    after two bytes, the job is not marked failed although the codec wrote
    fewer bytes than the capacity, and [decompress_file] returns success
    with the five bytes of the buffer. *)
Lemma perform_decompression_short_stream :
  let done :=
    @perform_decompression StoredBlocks (set_started (lock ab_job)) in
  allocate (decompress_worker ab_container) 0
           (Z.to_nat (header_block_count ab_container))
  = inr [ab_job]
  /\ perform_job 4 (@perform_decompression StoredBlocks) [ab_job] = [done]
  /\ stored_blocks_inflate (input ab_job) (uInt (input_size ab_job))
                           (uInt (output_size ab_job))
     = (true, [Byte.x61; Byte.x62])
  /\ output_size ab_job = 5
  /\ failure done = false
  /\ output done = [Byte.x61; Byte.x62; Byte.x00; Byte.x00; Byte.x00]
  /\ @decompress_file StoredBlocks 4 ab_container
     = {| exit_status := EXIT_SUCCESS; diagnostics := [];
          output_file :=
            Some [Byte.x61; Byte.x62; Byte.x00; Byte.x00; Byte.x00] |}.
Proof.
  cbv zeta. repeat split; vm_compute; reflexivity.
Qed.

(** ** The worker scheduler *)

(** What one worker adds to the count of [busy_workers]. *)
Lemma busy_workers_fold ws count :
  fold_left (fun count w =>
               if mutex w then count + Z.b2z (started w) else count) ws count
  = count + busy_workers ws.
Proof.
  unfold busy_workers. revert count.
  induction ws as [|w ws IH]; intros count; simpl.
  - lia.
  - rewrite IH. rewrite (IH (if mutex w then _ else _)).
    destruct (mutex w); lia.
Qed.

Lemma busy_workers_cons w ws :
  busy_workers (w :: ws)
  = (if mutex w then Z.b2z (started w) else 0) + busy_workers ws.
Proof.
  unfold busy_workers at 1. simpl. rewrite busy_workers_fold.
  destruct (mutex w); lia.
Qed.

Lemma busy_workers_nonneg ws : 0 <= busy_workers ws.
Proof.
  induction ws as [|w ws IH]; [unfold busy_workers; simpl; lia|].
  rewrite busy_workers_cons.
  destruct (mutex w); destruct (started w); cbn [Z.b2z]; lia.
Qed.

Lemma busy_workers_firstn_S ws i w :
  nth_error ws i = Some w ->
  busy_workers (firstn (S i) ws)
  = busy_workers (firstn i ws)
    + (if mutex w then Z.b2z (started w) else 0).
Proof.
  revert i. induction ws as [|w0 ws IH]; intros [|i] H; simpl in H;
    try discriminate.
  - injection H as ->. rewrite firstn_cons, !firstn_O, busy_workers_cons.
    change (busy_workers []) with 0. lia.
  - rewrite !firstn_cons, !busy_workers_cons, (IH i H). lia.
Qed.

Lemma nth_error_put_same ws i w w' :
  nth_error ws i = Some w -> nth_error (put ws i w') i = Some w'.
Proof.
  revert i. induction ws as [|w0 ws IH]; intros [|i] H; simpl in *;
    try discriminate; auto.
Qed.

Lemma nth_error_put_other ws i j w' :
  i <> j -> nth_error (put ws i w') j = nth_error ws j.
Proof.
  revert i j. induction ws as [|w0 ws IH]; intros [|i] [|j] H; simpl;
    try reflexivity; try congruence.
  apply IH. congruence.
Qed.

Lemma length_put ws i w' : length (put ws i w') = length ws.
Proof.
  revert i. induction ws as [|w0 ws IH]; intros [|i]; simpl; auto.
Qed.

(** A worker that counts for no more than the one it replaces lowers the
    count of every prefix; any replacement raises the count by one at most. *)
Lemma busy_workers_put_le ws i w w' k :
  nth_error ws i = Some w ->
  (if mutex w' then Z.b2z (started w') else 0)
  <= (if mutex w then Z.b2z (started w) else 0) ->
  busy_workers (firstn k (put ws i w')) <= busy_workers (firstn k ws).
Proof.
  revert i k. induction ws as [|w0 ws IH]; intros [|i] [|k] H Hle;
    simpl in H; try discriminate; cbn [put]; rewrite ?firstn_O, ?firstn_cons;
    try lia.
  - injection H as ->. rewrite !busy_workers_cons. lia.
  - rewrite !busy_workers_cons. specialize (IH i k H Hle). lia.
Qed.

Lemma busy_workers_put_succ ws i w' :
  busy_workers (put ws i w') <= busy_workers ws + 1.
Proof.
  revert i. induction ws as [|w0 ws IH]; intros [|i]; cbn [put]; try lia.
  - rewrite !busy_workers_cons. pose proof (busy_workers_nonneg ws).
    destruct (mutex w'), (started w'), (mutex w0), (started w0);
      cbn [Z.b2z]; lia.
  - rewrite !busy_workers_cons. specialize (IH i). lia.
Qed.

Lemma next_worker_put ws i w w' :
  nth_error ws i = Some w -> started w' = started w ->
  next_worker (put ws i w') = next_worker ws.
Proof.
  revert i. induction ws as [|w0 ws IH]; intros [|i] H Hs; simpl in H;
    try discriminate; cbn [put next_worker].
  - injection H as ->. rewrite Hs. reflexivity.
  - rewrite (IH i H Hs). reflexivity.
Qed.

(** [next_worker] returns the lowest index that was not started. *)
Lemma next_worker_Some ws i :
  next_worker ws = Some i ->
  (exists w, nth_error ws i = Some w /\ started w = false)
  /\ forall j w, (j < i)%nat -> nth_error ws j = Some w -> started w = true.
Proof.
  revert i. induction ws as [|w0 ws IH]; intros i H; simpl in H;
    [discriminate|].
  destruct (started w0) eqn:S0.
  - destruct (next_worker ws) as [i'|]; [|discriminate].
    injection H as <-. destruct (IH i' eq_refl) as [Hex Hlow].
    split; [exact Hex|].
    intros [|j] w Hj Hw; simpl in Hw.
    + congruence.
    + apply (Hlow j); [lia | exact Hw].
  - injection H as <-. split.
    + exists w0. auto.
    + intros j w Hj. lia.
Qed.

Lemma next_worker_None ws j w :
  next_worker ws = None -> nth_error ws j = Some w -> started w = true.
Proof.
  revert j. induction ws as [|w0 ws IH]; intros [|j] H Hw; simpl in *;
    try discriminate.
  - injection Hw as <-. destruct (started w0); [reflexivity|discriminate].
  - destruct (started w0); [|discriminate].
    destruct (next_worker ws); [discriminate|]. apply (IH j); auto.
Qed.

Section DispatchLoopInvariant.
Variable max_threads : Z.
Variable function : Worker -> Worker.
Variable workers : list Worker.
Hypothesis threaded : 1 < max_threads.
Hypothesis function_mutex : forall w, mutex (function w) = false.
Hypothesis function_started : forall w, started (function w) = started w.
Hypothesis workers_fresh :
  forall j w, nth_error workers j = Some w -> started w = false.

Lemma busy_workers_locked ws :
  (forall j w, nth_error ws j = Some w -> started w = false) ->
  busy_workers (map lock ws) = 0.
Proof.
  induction ws as [|w ws IH]; intros H.
  - reflexivity.
  - cbn [map]. rewrite busy_workers_cons. cbn [lock mutex started].
    rewrite (H 0%nat w eq_refl). cbn [Z.b2z].
    rewrite IH; [reflexivity|].
    intros j w' Hj. apply (H (S j)). exact Hj.
Qed.

Lemma invariant_enter :
  invariant max_threads function workers (mkSched (map lock workers) Polling).
Proof.
  unfold invariant. cbn [jobs phase phase_invariant].
  split; [apply length_map|]. split; [|split; [|exact I]].
  - intros j w0 w H0 H. rewrite nth_error_map, H0 in H.
    injection H as <-. left. reflexivity.
  - rewrite busy_workers_locked by exact workers_fresh. lia.
Qed.

Lemma busy_workers_firstn_all ws :
  busy_workers (firstn (length ws) ws) = busy_workers ws.
Proof. rewrite firstn_all. reflexivity. Qed.

Lemma invariant_step s e s' :
  invariant max_threads function workers s ->
  step max_threads function s e s' ->
  invariant max_threads function workers s'.
Proof.
  intros (Hlen & Hstate & Hbusy & Hphase) Hstep.
  destruct Hstep
    as [ ws
       | ws next i count w Hw Hunlocked
       | ws next i count w Hw
       | ws next count
       | ws
       | ws i busy_count w Hw Hroom
       | ws next busy_count Hnobreak Hnolaunch
       | ws ph i w Hw Hstarted Hlocked ];
    cbn [jobs phase] in *; unfold invariant; cbn [jobs phase].
  - (* next_worker *)
    split; [exact Hlen|]. split; [exact Hstate|]. split; [exact Hbusy|].
    cbn [phase_invariant]. unfold counted.
    split; [reflexivity|]. split; [lia|]. rewrite firstn_O.
    split; [change (busy_workers []) with 0; lia|].
    intros _ _ j w Hj. lia.
  - (* try_lock succeeds *)
    split; [exact Hlen|]. split; [exact Hstate|]. split; [exact Hbusy|].
    cbn [phase_invariant] in *. destruct Hphase as (Hn & Hi & Hc & Hfree).
    assert (i < length ws)%nat by (apply nth_error_Some; congruence).
    split; [exact Hn|]. split; [lia|]. split.
    + rewrite (busy_workers_firstn_S ws i w) by assumption.
      rewrite Hunlocked. lia.
    + intros Hnone Hzero j w' Hj Hw'.
      destruct (Nat.eq_dec j i) as [->|Hne].
      * congruence.
      * apply (Hfree Hnone Hzero j); [lia | exact Hw'].
  - (* try_lock fails *)
    split; [exact Hlen|]. split; [exact Hstate|]. split; [exact Hbusy|].
    cbn [phase_invariant] in *. destruct Hphase as (Hn & Hi & Hc & Hfree).
    assert (i < length ws)%nat by (apply nth_error_Some; congruence).
    pose proof (busy_workers_nonneg (firstn i ws)) as P.
    split; [exact Hn|]. split; [lia|]. split.
    + rewrite (busy_workers_firstn_S ws i w) by assumption.
      destruct (mutex w), (started w); cbn [Z.b2z]; lia.
    + intros Hnone Hzero j w' Hj Hw'.
      subst next. rewrite (next_worker_None ws i w) in Hzero by auto.
      cbn [Z.b2z] in Hzero. lia.
  - (* all workers examined *)
    split; [exact Hlen|]. split; [exact Hstate|]. split; [exact Hbusy|].
    exact Hphase.
  - (* break *)
    split; [exact Hlen|]. split; [exact Hstate|]. split; [exact Hbusy|].
    cbn [phase_invariant] in *. destruct Hphase as (Hn & Hi & Hc & Hfree).
    intros j w Hw. apply (Hfree eq_refl eq_refl j); [|exact Hw].
    apply nth_error_Some. congruence.
  - (* launch *)
    cbn [phase_invariant] in *. destruct Hphase as (Hn & Hi & Hc & Hfree).
    rewrite busy_workers_firstn_all in Hc.
    split; [rewrite length_put; exact Hlen|]. split; [|split; [|exact I]].
    + intros j w0 w' H0 Hw'.
      destruct (Nat.eq_dec i j) as [<-|Hne].
      * rewrite (nth_error_put_same ws i w) in Hw' by assumption.
        injection Hw' as <-.
        destruct (next_worker_Some ws i (eq_sym Hn)) as [(w1 & Hw1 & Hs1) _].
        assert (w1 = w) by congruence. subst w1.
        destruct (Hstate i w0 w H0 Hw) as [->|[->| ->]].
        -- right. left. reflexivity.
        -- cbn in Hs1. discriminate.
        -- rewrite function_started in Hs1. cbn in Hs1. discriminate.
      * rewrite nth_error_put_other in Hw' by exact Hne.
        apply (Hstate j); assumption.
    + pose proof (busy_workers_put_succ ws i (set_started w)). lia.
  - (* sleep *)
    split; [exact Hlen|]. split; [exact Hstate|]. split; [exact Hbusy|].
    exact I.
  - (* a thread completes *)
    assert (Hcontrib :
              (if mutex (function w) then Z.b2z (started (function w)) else 0)
              <= (if mutex w then Z.b2z (started w) else 0)).
    { rewrite function_mutex, Hstarted, Hlocked. cbn [Z.b2z]. lia. }
    assert (Hprefix : forall k,
               busy_workers (firstn k (put ws i (function w)))
               <= busy_workers (firstn k ws)).
    { intros k. apply (busy_workers_put_le ws i w); assumption. }
    assert (Hnext : next_worker (put ws i (function w)) = next_worker ws).
    { apply (next_worker_put ws i w); [exact Hw | apply function_started]. }
    assert (Hfree : forall k,
               (forall j w', (j < k)%nat -> nth_error ws j = Some w' ->
                             mutex w' = false) ->
               forall j w', (j < k)%nat ->
                 nth_error (put ws i (function w)) j = Some w' ->
                 mutex w' = false).
    { intros k Hk j w' Hj Hw'. destruct (Nat.eq_dec i j) as [<-|Hne].
      - rewrite (nth_error_put_same ws i w) in Hw' by assumption.
        injection Hw' as <-. apply function_mutex.
      - rewrite nth_error_put_other in Hw' by exact Hne.
        apply (Hk j); assumption. }
    split; [rewrite length_put; exact Hlen|]. split; [|split].
    + intros j w0 w' H2 Hw'.
      destruct (Nat.eq_dec i j) as [<-|Hne].
      * rewrite (nth_error_put_same ws i w) in Hw' by assumption.
        injection Hw' as <-.
        destruct (Hstate i w0 w H2 Hw) as [->|[->| ->]].
        -- cbn in Hstarted. rewrite (workers_fresh i w0 H2) in Hstarted.
           discriminate.
        -- right. right. reflexivity.
        -- rewrite function_mutex in Hlocked. discriminate.
      * rewrite nth_error_put_other in Hw' by exact Hne.
        apply (Hstate j); assumption.
    + specialize (Hprefix (length ws)).
      rewrite <- (length_put ws i (function w)) in Hprefix at 1.
      rewrite !busy_workers_firstn_all in Hprefix. lia.
    + destruct ph; cbn [phase_invariant] in *.
      * exact I.
      * destruct Hphase as (Hn & Hi & Hc & Hf).
        split; [congruence|]. split; [rewrite length_put; exact Hi|].
        split; [specialize (Hprefix i0); lia|].
        intros Hnone Hzero. apply Hfree. apply Hf; assumption.
      * destruct Hphase as (Hn & Hi & Hc & Hf). unfold counted.
        rewrite length_put.
        split; [congruence|]. split; [lia|].
        split; [specialize (Hprefix (length ws)); lia|].
        intros Hnone Hzero. apply Hfree. apply Hf; assumption.
      * intros j w' Hw'.
        apply (Hfree (S j)) with (j := j); [|lia|exact Hw'].
        intros j' w'' _. apply Hphase.
Qed.

Lemma reachable_invariant s :
  reachable max_threads function workers s ->
  invariant max_threads function workers s.
Proof.
  induction 1 as [|s e s' _ IH Hstep].
  - apply invariant_enter.
  - apply (invariant_step s e s' IH Hstep).
Qed.

(** Every run that leaves the loop has passed every worker through
    [function]. *)
Lemma dispatch_loop_result s :
  reachable max_threads function workers s ->
  phase s = Exited ->
  jobs s = map (fun w => function (set_started (lock w))) workers.
Proof.
  intros Hreach Hphase.
  destruct (reachable_invariant s Hreach) as (Hlen & Hstate & _ & Hinv).
  rewrite Hphase in Hinv. cbn [phase_invariant] in Hinv.
  apply nth_error_ext. intros j. rewrite nth_error_map.
  destruct (nth_error (jobs s) j) as [w|] eqn:Ej.
  - destruct (nth_error workers j) as [w0|] eqn:E0.
    + cbn [option_map]. f_equal.
      pose proof (Hinv j w Ej) as Hfree.
      destruct (Hstate j w0 w E0 Ej) as [->|[->| ->]].
      * discriminate.
      * discriminate.
      * reflexivity.
    + apply nth_error_None in E0.
      assert (j < length (jobs s))%nat by (apply nth_error_Some; congruence).
      lia.
  - apply nth_error_None in Ej.
    destruct (nth_error workers j) eqn:E0; [|reflexivity].
    assert (j < length workers)%nat by (apply nth_error_Some; congruence).
    lia.
Qed.

(** The worker handed to a thread is the lowest-index worker that was not
    started, it is handed over only while fewer than [max_threads] workers
    were counted busy, and it is pending until then. *)
Lemma dispatch_lowest_pending s i s' :
  reachable max_threads function workers s ->
  step max_threads function s (Dispatch i) s' ->
  busy_workers (jobs s) < max_threads
  /\ next_worker (jobs s) = Some i
  /\ (exists w, nth_error (jobs s) i = Some w
                /\ started w = false /\ mutex w = true)
  /\ (forall j w, (j < i)%nat -> nth_error (jobs s) j = Some w ->
                  started w = true).
Proof.
  intros Hreach Hstep.
  destruct (reachable_invariant s Hreach) as (Hlen & Hstate & _ & Hinv).
  inversion Hstep as [ | | | | | ws i' busy_count w Hw Hroom | | ]; subst.
  cbn [jobs phase phase_invariant] in *.
  destruct Hinv as (Hn & _ & Hc & _).
  rewrite firstn_all in Hc.
  destruct (next_worker_Some ws i (eq_sym Hn)) as [(w1 & Hw1 & Hs1) Hlow].
  split; [lia|]. split; [congruence|]. split; [|exact Hlow].
  exists w1. split; [exact Hw1|]. split; [exact Hs1|].
  destruct (nth_error workers i) as [w0|] eqn:E0.
  - destruct (Hstate i w0 w1 E0 Hw1) as [->|[->| ->]].
    + reflexivity.
    + discriminate.
    + rewrite function_started in Hs1. discriminate.
  - apply nth_error_None in E0.
    assert (i < length ws)%nat by (apply nth_error_Some; congruence).
    lia.
Qed.

(** *** A run that leaves the loop *)

Lemma put_middle (pre post : list Worker) x y :
  put (pre ++ x :: post) (length pre) y = pre ++ y :: post.
Proof. induction pre as [|p pre IH]; simpl; [|rewrite IH]; reflexivity. Qed.

Lemma nth_error_middle (pre post : list Worker) x :
  nth_error (pre ++ x :: post) (length pre) = Some x.
Proof. induction pre as [|p pre IH]; simpl; auto. Qed.

Lemma next_worker_app pre rest :
  (forall w, In w pre -> started w = true) ->
  next_worker (pre ++ rest)
  = option_map (Nat.add (length pre)) (next_worker rest).
Proof.
  induction pre as [|p pre IH]; intros H; simpl.
  - destruct (next_worker rest); reflexivity.
  - rewrite (H p (or_introl eq_refl)), IH by (intros w Hw; apply H; right; exact Hw).
    destruct (next_worker rest); reflexivity.
Qed.

Lemma next_worker_locked post :
  (forall w, In w post -> started w = false) ->
  next_worker (map lock post)
  = match post with [] => None | _ => Some 0%nat end.
Proof.
  destruct post as [|w post]; intros H; simpl; [reflexivity|].
  rewrite (H w (or_introl eq_refl)). reflexivity.
Qed.

(** [busy_workers] counts nothing when every worker is either free or not
    started. *)
Lemma count_idle ws next :
  (forall w, In w ws -> mutex w = false \/ started w = false) ->
  reachable max_threads function workers (mkSched ws (Counting next 0 0)) ->
  reachable max_threads function workers (mkSched ws (Deciding next 0)).
Proof.
  intros Hidle Hreach.
  assert (Hscan : forall i, (i <= length ws)%nat ->
            reachable max_threads function workers
                      (mkSched ws (Counting next i 0))).
  { induction i as [|i IH]; intros Hi; [exact Hreach|].
    destruct (nth_error ws i) as [w|] eqn:Ew.
    - destruct (Hidle w (nth_error_In _ _ Ew)) as [Hfree|Hfresh].
      + eapply reach_step; [apply IH; lia|].
        apply (step_try_lock_ok _ _ ws next i 0 w Ew Hfree).
      + eapply reach_step; [apply IH; lia|].
        pose proof (step_try_lock_fail max_threads function
                      ws next i 0 w Ew) as Hstep.
        rewrite Hfresh in Hstep. exact Hstep.
    - apply nth_error_None in Ew. lia. }
  eapply reach_step; [apply (Hscan (length ws)); lia|].
  apply step_counted.
Qed.

Lemma dispatch_loop_finishes pre post :
  (forall w, In w pre -> mutex w = false /\ started w = true) ->
  (forall w, In w post -> started w = false) ->
  reachable max_threads function workers
            (mkSched (pre ++ map lock post) Polling) ->
  exists ws, reachable max_threads function workers (mkSched ws Exited).
Proof.
  revert pre. induction post as [|w post IH]; intros pre Hpre Hpost Hreach.
  - cbn [map] in Hreach. rewrite app_nil_r in Hreach.
    exists pre. eapply reach_step; [|apply step_break].
    assert (Hnone : next_worker pre = None).
    { rewrite <- (app_nil_r pre), next_worker_app; [reflexivity|].
      intros w Hw. apply Hpre. exact Hw. }
    rewrite <- Hnone. apply count_idle.
    + intros w Hw. left. apply Hpre. exact Hw.
    + eapply reach_step; [exact Hreach | apply step_next_worker].
  - assert (Hnext : next_worker (pre ++ map lock (w :: post))
                    = Some (length pre)).
    { rewrite next_worker_app by (intros w' Hw'; apply Hpre; exact Hw').
      rewrite next_worker_locked by exact Hpost.
      cbn [option_map]. f_equal. lia. }
    apply (IH (pre ++ [function (set_started (lock w))])).
    + intros w' Hw'. apply in_app_or in Hw'. destruct Hw' as [Hw'|[<-|[]]].
      * apply Hpre. exact Hw'.
      * rewrite function_mutex, function_started. split; reflexivity.
    + intros w' Hw'. apply Hpost. right. exact Hw'.
    + rewrite <- app_assoc. cbn [app].
      rewrite <- (put_middle pre (map lock post)
                    (set_started (lock w)) (function (set_started (lock w)))).
      eapply reach_step;
        [|apply (step_thread _ _ _ Polling (length pre)
                   (set_started (lock w)));
          [apply nth_error_middle | reflexivity | reflexivity]].
      rewrite <- (put_middle pre (map lock post)
                    (lock w) (set_started (lock w))).
      eapply reach_step;
        [|apply (step_launch _ _ _ (length pre) 0 (lock w));
          [apply nth_error_middle | lia]].
      change (lock w :: map lock post) with (map lock (w :: post)).
      rewrite <- Hnext. apply count_idle.
      * intros w' Hw'. apply in_app_or in Hw'. destruct Hw' as [Hw'|Hw'].
        -- left. apply Hpre. exact Hw'.
        -- right. apply in_map_iff in Hw'. destruct Hw' as (w0 & <- & Hw0).
           cbn [lock started]. apply Hpost. exact Hw0.
      * eapply reach_step; [exact Hreach | apply step_next_worker].
Qed.

(** The loop can be left: some run reaches the statement after [break]. *)
Lemma dispatch_loop_can_exit :
  exists s, reachable max_threads function workers s /\ phase s = Exited.
Proof.
  destruct (dispatch_loop_finishes [] workers) as [ws Hws].
  - intros w [].
  - intros w Hw. apply In_nth_error in Hw. destruct Hw as [j Hj].
    apply (workers_fresh j w Hj).
  - apply reach_enter.
  - exists (mkSched ws Exited). split; [exact Hws | reflexivity].
Qed.
End DispatchLoopInvariant.

(** C10. In the dispatch loop, entered when [hardware_concurrency > 1], the
    number of started workers that hold their mutex never exceeds
    [max(1, hardware_concurrency)], and a worker is handed to a thread only
    while that number is below the bound; the worker handed over is then the
    lowest-index worker that is still pending. *)
Theorem dispatch_loop_capacity
    (hardware_concurrency : Z) (function : Worker -> Worker)
    (workers : list Worker) (s : Sched) :
  1 < hardware_concurrency ->
  (forall w, mutex (function w) = false) ->
  (forall w, started (function w) = started w) ->
  (forall j w, nth_error workers j = Some w -> started w = false) ->
  reachable hardware_concurrency function workers s ->
  busy_workers (jobs s) <= Z.max 1 hardware_concurrency
  /\ forall i s',
      step hardware_concurrency function s (Dispatch i) s' ->
      busy_workers (jobs s) < Z.max 1 hardware_concurrency
      /\ next_worker (jobs s) = Some i
      /\ (exists w, nth_error (jobs s) i = Some w
                    /\ started w = false /\ mutex w = true)
      /\ (forall j w, (j < i)%nat -> nth_error (jobs s) j = Some w ->
                      started w = true)
      /\ busy_workers (jobs s') <= Z.max 1 hardware_concurrency.
Proof.
  intros Hthreaded Hmutex Hstarted Hfresh Hreach.
  rewrite Z.max_r by lia.
  split.
  - apply (reachable_invariant hardware_concurrency function workers
             Hthreaded Hmutex Hstarted Hfresh s Hreach).
  - intros i s' Hstep.
    destruct (dispatch_lowest_pending hardware_concurrency function workers
                Hthreaded Hmutex Hstarted Hfresh s i s' Hreach Hstep)
      as (Hroom & Hnext & Hpending & Hlow).
    repeat split; try assumption.
    apply (reachable_invariant hardware_concurrency function workers
             Hthreaded Hmutex Hstarted Hfresh s').
    apply (reach_step _ _ _ s (Dispatch i) s' Hreach Hstep).
Qed.

(** One worker and four threads: the worker is dispatched on the first turn
    of the loop. *)
Lemma dispatch_loop_capacity_witness :
  reachable 4 (@perform_decompression Stored) [fresh_job] deciding_state
  /\ step 4 (@perform_decompression Stored)
          deciding_state (Dispatch 0) dispatched_state
  /\ busy_workers (jobs deciding_state) < Z.max 1 4
  /\ next_worker (jobs deciding_state) = Some 0%nat
  /\ busy_workers (jobs dispatched_state) <= Z.max 1 4.
Proof.
  assert (Hreach : reachable 4 (@perform_decompression Stored) [fresh_job]
                             deciding_state).
  { eapply reach_step;
      [|apply (step_counted _ _ [lock fresh_job] (Some 0%nat) 0)].
    eapply reach_step;
      [|apply (step_try_lock_fail _ _ [lock fresh_job] (Some 0%nat) 0 0
                 (lock fresh_job) eq_refl)].
    eapply reach_step; [apply reach_enter|].
    apply (step_next_worker _ _ [lock fresh_job]). }
  assert (Hstep : step 4 (@perform_decompression Stored)
                       deciding_state (Dispatch 0) dispatched_state).
  { apply (step_launch _ _ [lock fresh_job] 0 0 (lock fresh_job) eq_refl).
    lia. }
  pose proof (dispatch_loop_capacity 4 (@perform_decompression Stored)
                [fresh_job] deciding_state ltac:(lia)
                (@perform_decompression_mutex Stored)
                (@perform_decompression_started Stored)) as H.
  destruct H as [_ H].
  - intros [|[|j]] w Hw; simpl in Hw; try discriminate.
    injection Hw as <-. reflexivity.
  - exact Hreach.
  - destruct (H 0%nat dispatched_state Hstep) as (H1 & H2 & _ & _ & H3).
    repeat split; assumption.
Defined.

(** ** Failed jobs *)

Lemma perform_job_map hardware_concurrency function workers :
  perform_job hardware_concurrency function workers
  = map (fun w => function (prepare hardware_concurrency w)) workers.
Proof.
  unfold perform_job, prepare. destruct workers as [|w ws]; [reflexivity|].
  destruct (hardware_concurrency <=? 1); rewrite map_map; reflexivity.
Qed.

Lemma perform_job_nth hardware_concurrency function workers j w :
  nth_error workers j = Some w ->
  nth_error (perform_job hardware_concurrency function workers) j
  = Some (function (prepare hardware_concurrency w)).
Proof.
  intros H. rewrite perform_job_map, nth_error_map, H. reflexivity.
Qed.

Lemma existsb_failure workers :
  existsb failure workers = true <->
  exists j w, nth_error workers j = Some w /\ failure w = true.
Proof.
  rewrite existsb_exists. split.
  - intros (w & Hin & Hf). apply In_nth_error in Hin.
    destruct Hin as [j Hj]. exists j, w. auto.
  - intros (j & w & Hj & Hf). exists w. split; [|exact Hf].
    apply (nth_error_In _ _ Hj).
Qed.

(** C7. Every run of the dispatch loop that leaves it has passed every
    worker through the codec job, as the sequential loop does, so that
    [perform_job] holds the outcome of every job whichever of them fail; when
    some job failed, [decompress_file] and [compress_file] print one
    diagnostic for each failed block and no other, and end with the failure
    status and no output file. *)
Theorem failed_jobs_fail_the_run (zlib : Zlib) (hardware_concurrency : Z) :
  (forall function workers s,
      1 < hardware_concurrency ->
      (forall w, mutex (function w) = false) ->
      (forall w, started (function w) = started w) ->
      (forall j w, nth_error workers j = Some w -> started w = false) ->
      reachable hardware_concurrency function workers s ->
      phase s = Exited ->
      jobs s = perform_job hardware_concurrency function workers)
  /\ (forall function workers j w,
         nth_error workers j = Some w ->
         nth_error (perform_job hardware_concurrency function workers) j
         = Some (function (prepare hardware_concurrency w)))
  /\ (forall contents workers,
         sizeof_CompressedMapHeader <= size contents ->
         1 <= header_block_count contents <= 65535 ->
         allocate (decompress_worker contents) 0
                  (Z.to_nat (header_block_count contents)) = inr workers ->
         let done :=
           perform_job hardware_concurrency perform_decompression workers in
         (exists j w, nth_error done j = Some w /\ failure w = true) ->
         let run := decompress_file hardware_concurrency contents in
         exit_status run = EXIT_FAILURE
         /\ output_file run = None
         /\ forall d, In d (diagnostics run) <->
                      exists j w, nth_error done j = Some w
                                  /\ failure w = true
                                  /\ d = BlockFailedToDecompress j)
  /\ (forall contents workers,
         size contents < 2 ^ 64 ->
         (size contents + 131071) / 131072 <= 65535 ->
         allocate (compress_worker contents) 0
                  (Z.to_nat ((size contents + 131071) / 131072))
         = inr workers ->
         let done :=
           perform_job hardware_concurrency perform_compression workers in
         (exists j w, nth_error done j = Some w /\ failure w = true) ->
         let run := compress_file hardware_concurrency contents in
         exit_status run = EXIT_FAILURE
         /\ output_file run = None
         /\ forall d, In d (diagnostics run) <->
                      exists j w, nth_error done j = Some w
                                  /\ failure w = true
                                  /\ d = BlockFailedToCompress j).
Proof.
  split; [|split; [|split]].
  - intros function workers s Hthreaded Hmutex Hstarted Hfresh Hreach Hexit.
    rewrite (dispatch_loop_result hardware_concurrency function workers
               Hthreaded Hmutex Hstarted Hfresh s Hreach Hexit).
    rewrite perform_job_map. unfold prepare.
    replace (hardware_concurrency <=? 1) with false
      by (symmetry; apply Z.leb_gt; exact Hthreaded).
    reflexivity.
  - intros function workers j w. apply perform_job_nth.
  - intros contents workers Hsize Hcount Hall done Hfailed run.
    subst run. rewrite decompress_file_allocates by assumption.
    rewrite Hall. cbv zeta. fold done.
    apply existsb_failure in Hfailed. rewrite Hfailed.
    cbn [fail exit_status output_file diagnostics].
    split; [reflexivity|]. split; [reflexivity|].
    intros d. rewrite report_failures_In. reflexivity.
  - intros contents workers Hsize Hcount Hall done Hfailed run.
    subst run. rewrite compress_file_allocates by assumption.
    rewrite Hall. cbv zeta. fold done.
    apply existsb_failure in Hfailed. rewrite Hfailed.
    cbn [fail exit_status output_file diagnostics].
    split; [reflexivity|]. split; [reflexivity|].
    intros d. rewrite report_failures_In. reflexivity.
Qed.

(** A container whose block is cut short fails to decompress; with a codec
    that refuses every call, a file of five bytes fails to compress; a run of
    the dispatch loop on one job leaves it with that job done. *)
Lemma failed_jobs_fail_the_run_witness :
  (exit_status (@decompress_file Stored 4 corrupt_container) = EXIT_FAILURE
   /\ output_file (@decompress_file Stored 4 corrupt_container) = None
   /\ In (BlockFailedToDecompress 0)
         (diagnostics (@decompress_file Stored 4 corrupt_container)))
  /\ (exit_status (@compress_file Refusing 4 five_bytes) = EXIT_FAILURE
      /\ output_file (@compress_file Refusing 4 five_bytes) = None
      /\ In (BlockFailedToCompress 0)
            (diagnostics (@compress_file Refusing 4 five_bytes)))
  /\ exists s,
      reachable 4 (@perform_decompression Stored) [fresh_job] s
      /\ phase s = Exited
      /\ jobs s = perform_job 4 (@perform_decompression Stored) [fresh_job].
Proof.
  pose proof (failed_jobs_fail_the_run Stored 4) as (_ & _ & Hd & _).
  pose proof (failed_jobs_fail_the_run Refusing 4) as (_ & _ & _ & Hc).
  pose proof (failed_jobs_fail_the_run Stored 4) as (Hs & _).
  assert (Hfresh : forall j w, nth_error [fresh_job] j = Some w ->
                               started w = false).
  { intros [|[|j]] w Hw; simpl in Hw; try discriminate.
    injection Hw as <-. reflexivity. }
  split; [|split].
  - specialize (Hd corrupt_container
                  [mkWorker [Byte.x05] 9 (make_unique 5) 5 0
                            false false false]
                  ltac:(vm_compute; discriminate)
                  ltac:(split; vm_compute; discriminate)
                  ltac:(vm_compute; reflexivity)).
    cbv zeta in Hd.
    destruct Hd as (He & Ho & Hdiag).
    + exists 0%nat. eexists.
      split; [apply perform_job_nth; reflexivity | vm_compute; reflexivity].
    + split; [exact He|]. split; [exact Ho|]. apply (proj2 (Hdiag _)).
      exists 0%nat. eexists.
      split; [apply perform_job_nth; reflexivity|].
      split; [vm_compute; reflexivity | reflexivity].
  - specialize (Hc five_bytes
                  [mkWorker five_bytes 5
                     (store_uint32_t 5 ++ make_unique 10) 14 4
                     false false false]
                  ltac:(vm_compute; reflexivity)
                  ltac:(vm_compute; discriminate)
                  ltac:(vm_compute; reflexivity)).
    cbv zeta in Hc.
    destruct Hc as (He & Ho & Hdiag).
    + exists 0%nat. eexists.
      split; [apply perform_job_nth; reflexivity | vm_compute; reflexivity].
    + split; [exact He|]. split; [exact Ho|]. apply (proj2 (Hdiag _)).
      exists 0%nat. eexists.
      split; [apply perform_job_nth; reflexivity|].
      split; [vm_compute; reflexivity | reflexivity].
  - destruct (dispatch_loop_can_exit 4 (@perform_decompression Stored)
                [fresh_job] ltac:(lia) (@perform_decompression_mutex Stored)
                (@perform_decompression_started Stored) Hfresh)
      as (s & Hreach & Hexit).
    exists s. split; [exact Hreach|]. split; [exact Hexit|].
    apply Hs; try assumption.
    + lia.
    + apply perform_decompression_mutex.
    + apply perform_decompression_started.
Defined.

(** ** Lists of blocks *)

Lemma allocate_map setup g i n :
  (forall k, (k < n)%nat -> setup (i + k)%nat = inr (g (i + k)%nat)) ->
  allocate setup i n = inr (map g (seq i n)).
Proof.
  revert i. induction n as [|n IH]; intros i H; simpl; [reflexivity|].
  pose proof (H 0%nat ltac:(lia)) as H0. rewrite Nat.add_0_r in H0.
  rewrite H0, IH; [reflexivity|].
  intros k Hk. replace (S i + k)%nat with (i + S k)%nat by lia.
  apply H. lia.
Qed.

Lemma total_cons n sizes : total (n :: sizes) = n + total sizes.
Proof. reflexivity. Qed.

Lemma total_app a b : total (a ++ b) = total a + total b.
Proof.
  induction a as [|x a IH]; [reflexivity|].
  cbn [app]. rewrite !total_cons, IH. lia.
Qed.

Lemma total_firstn_S sizes i n :
  nth_error sizes i = Some n ->
  total (firstn (S i) sizes) = total (firstn i sizes) + n.
Proof.
  revert i. induction sizes as [|x sizes IH]; intros [|i] H; simpl in H;
    try discriminate.
  - injection H as ->. rewrite firstn_cons, !firstn_O, total_cons.
    change (total []) with 0. lia.
  - rewrite !firstn_cons, !total_cons, (IH i H). lia.
Qed.

Lemma length_offsets_from start sizes :
  length (offsets_from start sizes) = length sizes.
Proof.
  revert start. induction sizes as [|n sizes IH]; intros start; simpl;
    [reflexivity|]. rewrite IH. reflexivity.
Qed.

Lemma nth_error_offsets_from start sizes i :
  (i < length sizes)%nat ->
  nth_error (offsets_from start sizes) i
  = Some (start + total (firstn i sizes)).
Proof.
  revert start i. induction sizes as [|n sizes IH]; intros start [|i] H;
    simpl in H; try lia.
  - rewrite firstn_O. change (total []) with 0. cbn [offsets_from nth_error].
    f_equal. lia.
  - cbn [offsets_from nth_error]. rewrite IH by lia.
    rewrite firstn_cons, total_cons. f_equal. lia.
Qed.

(** ** The bytes of the header *)

Lemma size_repeat (b : byte) n : size (repeat b n) = Z.of_nat n.
Proof. unfold size. rewrite repeat_length. reflexivity. Qed.

Lemma length_flat_map_store offsets :
  length (flat_map store_uint32_t offsets) = (4 * length offsets)%nat.
Proof.
  induction offsets as [|o offsets IH]; cbn [flat_map]; [reflexivity|].
  rewrite length_app, IH. unfold store_uint32_t.
  rewrite length_le_split. cbn [length]. lia.
Qed.

Lemma size_header_bytes h :
  Z.of_nat (length (block_offsets h)) <= 65535 ->
  size (header_bytes h) = sizeof_CompressedMapHeader.
Proof.
  intros H. unfold header_bytes, size.
  rewrite !length_app, length_flat_map_store, repeat_length.
  unfold store_uint32_t. rewrite length_le_split.
  unfold sizeof_CompressedMapHeader, MAX_BLOCKS. lia.
Qed.

Lemma skipn_flat_map_store offsets i tail :
  (i <= length offsets)%nat ->
  skipn (4 * i) (flat_map store_uint32_t offsets ++ tail)
  = flat_map store_uint32_t (skipn i offsets) ++ tail.
Proof.
  revert i. induction offsets as [|o offsets IH]; intros [|i] H;
    simpl in H; try lia; try reflexivity.
  replace (4 * S i)%nat with (4 * i + 4)%nat by lia.
  cbn [flat_map skipn]. rewrite <- app_assoc, <- skipn_skipn.
  assert (H4 : length (store_uint32_t o) = 4%nat) by apply length_le_split.
  rewrite (skipn_app 4), H4, Nat.sub_diag, skipn_O.
  rewrite (skipn_all2 (store_uint32_t o)) by lia.
  cbn [app]. apply IH. lia.
Qed.

Lemma skipn_nth_error (A : Type) (l : list A) i x :
  nth_error l i = Some x -> skipn i l = x :: skipn (S i) l.
Proof.
  revert i. induction l as [|y l IH]; intros [|i] H; simpl in H;
    try discriminate.
  - injection H as ->. reflexivity.
  - cbn [skipn]. apply (IH i H).
Qed.

Lemma header_block_offsets_bytes h tail i o :
  nth_error (block_offsets h) i = Some o -> 0 <= o < 2 ^ 32 ->
  header_block_offsets (header_bytes h ++ tail) i = o.
Proof.
  intros Hnth Ho. unfold header_block_offsets, advance, header_bytes.
  replace (Z.to_nat (4 + 4 * Z.of_nat i)) with (4 * i + 4)%nat by lia.
  rewrite <- skipn_skipn.
  assert (H4 : length (store_uint32_t (block_count h)) = 4%nat)
    by apply length_le_split.
  rewrite <- !app_assoc.
  rewrite (skipn_app 4), H4, Nat.sub_diag, skipn_O.
  rewrite (skipn_all2 (store_uint32_t (block_count h))) by lia.
  cbn [app]. rewrite skipn_flat_map_store.
  - rewrite (skipn_nth_error _ _ _ _ Hnth). cbn [flat_map].
    rewrite <- app_assoc, load_store_uint32_t. apply uint32_t_small. exact Ho.
  - assert (i < length (block_offsets h))%nat; [|lia].
    apply nth_error_Some. congruence.
Qed.

(** ** Records laid one after the other *)

Lemma size_concat (rs : list (list byte)) :
  size (concat rs) = total (map size rs).
Proof.
  induction rs as [|r rs IH]; [reflexivity|].
  cbn [concat map]. rewrite size_app, total_cons, IH. reflexivity.
Qed.

Lemma skipn_concat (rs : list (list byte)) i :
  skipn (length (concat (firstn i rs))) (concat rs) = concat (skipn i rs).
Proof.
  revert i. induction rs as [|r rs IH]; intros [|i]; try reflexivity.
  rewrite firstn_cons. cbn [concat skipn]. rewrite length_app.
  rewrite Nat.add_comm, <- skipn_skipn.
  rewrite (skipn_app (length r)), Nat.sub_diag, skipn_O.
  rewrite (skipn_all2 r) by lia. cbn [app]. apply IH.
Qed.

Lemma advance_concat (h : list byte) (rs : list (list byte)) i :
  advance (h ++ concat rs) (size h + total (map size (firstn i rs)))
  = concat (skipn i rs).
Proof.
  unfold advance. rewrite <- size_concat. unfold size.
  replace (Z.to_nat (Z.of_nat (length h)
                     + Z.of_nat (length (concat (firstn i rs)))))
    with (length (concat (firstn i rs)) + length h)%nat by lia.
  rewrite <- skipn_skipn.
  rewrite (skipn_app (length h)), Nat.sub_diag, skipn_O.
  rewrite (skipn_all2 h) by lia. cbn [app]. apply skipn_concat.
Qed.

(** ** The chunks of a file *)

Lemma firstn_plus (A : Type) a b (l : list A) :
  firstn (a + b) l = firstn a l ++ firstn b (skipn a l).
Proof.
  revert l. induction a as [|a IH]; intros l; [reflexivity|].
  destruct l as [|x l].
  - rewrite skipn_nil, !firstn_nil. reflexivity.
  - cbn [Nat.add firstn skipn app]. rewrite IH. reflexivity.
Qed.

Lemma chunk_firstn contents i :
  chunk contents i
  = firstn (Z.to_nat 131072) (skipn (i * Z.to_nat 131072) contents).
Proof.
  unfold chunk, chunk_size, advance, CHUNK_SIZE.
  replace (Z.to_nat (Z.of_nat i * 131072)) with (i * Z.to_nat 131072)%nat
    by lia.
  set (l := skipn (i * Z.to_nat 131072) contents).
  assert (Hl : Z.of_nat (length l)
               = Z.max 0 (size contents - Z.of_nat i * 131072)).
  { unfold l, size. rewrite length_skipn. lia. }
  destruct (Z_le_gt_dec 131072 (size contents - Z.of_nat i * 131072))
    as [L|L].
  - rewrite Z.min_l by lia. reflexivity.
  - rewrite Z.min_r by lia.
    rewrite !firstn_all2 by lia. reflexivity.
Qed.

Lemma size_chunk contents i :
  Z.of_nat i * 131072 <= size contents ->
  size (chunk contents i) = chunk_size (size contents) i.
Proof.
  intros H. rewrite chunk_firstn. unfold chunk_size, CHUNK_SIZE.
  rewrite size_firstn, size_skipn. lia.
Qed.

Lemma concat_chunks contents k :
  concat (map (chunk contents) (seq 0 k))
  = firstn (k * Z.to_nat 131072) contents.
Proof.
  induction k as [|k IH]; [reflexivity|].
  rewrite seq_S, map_app, concat_app, IH. cbn [map concat Nat.add].
  rewrite app_nil_r, chunk_firstn.
  replace (S k * Z.to_nat 131072)%nat
    with (k * Z.to_nat 131072 + Z.to_nat 131072)%nat by lia.
  symmetry. apply firstn_plus.
Qed.

Lemma chunks_of_file contents :
  concat (map (chunk contents)
              (seq 0 (Z.to_nat ((size contents + 131071) / 131072))))
  = contents.
Proof.
  rewrite concat_chunks. apply firstn_all2.
  pose proof (size_nonneg contents) as S0.
  pose proof (Z.div_mod (size contents + 131071) 131072 ltac:(lia)) as E.
  pose proof (Z.mod_pos_bound (size contents + 131071) 131072 ltac:(lia)).
  assert (0 <= (size contents + 131071) / 131072)
    by (apply Z.div_pos; lia).
  unfold size in *. nia.
Qed.

(** ** The stages of [compress_file] after the allocation *)

Lemma write_workers_ok workers f :
  (forall w, In w workers -> output_size w <> 0) ->
  write_workers workers f
  = {| exit_status := EXIT_SUCCESS; diagnostics := [];
       output_file := Some (f ++ concat (map block_record workers)) |}.
Proof.
  revert f. induction workers as [|w ws IH]; intros f H.
  - cbn [write_workers map concat]. rewrite app_nil_r. reflexivity.
  - cbn [write_workers map concat].
    replace (output_size w =? 0) with false
      by (symmetry; apply Z.eqb_neq; apply H; left; reflexivity).
    rewrite IH by (intros w' Hw'; apply H; right; exact Hw').
    rewrite <- app_assoc. reflexivity.
Qed.

(** The loop that sets the offsets stores the running sums of the output
    sizes as long as they fit 32 bits. *)
Lemma set_offsets_fit start workers :
  0 <= start ->
  (forall w, In w workers -> 0 <= output_size w < 2 ^ 32) ->
  Forall (fun o => o <= UINT32_MAX)
         (offsets_from start (map output_size workers)) ->
  set_offsets start workers
  = inr (offsets_from start (map output_size workers)).
Proof.
  revert start. induction workers as [|w ws IH]; intros start H0 Hw Hfit;
    [reflexivity|].
  cbn [map offsets_from set_offsets] in *.
  inversion Hfit as [|o os Ho Hos]; subst.
  unfold UINT32_MAX in *.
  replace (4294967295 <? start) with false
    by (symmetry; apply Z.ltb_ge; exact Ho).
  pose proof (Hw w (or_introl eq_refl)) as Hsize.
  rewrite size_t_small by lia.
  rewrite IH; try assumption.
  - rewrite uint32_t_small by lia. reflexivity.
  - lia.
  - intros w' Hw'. apply Hw. right. exact Hw'.
Qed.

(** It leaves with the size diagnostic at the first running sum that does
    not. *)
Lemma set_offsets_overflow start workers :
  0 <= start ->
  (forall w, In w workers -> 0 <= output_size w < 2 ^ 32) ->
  (exists o, In o (offsets_from start (map output_size workers))
             /\ UINT32_MAX < o) ->
  exists over,
    In over (offsets_from start (map output_size workers))
    /\ UINT32_MAX < over
    /\ set_offsets start workers = inl (FinalSizeExceeds over).
Proof.
  revert start. induction workers as [|w ws IH]; intros start H0 Hw (o & Ho & Hover).
  - destruct Ho.
  - cbn [map offsets_from set_offsets] in *.
    destruct (UINT32_MAX <? start) eqn:E.
    + apply Z.ltb_lt in E. exists start. split; [left; reflexivity|].
      split; [exact E | reflexivity].
    + apply Z.ltb_ge in E. unfold UINT32_MAX in *.
      pose proof (Hw w (or_introl eq_refl)) as Hsize.
      rewrite size_t_small by lia.
      destruct Ho as [<-|Ho]; [lia|].
      destruct (IH (start + output_size w)) as (over & Hin & Hgt & Hset).
      * lia.
      * intros w' Hw'. apply Hw. right. exact Hw'.
      * exists o. split; assumption.
      * exists over. split; [right; exact Hin|]. split; [exact Hgt|].
        rewrite Hset. reflexivity.
Qed.

(** ** A compression job *)

Section CompressionJob.
Context {zlib : Zlib} {contract : ZlibContract zlib}.
Variable hardware_concurrency : Z.

Lemma chunk_size_range file_size i :
  Z.of_nat i * 131072 + 4 <= file_size ->
  4 <= chunk_size file_size i <= 131072.
Proof. unfold chunk_size, CHUNK_SIZE. lia. Qed.

Lemma size_deflated contents i :
  0 <= chunk_size (size contents) i ->
  size (snd (deflated contents i)) <= 2 * chunk_size (size contents) i.
Proof. intros H. unfold deflated. apply deflate_fits. lia. Qed.

Lemma size_record contents i :
  size (record contents i) = 4 + size (snd (deflated contents i)).
Proof. unfold record. rewrite size_app, size_store_uint32_t. reflexivity. Qed.

(** The job of block [i] fails exactly when [deflate] does; otherwise the
    worker holds the record of the block and its size. *)
Lemma perform_compression_planned contents i :
  Z.of_nat i * 131072 + 4 <= size contents ->
  let w :=
    perform_compression (prepare hardware_concurrency (planned_worker contents i)) in
  failure w = negb (fst (deflated contents i))
  /\ (fst (deflated contents i) = true ->
      block_record w = record contents i
      /\ output_size w = size (record contents i)).
Proof.
  intros Hi w.
  pose proof (chunk_size_range _ _ Hi) as Hcs.
  pose proof (size_deflated contents i ltac:(lia)) as Hfit.
  rewrite size_record. unfold record.
  subst w. unfold perform_compression.
  assert (Hfields :
            input (prepare hardware_concurrency (planned_worker contents i))
            = advance contents (Z.of_nat i * CHUNK_SIZE)
            /\ input_size (prepare hardware_concurrency (planned_worker contents i))
               = chunk_size (size contents) i
            /\ output (prepare hardware_concurrency (planned_worker contents i))
               = write_at (make_unique (chunk_size (size contents) i * 2 + 4)) 0
                          (store_uint32_t (chunk_size (size contents) i))
            /\ output_size (prepare hardware_concurrency (planned_worker contents i))
               = chunk_size (size contents) i * 2 + 4
            /\ failure (prepare hardware_concurrency (planned_worker contents i))
               = false).
  { unfold prepare. destruct (hardware_concurrency <=? 1);
      repeat split; reflexivity. }
  destruct Hfields as (-> & -> & Hout & -> & Hfail).
  unfold sizeof_uint32_t.
  rewrite (uInt_small (chunk_size (size contents) i)) by lia.
  replace (chunk_size (size contents) i * 2 + 4 - 4)
    with (2 * chunk_size (size contents) i) by lia.
  rewrite size_t_small by lia. rewrite uInt_small by lia.
  change (zlib_deflate _ _) with (deflated contents i).
  destruct (deflated contents i) as [ok produced]. cbn [fst snd] in *.
  pose proof (size_nonneg produced) as P0.
  destruct ok; cbn [negb].
  - cbn [failure unlock set_output_size set_output]. split; [exact Hfail|].
    intros _. unfold block_record.
    cbn [output output_size unlock set_output_size set_output].
    rewrite size_t_small by lia. split; [|lia].
    rewrite Hout. unfold write_at, make_unique.
    cbn [firstn app Nat.add].
    assert (H4 : length (store_uint32_t (chunk_size (size contents) i))
                 = 4%nat) by apply length_le_split.
    rewrite (firstn_app (Z.to_nat 4)).
    rewrite (firstn_all2 (store_uint32_t _)) by lia.
    replace (Z.to_nat 4 - length (store_uint32_t (chunk_size (size contents) i)))%nat
      with 0%nat by lia.
    rewrite firstn_O, app_nil_r.
    rewrite firstn_app, H4.
    rewrite (firstn_all2 (store_uint32_t _)) by (unfold size in *; lia).
    f_equal.
    rewrite firstn_app.
    replace (Z.to_nat (size produced + 4) - 4 - length produced)%nat
      with 0%nat by (unfold size; lia).
    rewrite firstn_O, app_nil_r.
    apply firstn_all2. unfold size. lia.
  - cbn [failure unlock set_failure set_output]. split; [reflexivity|].
    discriminate.
Qed.
End CompressionJob.

(** ** [compress_file] from the plan to the container *)

Section CompressFile.
Context {zlib : Zlib} {contract : ZlibContract zlib}.
Variable hardware_concurrency : Z.
Variable contents : list byte.
Hypothesis file_size_fits : size contents < 2 ^ 64.

Local Abbreviation n := (Z.to_nat ((size contents + 131071) / 131072)).

Lemma block_count_nonneg : 0 <= (size contents + 131071) / 131072.
Proof. pose proof (size_nonneg contents). apply Z.div_pos; lia. Qed.

(** Every block passes the offset check exactly when the allocation loop
    returns the planned workers. *)
Lemma compress_allocation_ok :
  (size contents + 131071) / 131072 <= 65535 ->
  (forall i, (i < n)%nat -> Z.of_nat i * 131072 + 4 <= size contents) ->
  allocate (compress_worker contents) 0 n
  = inr (map (planned_worker contents) (seq 0 n)).
Proof.
  intros Hcount Hchecks. apply allocate_map. intros k Hk. simpl.
  pose proof block_count_nonneg.
  apply compress_worker_ok; [lia | assumption | ].
  apply Hchecks. exact Hk.
Qed.

Lemma compress_allocation_checks workers :
  (size contents + 131071) / 131072 <= 65535 ->
  allocate (compress_worker contents) 0 n = inr workers ->
  forall i, (i < n)%nat -> Z.of_nat i * 131072 + 4 <= size contents.
Proof.
  intros Hcount Hall i Hi.
  pose proof block_count_nonneg.
  pose proof (allocate_length _ _ _ _ Hall) as Hlen.
  destruct (nth_error workers i) as [w|] eqn:E.
  - pose proof (allocate_nth _ _ _ _ _ _ Hall E) as Hw. simpl in Hw.
    destruct (Z_lt_le_dec (size contents) (Z.of_nat i * 131072 + 4))
      as [L|L]; [|exact L].
    rewrite compress_worker_error in Hw by lia.
    discriminate.
  - apply nth_error_None in E. lia.
Qed.

(** The outcome of the jobs when every block passes the offset check. *)
Lemma compress_jobs_failure :
  (forall i, (i < n)%nat -> Z.of_nat i * 131072 + 4 <= size contents) ->
  existsb failure
    (perform_job hardware_concurrency perform_compression
                 (map (planned_worker contents) (seq 0 n)))
  = negb (forallb (fun i => fst (deflated contents i)) (seq 0 n)).
Proof.
  intros Hchecks. rewrite perform_job_map, map_map.
  assert (H : forall l, (forall i, In i l -> (i < n)%nat) ->
            existsb failure
              (map (fun i => perform_compression
                               (prepare hardware_concurrency
                                        (planned_worker contents i))) l)
            = negb (forallb (fun i => fst (deflated contents i)) l)).
  { induction l as [|i l IH]; intros Hl; [reflexivity|].
    cbn [map existsb forallb].
    rewrite IH by (intros j Hj; apply Hl; right; exact Hj).
    destruct (perform_compression_planned hardware_concurrency contents i)
      as [Hf _].
    { apply Hchecks. apply Hl. left. reflexivity. }
    rewrite Hf. rewrite negb_andb. reflexivity. }
  apply H. intros i Hi. apply in_seq in Hi. lia.
Qed.

Lemma compress_jobs_records :
  (forall i, (i < n)%nat -> Z.of_nat i * 131072 + 4 <= size contents) ->
  (forall i, (i < n)%nat -> fst (deflated contents i) = true) ->
  let done :=
    perform_job hardware_concurrency perform_compression
                (map (planned_worker contents) (seq 0 n)) in
  map block_record done = records contents
  /\ map output_size done = map size (records contents).
Proof.
  intros Hchecks Hok done. subst done.
  rewrite perform_job_map, !map_map. unfold records.
  rewrite !map_map. split.
  - apply map_ext_in. intros i Hi. apply in_seq in Hi.
    apply perform_compression_planned; [apply Hchecks | apply Hok]; lia.
  - apply map_ext_in. intros i Hi. apply in_seq in Hi.
    apply perform_compression_planned; [apply Hchecks | apply Hok]; lia.
Qed.

Lemma record_size_range i :
  (i < n)%nat -> Z.of_nat i * 131072 + 4 <= size contents ->
  4 <= size (record contents i) <= 262148.
Proof.
  intros Hi Hcheck. rewrite size_record.
  pose proof (chunk_size_range _ _ Hcheck).
  pose proof (size_deflated contents i ltac:(lia)).
  pose proof (size_nonneg (snd (deflated contents i))). lia.
Qed.

Lemma records_size_range s :
  (forall i, (i < n)%nat -> Z.of_nat i * 131072 + 4 <= size contents) ->
  In s (map size (records contents)) -> 4 <= s <= 262148.
Proof.
  intros Hchecks Hs. unfold records in Hs.
  rewrite map_map in Hs. apply in_map_iff in Hs.
  destruct Hs as (i & <- & Hi). apply in_seq in Hi.
  apply record_size_range; [lia | apply Hchecks; lia].
Qed.

(** [compress_file] once the plan is within the block limit, every block
    passes the offset check and every job succeeds. *)
Lemma compress_file_to_offsets :
  (size contents + 131071) / 131072 <= 65535 ->
  (forall i, (i < n)%nat -> Z.of_nat i * 131072 + 4 <= size contents) ->
  (forall i, (i < n)%nat -> fst (deflated contents i) = true) ->
  let offsets :=
    offsets_from sizeof_CompressedMapHeader (map size (records contents)) in
  (Forall (fun o => o <= UINT32_MAX) offsets ->
   compress_file hardware_concurrency contents
   = {| exit_status := EXIT_SUCCESS; diagnostics := [];
        output_file := Some (container contents) |})
  /\ ((exists o, In o offsets /\ UINT32_MAX < o) ->
      exists over,
        In over offsets /\ UINT32_MAX < over
        /\ compress_file hardware_concurrency contents
           = fail [FinalSizeExceeds over]).
Proof.
  intros Hcount Hchecks Hok offsets.
  pose proof (compress_jobs_records Hchecks Hok) as [Hrecords Hsizes].
  cbv zeta in Hrecords, Hsizes.
  assert (Hrun :
    compress_file hardware_concurrency contents
    = match set_offsets sizeof_CompressedMapHeader
              (perform_job hardware_concurrency perform_compression
                 (map (planned_worker contents) (seq 0 n))) with
      | inl d => fail [d]
      | inr offsets =>
          write_file
            (perform_job hardware_concurrency perform_compression
               (map (planned_worker contents) (seq 0 n)))
            (header_bytes
               {| block_count := (size contents + 131071) / 131072;
                  block_offsets := offsets |})
      end).
  { rewrite compress_file_allocates by assumption.
    rewrite compress_allocation_ok by assumption. cbv zeta.
    rewrite compress_jobs_failure by assumption.
    replace (forallb (fun i => fst (deflated contents i)) (seq 0 n))
      with true; [reflexivity|].
    symmetry. apply forallb_forall. intros i Hi. apply in_seq in Hi.
    apply Hok. lia. }
  assert (Hsize : forall w,
    In w (perform_job hardware_concurrency perform_compression
            (map (planned_worker contents) (seq 0 n))) ->
    4 <= output_size w <= 262148).
  { intros w Hw. apply records_size_range; [exact Hchecks|].
    rewrite <- Hsizes. apply in_map. exact Hw. }
  split.
  - intros Hfit. rewrite Hrun.
    rewrite set_offsets_fit.
    + unfold write_file. rewrite write_workers_ok.
      * rewrite Hrecords, Hsizes. reflexivity.
      * intros w Hw. specialize (Hsize w Hw). lia.
    + unfold sizeof_CompressedMapHeader, MAX_BLOCKS. lia.
    + intros w Hw. specialize (Hsize w Hw). lia.
    + rewrite Hsizes. exact Hfit.
  - intros Hover. rewrite Hrun.
    destruct (set_offsets_overflow sizeof_CompressedMapHeader
                (perform_job hardware_concurrency perform_compression
                   (map (planned_worker contents) (seq 0 n))))
      as (over & Hin & Hgt & Hset).
    + unfold sizeof_CompressedMapHeader, MAX_BLOCKS. lia.
    + intros w Hw. specialize (Hsize w Hw). lia.
    + rewrite Hsizes. exact Hover.
    + exists over. rewrite Hsizes in Hin.
      split; [exact Hin|]. split; [exact Hgt|].
      rewrite Hset. reflexivity.
Qed.

Lemma offsets_fit_dec (offsets : list Z) :
  Forall (fun o => o <= UINT32_MAX) offsets
  \/ exists o, In o offsets /\ UINT32_MAX < o.
Proof.
  induction offsets as [|o offsets [IH|(o' & Hin & Hgt)]].
  - left. constructor.
  - destruct (Z_le_gt_dec o UINT32_MAX) as [L|L].
    + left. constructor; assumption.
    + right. exists o. split; [left; reflexivity | lia].
  - right. exists o'. split; [right; exact Hin | exact Hgt].
Qed.

(** What a successful run of [compress_file] went through. *)
Lemma compress_file_success :
  exit_status (compress_file hardware_concurrency contents) = EXIT_SUCCESS ->
  (size contents + 131071) / 131072 <= 65535
  /\ (forall i, (i < n)%nat -> Z.of_nat i * 131072 + 4 <= size contents)
  /\ (forall i, (i < n)%nat -> fst (deflated contents i) = true)
  /\ Forall (fun o => o <= UINT32_MAX)
            (offsets_from sizeof_CompressedMapHeader
                          (map size (records contents)))
  /\ compress_file hardware_concurrency contents
     = {| exit_status := EXIT_SUCCESS; diagnostics := [];
          output_file := Some (container contents) |}.
Proof.
  intros Hexit.
  destruct (Z_le_gt_dec ((size contents + 131071) / 131072) 65535)
    as [Hcount|Hcount].
  2:{ rewrite compress_file_too_many_blocks in Hexit by lia. discriminate. }
  assert (Hchecks : forall i, (i < n)%nat ->
                      Z.of_nat i * 131072 + 4 <= size contents).
  { rewrite compress_file_allocates in Hexit by assumption.
    destruct (allocate (compress_worker contents) 0 n) as [d|workers] eqn:E;
      [discriminate|].
    apply (compress_allocation_checks workers Hcount E). }
  assert (Hok : forall i, (i < n)%nat -> fst (deflated contents i) = true).
  { rewrite compress_file_allocates in Hexit by assumption.
    rewrite compress_allocation_ok in Hexit by assumption.
    cbv zeta in Hexit. rewrite compress_jobs_failure in Hexit by assumption.
    destruct (forallb (fun i => fst (deflated contents i)) (seq 0 n)) eqn:E;
      [|discriminate].
    intros i Hi. rewrite forallb_forall in E. apply E. apply in_seq. lia. }
  destruct (compress_file_to_offsets Hcount Hchecks Hok) as [Hfit Hover].
  destruct (offsets_fit_dec
              (offsets_from sizeof_CompressedMapHeader
                            (map size (records contents)))) as [F|F].
  - repeat split; try assumption. apply Hfit. exact F.
  - destruct (Hover F) as (over & _ & _ & Hrun).
    rewrite Hrun in Hexit. discriminate.
Qed.
End CompressFile.

(** ** The offsets in a container *)

Section ContainerOffsets.
Context {zlib : Zlib}.
Variable contents : list byte.
Hypothesis block_count_fits : (size contents + 131071) / 131072 <= 65535.
Hypothesis offsets_fit :
  Forall (fun o => o <= UINT32_MAX)
         (offsets_from sizeof_CompressedMapHeader
                       (map size (records contents))).

Lemma length_records :
  length (records contents)
  = Z.to_nat ((size contents + 131071) / 131072).
Proof. unfold records. rewrite length_map, length_seq. reflexivity. Qed.

Lemma size_container_header :
  size (header_bytes
          {| block_count := (size contents + 131071) / 131072;
             block_offsets :=
               offsets_from sizeof_CompressedMapHeader
                            (map size (records contents)) |})
  = sizeof_CompressedMapHeader.
Proof.
  apply size_header_bytes. cbn [block_offsets].
  rewrite length_offsets_from, length_map, length_records.
  pose proof (block_count_nonneg contents). lia.
Qed.

Lemma total_sizes_nonneg (rs : list (list byte)) : 0 <= total (map size rs).
Proof.
  induction rs as [|r rs IH]; [unfold total; simpl; lia|].
  cbn [map]. rewrite total_cons. pose proof (size_nonneg r). lia.
Qed.

Lemma container_block_count :
  header_block_count (container contents)
  = (size contents + 131071) / 131072.
Proof.
  unfold container. rewrite header_block_count_bytes. cbn [block_count].
  apply uint32_t_small. pose proof (block_count_nonneg contents). lia.
Qed.

(** The table entry of block [i] is the header size plus the sizes of the
    records before it, and the record of block [i] starts there. *)
Lemma container_block_offset i :
  (i < length (records contents))%nat ->
  header_block_offsets (container contents) i
  = sizeof_CompressedMapHeader
    + total (map size (firstn i (records contents))).
Proof.
  intros Hi. unfold container.
  assert (Hnth : nth_error
                   (offsets_from sizeof_CompressedMapHeader
                                 (map size (records contents))) i
                 = Some (sizeof_CompressedMapHeader
                         + total (map size (firstn i (records contents))))).
  { rewrite nth_error_offsets_from by (rewrite length_map; exact Hi).
    rewrite firstn_map. reflexivity. }
  apply header_block_offsets_bytes; [exact Hnth|].
  pose proof (total_sizes_nonneg (firstn i (records contents))).
  rewrite Forall_forall in offsets_fit.
  pose proof (offsets_fit _ (nth_error_In _ _ Hnth)) as Hfit.
  unfold UINT32_MAX, sizeof_CompressedMapHeader, MAX_BLOCKS in *. lia.
Qed.

Lemma container_block_located i :
  (i < length (records contents))%nat ->
  advance (container contents) (header_block_offsets (container contents) i)
  = concat (skipn i (records contents)).
Proof.
  intros Hi. rewrite container_block_offset by exact Hi.
  unfold container. pose proof size_container_header as Hh.
  set (h := header_bytes _) in *. rewrite <- Hh.
  apply advance_concat.
Qed.

Lemma container_next_offset i :
  (S i < length (records contents))%nat ->
  header_block_offsets (container contents) (S i)
  = header_block_offsets (container contents) i
    + size (nth i (records contents) []).
Proof.
  intros Hi. rewrite !container_block_offset by lia.
  rewrite <- !firstn_map.
  rewrite (total_firstn_S _ i (size (nth i (records contents) []))); [lia|].
  rewrite nth_error_map.
  rewrite (nth_error_nth' (records contents) []) by lia. reflexivity.
Qed.

Lemma size_container :
  size (container contents)
  = sizeof_CompressedMapHeader + total (map size (records contents)).
Proof.
  unfold container. rewrite size_app, size_container_header, size_concat.
  reflexivity.
Qed.
End ContainerOffsets.

(** C8. A container written by a successful [compress_file] is the header
    followed by the records of the blocks in index order; entry 0 of its
    offset table is the header size, entry [i + 1] is entry [i] plus the size
    of record [i] (the size prefix and the bytes [deflate] produced), and
    record [i] lies at entry [i]. When the jobs succeed and one of these
    running sums exceeds [UINT32_MAX], [compress_file] ends with the size
    diagnostic, the failure status and no output file. *)
Theorem compress_file_offsets
    (zlib : Zlib) (contract : ZlibContract zlib)
    (hardware_concurrency : Z) (contents : list byte) :
  size contents < 2 ^ 64 ->
  let n := Z.to_nat ((size contents + 131071) / 131072) in
  (exit_status (compress_file hardware_concurrency contents) = EXIT_SUCCESS ->
   exists header,
     size header = sizeof_CompressedMapHeader
     /\ output_file (compress_file hardware_concurrency contents)
        = Some (header ++ concat (records contents))
     /\ header_block_count (header ++ concat (records contents)) = Z.of_nat n
     /\ length (records contents) = n
     /\ forall i, (i < n)%nat ->
         let c := header ++ concat (records contents) in
         (i = 0%nat -> header_block_offsets c i = sizeof_CompressedMapHeader)
         /\ ((S i < n)%nat ->
             header_block_offsets c (S i)
             = header_block_offsets c i + size (record contents i))
         /\ firstn (length (record contents i))
                   (advance c (header_block_offsets c i))
            = record contents i)
  /\ ((size contents + 131071) / 131072 <= 65535 ->
      (forall i, (i < n)%nat -> Z.of_nat i * 131072 + 4 <= size contents) ->
      (forall i, (i < n)%nat -> fst (deflated contents i) = true) ->
      (exists o,
          In o (offsets_from sizeof_CompressedMapHeader
                             (map size (records contents)))
          /\ UINT32_MAX < o) ->
      exists over,
        UINT32_MAX < over
        /\ compress_file hardware_concurrency contents
           = {| exit_status := EXIT_FAILURE;
                diagnostics := [FinalSizeExceeds over];
                output_file := None |}).
Proof.
  intros Hsize n. split.
  - intros Hexit.
    destruct (compress_file_success hardware_concurrency contents Hsize Hexit)
      as (Hcount & Hchecks & Hok & Hfit & Hrun).
    pose proof (block_count_nonneg contents) as Hn0.
    exists (header_bytes
              {| block_count := (size contents + 131071) / 131072;
                 block_offsets :=
                   offsets_from sizeof_CompressedMapHeader
                                (map size (records contents)) |}).
    fold (container contents).
    split; [apply size_container_header; assumption|].
    split; [rewrite Hrun; reflexivity|].
    split; [rewrite container_block_count by assumption; unfold n; lia|].
    split; [apply length_records|].
    intros i Hi c. subst c.
    assert (Hlen : (i < length (records contents))%nat)
      by (rewrite length_records; exact Hi).
    assert (Hrec : nth i (records contents) [] = record contents i).
    { unfold records. fold n.
      rewrite (nth_indep _ [] (record contents 0%nat))
        by (rewrite length_map, length_seq; exact Hi).
      rewrite map_nth, seq_nth by exact Hi. reflexivity. }
    split; [|split].
    + intros ->. rewrite container_block_offset by assumption.
      rewrite firstn_O. unfold total. simpl. lia.
    + intros HS. rewrite container_next_offset, Hrec by
        (try assumption; rewrite length_records; exact HS).
      reflexivity.
    + rewrite container_block_located by assumption.
      rewrite (skipn_nth_error _ (records contents) i (record contents i)).
      * cbn [concat]. rewrite firstn_app, Nat.sub_diag, firstn_O, app_nil_r.
        apply firstn_all.
      * rewrite (nth_error_nth' _ [] Hlen), Hrec. reflexivity.
  - intros Hcount Hchecks Hok Hover.
    destruct (compress_file_to_offsets hardware_concurrency contents Hsize
                Hcount Hchecks Hok) as [_ H].
    destruct (H Hover) as (over & _ & Hgt & Hrun).
    exists over. split; [exact Hgt | exact Hrun].
Qed.

(** ** [decompress_file] on a container of [compress_file] *)

Section Decompress.
Context {zlib : Zlib} {contract : ZlibContract zlib}.
Variable hardware_concurrency : Z.
Variable contents : list byte.
Hypothesis file_size_fits : size contents < 2 ^ 64.
Hypothesis block_count_fits : (size contents + 131071) / 131072 <= 65535.
Hypothesis checks :
  forall i, (i < length (records contents))%nat ->
            Z.of_nat i * 131072 + 4 <= size contents.
Hypothesis jobs_succeed :
  forall i, (i < length (records contents))%nat ->
            fst (deflated contents i) = true.
Hypothesis offsets_fit :
  Forall (fun o => o <= UINT32_MAX)
         (offsets_from sizeof_CompressedMapHeader
                       (map size (records contents))).
Hypothesis container_fits : size (container contents) < 2 ^ 32 + 262140.

Lemma nth_error_records i :
  (i < length (records contents))%nat ->
  nth_error (records contents) i = Some (record contents i).
Proof.
  intros Hi. unfold records in *. rewrite length_map, length_seq in Hi.
  rewrite nth_error_map, nth_error_seq.
  replace (i <? _)%nat with true by (symmetry; apply Nat.ltb_lt; exact Hi).
  reflexivity.
Qed.

(** From the offset of block [i] on, the container holds the size prefix of
    the block, its stream, and the records that follow. *)
Lemma container_from_offset i :
  (i < length (records contents))%nat ->
  advance (container contents) (header_block_offsets (container contents) i)
  = store_uint32_t (chunk_size (size contents) i)
    ++ snd (deflated contents i)
    ++ concat (skipn (S i) (records contents)).
Proof.
  intros Hi. rewrite container_block_located by assumption.
  rewrite (skipn_nth_error _ _ _ _ (nth_error_records i Hi)).
  cbn [concat]. unfold record. rewrite <- app_assoc. reflexivity.
Qed.

Lemma container_offset_range i :
  (i < length (records contents))%nat ->
  sizeof_CompressedMapHeader <= header_block_offsets (container contents) i
  /\ header_block_offsets (container contents) i
     + 4 + size (snd (deflated contents i))
     <= size (container contents).
Proof.
  intros Hi. rewrite container_block_offset by assumption.
  rewrite size_container by assumption.
  pose proof (total_sizes_nonneg (firstn i (records contents))).
  split; [lia|].
  rewrite <- (firstn_skipn i (records contents)) at 2.
  rewrite map_app, total_app.
  rewrite (skipn_nth_error _ _ _ _ (nth_error_records i Hi)).
  cbn [map]. rewrite total_cons, size_record.
  pose proof (total_sizes_nonneg (skipn (S i) (records contents))). lia.
Qed.

Lemma decompress_allocation :
  allocate (decompress_worker (container contents)) 0
           (length (records contents))
  = inr (map (located_worker (container contents))
             (seq 0 (length (records contents)))).
Proof.
  apply allocate_map. intros k Hk. simpl.
  apply decompress_worker_ok.
  pose proof (container_offset_range k Hk).
  pose proof (size_nonneg (snd (deflated contents k))). lia.
Qed.

(** The job of block [i] inflates the chunk back. *)
Lemma perform_decompression_located i :
  (i < length (records contents))%nat ->
  let w :=
    perform_decompression
      (prepare hardware_concurrency
               (located_worker (container contents) i)) in
  failure w = false
  /\ block_record w = chunk contents i
  /\ output_size w = chunk_size (size contents) i.
Proof.
  intros Hi w.
  pose proof (container_offset_range i Hi) as [Hlow Hhigh].
  pose proof (eq_refl : sizeof_CompressedMapHeader = 262144) as Hhdr.
  pose proof (size_nonneg (snd (deflated contents i))) as Hs0.
  pose proof (chunk_size_range _ _ (checks i Hi)) as Hcs.
  pose proof (size_chunk contents i ltac:(specialize (checks i Hi); lia))
    as Hchunk.
  set (c := container contents) in *.
  set (o := header_block_offsets c i) in *.
  assert (Hfields :
    input (prepare hardware_concurrency (located_worker c i))
    = snd (deflated contents i) ++ concat (skipn (S i) (records contents))
    /\ input_size (prepare hardware_concurrency (located_worker c i))
       = size c - o + 4
    /\ output (prepare hardware_concurrency (located_worker c i))
       = make_unique (chunk_size (size contents) i)
    /\ output_size (prepare hardware_concurrency (located_worker c i))
       = chunk_size (size contents) i
    /\ failure (prepare hardware_concurrency (located_worker c i)) = false).
  { assert (Hprefix : load_uint32_t (advance c o)
                      = chunk_size (size contents) i).
    { unfold c, o. rewrite container_from_offset by exact Hi.
      rewrite load_store_uint32_t. apply uint32_t_small. lia. }
    assert (Hinput : advance (advance c o) sizeof_uint32_t
                     = snd (deflated contents i)
                       ++ concat (skipn (S i) (records contents))).
    { unfold c, o. rewrite container_from_offset by exact Hi.
      unfold advance, sizeof_uint32_t.
      assert (H4 : length (store_uint32_t (chunk_size (size contents) i))
                   = 4%nat) by apply length_le_split.
      rewrite (skipn_app (Z.to_nat 4)).
      rewrite (skipn_all2 (store_uint32_t _)) by lia.
      replace (Z.to_nat 4 - length (store_uint32_t
                                      (chunk_size (size contents) i)))%nat
        with 0%nat by lia.
      reflexivity. }
    assert (Hdeclared :
              size_t (size_t (size c - o) + sizeof_uint32_t)
              = size c - o + 4).
    { unfold sizeof_uint32_t.
      rewrite (size_t_small (size c - o)) by lia.
      apply size_t_small. lia. }
    unfold prepare, located_worker. fold o.
    destruct (hardware_concurrency <=? 1);
      cbn [input input_size output output_size failure lock set_started];
      rewrite Hprefix, Hinput, Hdeclared; repeat split; reflexivity. }
  destruct Hfields as (Hin & Hsz & Hout & Hosz & Hfail).
  subst w. unfold perform_decompression.
  rewrite Hin, Hsz, Hout, Hosz.
  rewrite (uInt_small (size c - o + 4)) by lia.
  rewrite (uInt_small (chunk_size (size contents) i)) by lia.
  assert (Hinflate :
            zlib_inflate
              (snd (deflated contents i)
               ++ concat (skipn (S i) (records contents)))
              (size c - o + 4) (chunk_size (size contents) i)
            = (true, chunk contents i)).
  { rewrite <- Hchunk.
    apply (inflate_deflate (chunk contents i)
             (2 * chunk_size (size contents) i)
             (snd (deflated contents i))); [|lia].
    specialize (jobs_succeed i Hi). unfold deflated in *.
    destruct (zlib_deflate _ _) as [ok produced]. cbn [fst snd] in *.
    rewrite jobs_succeed. reflexivity. }
  rewrite Hinflate.
  cbn [failure output output_size unlock set_output set_failure].
  unfold block_record.
  cbn [failure output output_size unlock set_output set_failure].
  rewrite Hosz. split; [exact Hfail|]. split; [|reflexivity].
  unfold write_at, make_unique. cbn [firstn app Nat.add].
  rewrite skipn_all2 by (rewrite repeat_length; unfold size in *; lia).
  rewrite app_nil_r. apply firstn_all2. unfold size in *. lia.
Qed.

Lemma decompress_container :
  0 < size contents ->
  decompress_file hardware_concurrency (container contents)
  = {| exit_status := EXIT_SUCCESS; diagnostics := [];
       output_file := Some contents |}.
Proof.
  intros Hnonempty.
  pose proof (block_count_nonneg contents) as Hn0.
  assert (Hn1 : 1 <= (size contents + 131071) / 131072).
  { assert (0 < (size contents + 131071) / 131072); [|lia].
    apply Z.div_str_pos. lia. }
  pose proof (total_sizes_nonneg (records contents)) as Ht.
  rewrite decompress_file_allocates.
  2:{ rewrite size_container by assumption. lia. }
  2:{ rewrite container_block_count by assumption. lia. }
  rewrite container_block_count by assumption.
  rewrite <- length_records, decompress_allocation. cbv zeta.
  rewrite perform_job_map, map_map.
  set (done := map _ (seq 0 (length (records contents)))).
  assert (Hfail : existsb failure done = false).
  { apply not_true_is_false. intros H. apply existsb_exists in H.
    destruct H as (w & Hw & Hf). unfold done in Hw.
    apply in_map_iff in Hw. destruct Hw as (i & <- & Hi).
    apply in_seq in Hi.
    destruct (perform_decompression_located i ltac:(lia)) as (F & _).
    congruence. }
  rewrite Hfail. unfold write_file. rewrite write_workers_ok.
  - cbn [app]. f_equal. f_equal. unfold done. rewrite map_map.
    rewrite <- (chunks_of_file contents) at 2.
    rewrite <- length_records. f_equal. apply map_ext_in.
    intros i Hi. apply in_seq in Hi.
    apply perform_decompression_located. lia.
  - intros w Hw. unfold done in Hw.
    apply in_map_iff in Hw. destruct Hw as (i & <- & Hi).
    apply in_seq in Hi.
    destruct (perform_decompression_located i ltac:(lia)) as (_ & _ & ->).
    pose proof (chunk_size_range _ _ (checks i ltac:(lia))). lia.
Qed.
End Decompress.

(** A container whose offsets fit 32 bits ends less than one record past
    [UINT32_MAX]. *)
Lemma size_container_bound
    {zlib : Zlib} {contract : ZlibContract zlib} (contents : list byte) :
  0 < size contents ->
  (size contents + 131071) / 131072 <= 65535 ->
  (forall i, (i < length (records contents))%nat ->
             Z.of_nat i * 131072 + 4 <= size contents) ->
  (forall i, (i < length (records contents))%nat ->
             fst (deflated contents i) = true) ->
  Forall (fun o => o <= UINT32_MAX)
         (offsets_from sizeof_CompressedMapHeader
                       (map size (records contents))) ->
  size (container contents) < 2 ^ 32 + 262140.
Proof.
  intros Hnonempty Hcount Hchecks Hok Hfit.
  assert (Hn : (0 < length (records contents))%nat).
  { rewrite length_records.
    assert (0 < (size contents + 131071) / 131072); [|lia].
    apply Z.div_str_pos. lia. }
  set (k := (length (records contents) - 1)%nat).
  assert (Hk : (k < length (records contents))%nat) by (unfold k; lia).
  rewrite size_container by assumption.
  rewrite <- (firstn_skipn k (records contents)) at 1.
  rewrite map_app, total_app.
  rewrite (skipn_nth_error _ _ _ _ (nth_error_records contents k Hk)).
  rewrite (skipn_all2 (n := S k)) by (unfold k; lia).
  cbn [map]. rewrite total_cons. change (total []) with 0.
  assert (Hoff : sizeof_CompressedMapHeader
                 + total (map size (firstn k (records contents)))
                 <= UINT32_MAX).
  { rewrite Forall_forall in Hfit. apply Hfit.
    apply (nth_error_In _ k).
    rewrite nth_error_offsets_from by (rewrite length_map; exact Hk).
    rewrite firstn_map. reflexivity. }
  rewrite size_record.
  pose proof (chunk_size_range _ _ (Hchecks k Hk)) as Hcs.
  pose proof (size_chunk contents k
                ltac:(specialize (Hchecks k Hk); lia)) as Hchunk.
  assert (Hstream :
            size (snd (deflated contents k))
            <= size (chunk contents k) + size (chunk contents k) / 4096
               + size (chunk contents k) / 16384
               + size (chunk contents k) / 33554432 + 13).
  { apply (deflate_bound _ (2 * chunk_size (size contents) k)).
    specialize (Hok k Hk). unfold deflated in *.
    destruct (zlib_deflate _ _) as [ok produced]. cbn [fst snd] in *.
    rewrite Hok. reflexivity. }
  rewrite Hchunk in Hstream. unfold UINT32_MAX in Hoff.
  assert (chunk_size (size contents) k / 4096 <= 32)
    by (apply Z.div_le_upper_bound; lia).
  assert (chunk_size (size contents) k / 16384 <= 8)
    by (apply Z.div_le_upper_bound; lia).
  assert (chunk_size (size contents) k / 33554432 = 0)
    by (apply Z.div_small; lia).
  lia.
Qed.

(** C1 (amended). For every non-empty byte sequence on which [compress_file]
    succeeds, [decompress_file] on the container it wrote succeeds and
    writes exactly that byte sequence. *)
Theorem decompress_file_compress_file
    (zlib : Zlib) (contract : ZlibContract zlib)
    (hardware_concurrency hardware_concurrency' : Z)
    (contents c : list byte) :
  size contents < 2 ^ 64 ->
  0 < size contents ->
  exit_status (compress_file hardware_concurrency contents) = EXIT_SUCCESS ->
  output_file (compress_file hardware_concurrency contents) = Some c ->
  decompress_file hardware_concurrency' c
  = {| exit_status := EXIT_SUCCESS; diagnostics := [];
       output_file := Some contents |}.
Proof.
  intros Hsize Hnonempty Hexit Hout.
  destruct (compress_file_success hardware_concurrency contents Hsize Hexit)
    as (Hcount & Hchecks & Hok & Hfit & Hrun).
  rewrite Hrun in Hout. cbn [output_file] in Hout.
  assert (c = container contents) as -> by congruence.
  rewrite <- length_records in Hchecks, Hok.
  apply decompress_container; try assumption.
  apply size_container_bound; assumption.
Qed.

(** Five bytes go through the reference codec and back. *)
Lemma decompress_file_compress_file_witness :
  output_file (@compress_file Stored 4 five_bytes) = Some five_bytes_container
  /\ @decompress_file Stored 4 five_bytes_container
     = {| exit_status := EXIT_SUCCESS; diagnostics := [];
          output_file := Some five_bytes |}.
Proof.
  assert (E : output_file (@compress_file Stored 4 five_bytes)
              = Some five_bytes_container)
    by (apply holds_bytes_eq; vm_compute; reflexivity).
  split; [exact E|].
  exact (decompress_file_compress_file Stored Stored_contract 4 4
           five_bytes five_bytes_container
           ltac:(reflexivity) ltac:(reflexivity)
           ltac:(vm_compute; reflexivity) E).
Defined.

(** C1 (as stated) fails on the empty file: [compress_file] succeeds and
    writes a container that declares no block, which [decompress_file]
    rejects. It also fails on a file of one byte, for which [compress_file]
    writes no container at all. *)
Lemma decompress_file_compress_file_empty :
  @compress_file Stored 4 []
  = {| exit_status := EXIT_SUCCESS; diagnostics := [];
       output_file := Some empty_container |}
  /\ @decompress_file Stored 4 empty_container
     = {| exit_status := EXIT_FAILURE; diagnostics := [InvalidBlockCountZero];
          output_file := None |}
  /\ @compress_file Stored 4 [Byte.x2a]
     = {| exit_status := EXIT_FAILURE; diagnostics := [InvalidOffset 0 0 1];
          output_file := None |}.
Proof.
  split; [run_by_computation|]. split; run_by_computation.
Qed.

(** ** A file whose container passes 4 GiB *)

Lemma stored_deflate_ok src avail_out :
  size src < 2 ^ 32 -> 4 + size src <= avail_out ->
  stored_deflate src avail_out = (true, store_uint32_t (size src) ++ src).
Proof.
  intros H32 Hroom. unfold stored_deflate.
  rewrite size_app, size_store_uint32_t.
  replace (size src <? 2 ^ 32) with true
    by (symmetry; apply Z.ltb_lt; exact H32).
  replace (4 + size src <=? avail_out) with true
    by (symmetry; apply Z.leb_le; exact Hroom).
  reflexivity.
Qed.

(** Under the reference codec every job succeeds, and the record of a full
    chunk takes eight bytes more than the chunk. *)
Lemma stored_record contents i :
  Z.of_nat i * 131072 + 4 <= size contents ->
  fst (@deflated Stored contents i) = true
  /\ size (@record Stored contents i)
     = 8 + chunk_size (size contents) i.
Proof.
  intros Hcheck. pose proof (chunk_size_range _ _ Hcheck) as Hcs.
  pose proof (size_chunk contents i ltac:(lia)) as Hchunk.
  rewrite size_record. unfold deflated. cbn [zlib_deflate Stored].
  rewrite stored_deflate_ok by lia. cbn [fst snd].
  rewrite size_app, size_store_uint32_t, Hchunk. split; [reflexivity | lia].
Qed.

Lemma chunk_size_full file_size i :
  (Z.of_nat i + 1) * 131072 <= file_size -> chunk_size file_size i = 131072.
Proof. unfold chunk_size, CHUNK_SIZE. lia. Qed.

Lemma records_eq {zlib : Zlib} contents :
  records contents
  = map (record contents)
        (seq 0 (Z.to_nat ((size contents + 131071) / 131072))).
Proof. reflexivity. Qed.

Lemma firstn_seq_min k a m : firstn k (seq a m) = seq a (Nat.min k m).
Proof.
  revert a m. induction k as [|k IH]; intros a [|m]; try reflexivity.
  cbn [seq Nat.min]. rewrite firstn_cons, IH. reflexivity.
Qed.

Lemma total_at_least sizes c :
  (forall s, In s sizes -> c <= s) ->
  Z.of_nat (length sizes) * c <= total sizes.
Proof.
  induction sizes as [|s sizes IH]; intros H.
  - change (total []) with 0. simpl. lia.
  - rewrite total_cons. cbn [length].
    pose proof (H s (or_introl eq_refl)).
    pose proof (IH (fun s' Hs' => H s' (or_intror Hs'))). lia.
Qed.

(** When the first [k] chunks are full, block [k] starts [k] records of
    131080 bytes after the header. *)
Lemma stored_offset_at_least contents k :
  Z.of_nat k * 131072 <= size contents ->
  (k < length (@records Stored contents))%nat ->
  exists o,
    In o (offsets_from sizeof_CompressedMapHeader
                       (map size (@records Stored contents)))
    /\ sizeof_CompressedMapHeader + Z.of_nat k * 131080 <= o.
Proof.
  intros Hfull Hk.
  exists (sizeof_CompressedMapHeader
          + total (firstn k (map size (@records Stored contents)))).
  split.
  - apply (nth_error_In _ k).
    apply nth_error_offsets_from. rewrite length_map. exact Hk.
  - assert (Hsizes : forall s,
              In s (firstn k (map size (@records Stored contents))) ->
              131080 <= s).
    { intros s Hs. rewrite length_records in Hk.
      rewrite firstn_map, records_eq, firstn_map, firstn_seq_min in Hs.
      rewrite map_map in Hs. apply in_map_iff in Hs.
      destruct Hs as (i & <- & Hi). apply in_seq in Hi.
      destruct (stored_record contents i ltac:(lia)) as [_ ->].
      rewrite chunk_size_full by lia. lia. }
    pose proof (total_at_least _ _ Hsizes) as Htotal.
    rewrite length_firstn, length_map in Htotal. lia.
Qed.

Lemma size_huge_file : size huge_file = 4294574084.
Proof. unfold huge_file. rewrite size_repeat. apply Z2Nat.id. lia. Qed.

(** [huge_file] has 32766 chunks; under the reference codec every block
    passes the offset check, every job succeeds, and block 32765 would start
    past [UINT32_MAX]. *)
Lemma huge_file_overflows :
  size huge_file < 2 ^ 64
  /\ (size huge_file + 131071) / 131072 = 32766
  /\ (forall i, (i < Z.to_nat 32766)%nat ->
                Z.of_nat i * 131072 + 4 <= size huge_file)
  /\ (forall i, (i < Z.to_nat 32766)%nat ->
                fst (@deflated Stored huge_file i) = true)
  /\ exists o,
      In o (offsets_from sizeof_CompressedMapHeader
                         (map size (@records Stored huge_file)))
      /\ UINT32_MAX < o.
Proof.
  pose proof size_huge_file as Hsize.
  assert (Hcount : (size huge_file + 131071) / 131072 = 32766).
  { rewrite Hsize. reflexivity. }
  assert (Hchecks : forall i, (i < Z.to_nat 32766)%nat ->
                      Z.of_nat i * 131072 + 4 <= size huge_file).
  { intros i Hi. rewrite Hsize. lia. }
  split; [rewrite Hsize; reflexivity|].
  split; [exact Hcount|]. split; [exact Hchecks|]. split.
  - intros i Hi. apply stored_record. apply Hchecks. exact Hi.
  - destruct (stored_offset_at_least huge_file (Z.to_nat 32765))
      as (o & Hin & Ho).
    + rewrite Hsize. lia.
    + rewrite length_records, Hcount. lia.
    + exists o. split; [exact Hin|].
      pose proof (eq_refl : sizeof_CompressedMapHeader = 262144).
      pose proof (eq_refl : UINT32_MAX = 4294967295). lia.
Qed.

(** The container of five bytes holds one record right after the header;
    the container of [huge_file] would pass 4 GiB and is refused. *)
Lemma compress_file_offsets_witness :
  (exists header,
      size header = sizeof_CompressedMapHeader
      /\ output_file (@compress_file Stored 4 five_bytes)
         = Some (header ++ concat (@records Stored five_bytes))
      /\ header_block_offsets (header ++ concat (@records Stored five_bytes)) 0
         = sizeof_CompressedMapHeader
      /\ firstn (length (@record Stored five_bytes 0))
                (advance (header ++ concat (@records Stored five_bytes))
                         sizeof_CompressedMapHeader)
         = @record Stored five_bytes 0)
  /\ exists over,
      UINT32_MAX < over
      /\ @compress_file Stored 4 huge_file
         = {| exit_status := EXIT_FAILURE;
              diagnostics := [FinalSizeExceeds over];
              output_file := None |}.
Proof.
  split.
  - destruct (proj1 (compress_file_offsets Stored Stored_contract 4 five_bytes
                       ltac:(reflexivity))
                    ltac:(vm_compute; reflexivity))
      as (header & Hsize & Hout & _ & _ & Hblocks).
    exists header. split; [exact Hsize|]. split; [exact Hout|].
    destruct (Hblocks 0%nat ltac:(vm_compute; lia)) as (H0 & _ & Hrec).
    cbv zeta in Hrec. rewrite (H0 eq_refl) in Hrec.
    split; [exact (H0 eq_refl) | exact Hrec].
  - destruct huge_file_overflows
      as (Hsize & Hcount & Hchecks & Hok & Hover).
    pose proof (compress_file_offsets Stored Stored_contract 4 huge_file
                  Hsize) as H.
    cbv zeta in H. destruct H as [_ H]. apply H.
    + rewrite Hcount. lia.
    + intros i Hi. apply Hchecks. rewrite Hcount in Hi. exact Hi.
    + intros i Hi. apply Hok. rewrite Hcount in Hi. exact Hi.
    + exact Hover.
Defined.

(** * Further properties *)

(** ** [write_file] *)

Lemma write_workers_zero pre w post f :
  (forall w', In w' pre -> output_size w' <> 0) ->
  output_size w = 0 ->
  write_workers (pre ++ w :: post) f
  = {| exit_status := EXIT_FAILURE; diagnostics := [FailedToWrite];
       output_file := Some (f ++ concat (map block_record pre)) |}.
Proof.
  revert f. induction pre as [|p pre IH]; intros f Hpre Hw.
  - cbn [app write_workers map concat]. rewrite Hw.
    change (0 =? 0) with true. cbv iota. rewrite app_nil_r. reflexivity.
  - cbn [app write_workers map concat].
    replace (output_size p =? 0) with false
      by (symmetry; apply Z.eqb_neq; apply Hpre; left; reflexivity).
    rewrite IH by (try assumption; intros w' Hw'; apply Hpre; right; exact Hw').
    rewrite <- app_assoc. reflexivity.
Qed.

Lemma write_workers_exit workers f :
  (exists w, In w workers /\ output_size w = 0) ->
  exit_status (write_workers workers f) = EXIT_FAILURE.
Proof.
  revert f. induction workers as [|w ws IH]; intros f (w0 & Hin & Hz).
  - destruct Hin.
  - cbn [write_workers]. destruct (output_size w =? 0) eqn:E; [reflexivity|].
    apply IH. destruct Hin as [->|Hin].
    + apply Z.eqb_neq in E. contradiction.
    + exists w0. split; assumption.
Qed.

(** [write_file] writes [start] and then the first [output_size] bytes of
    every worker's buffer, in index order; it stops with a write diagnostic
    and the failure status at the first worker whose [output_size] is 0,
    leaving in the file what it wrote until then. *)
Theorem write_file_outcome (workers : list Worker) (start : list byte) :
  ((forall w, In w workers -> output_size w <> 0) ->
   write_file workers start
   = {| exit_status := EXIT_SUCCESS; diagnostics := [];
        output_file := Some (start ++ concat (map block_record workers)) |})
  /\ (forall pre w post,
         workers = pre ++ w :: post ->
         (forall w', In w' pre -> output_size w' <> 0) ->
         output_size w = 0 ->
         write_file workers start
         = {| exit_status := EXIT_FAILURE; diagnostics := [FailedToWrite];
              output_file := Some (start ++ concat (map block_record pre)) |}).
Proof.
  split.
  - apply write_workers_ok.
  - intros pre w post -> Hpre Hw. apply write_workers_zero; assumption.
Qed.

(** Of three workers with two, zero and one byte to write, the first alone
    reaches the file. *)
Lemma write_file_outcome_witness :
  write_file workers_with_gap [Byte.x2a]
  = {| exit_status := EXIT_FAILURE; diagnostics := [FailedToWrite];
       output_file := Some [Byte.x2a; Byte.x61; Byte.x62] |}
  /\ write_file [written_worker [Byte.x61; Byte.x62]] [Byte.x2a]
     = {| exit_status := EXIT_SUCCESS; diagnostics := [];
          output_file := Some [Byte.x2a; Byte.x61; Byte.x62] |}.
Proof.
  split.
  - apply (proj2 (write_file_outcome workers_with_gap [Byte.x2a])
             [written_worker [Byte.x61; Byte.x62]] (written_worker [])
             [written_worker [Byte.x63]] eq_refl).
    + intros w' [<-|[]]. vm_compute. discriminate.
    + reflexivity.
  - apply (proj1 (write_file_outcome [written_worker [Byte.x61; Byte.x62]]
                    [Byte.x2a])).
    intros w' [<-|[]]. vm_compute. discriminate.
Defined.

(** ** Blocks of [decompress_file] *)

Section DecompressBlocks.
Context {zlib : Zlib}.
Variable hardware_concurrency : Z.

Lemma perform_decompression_output_size w :
  output_size (perform_decompression w) = output_size w.
Proof.
  unfold perform_decompression.
  destruct (zlib_inflate _ _ _) as [[|] produced]; reflexivity.
Qed.

Lemma prepare_output_size w :
  output_size (prepare hardware_concurrency w) = output_size w.
Proof. unfold prepare. destruct (_ <=? _); reflexivity. Qed.

(** The allocation loop of [decompress_file] returns the located workers,
    and only when every offset passes the check. *)
Lemma decompress_allocation_inv c n workers :
  allocate (decompress_worker c) 0 n = inr workers ->
  (forall i, (i < n)%nat -> header_block_offsets c i + 4 <= size c)
  /\ workers = map (located_worker c) (seq 0 n).
Proof.
  intros Hall.
  assert (Hchecks : forall i, (i < n)%nat ->
                      header_block_offsets c i + 4 <= size c).
  { intros i Hi. pose proof (allocate_length _ _ _ _ Hall) as Hlen.
    destruct (nth_error workers i) as [w|] eqn:E.
    - pose proof (allocate_nth _ _ _ _ _ _ Hall E) as Hw. simpl in Hw.
      destruct (Z_lt_le_dec (size c) (header_block_offsets c i + 4))
        as [L|L]; [|exact L].
      rewrite decompress_worker_error in Hw by exact L. discriminate.
    - apply nth_error_None in E. lia. }
  split; [exact Hchecks|].
  rewrite (allocate_map (decompress_worker c) (located_worker c) 0 n) in Hall.
  - congruence.
  - intros k Hk. simpl. apply decompress_worker_ok. apply Hchecks. exact Hk.
Qed.
End DecompressBlocks.

(** A container one of whose blocks declares an uncompressed size of 0 is
    never decompressed with success: when no other error comes first,
    [write_file] stops at the block's empty write. *)
Theorem decompress_file_empty_block
    (zlib : Zlib) (hardware_concurrency : Z) (c : list byte) :
  sizeof_CompressedMapHeader <= size c ->
  1 <= header_block_count c <= 65535 ->
  (exists i, (i < Z.to_nat (header_block_count c))%nat
             /\ load_uint32_t (advance c (header_block_offsets c i)) = 0) ->
  exit_status (decompress_file hardware_concurrency c) = EXIT_FAILURE.
Proof.
  intros Hsize Hcount (i & Hi & Hzero).
  rewrite decompress_file_allocates by assumption.
  destruct (allocate _ _ _) as [d|workers] eqn:Hall; [reflexivity|].
  apply decompress_allocation_inv in Hall. destruct Hall as [_ ->].
  cbv zeta. destruct (existsb failure _); [reflexivity|].
  unfold write_file. apply write_workers_exit.
  exists (perform_decompression
            (prepare hardware_concurrency (located_worker c i))).
  split.
  - rewrite perform_job_map, map_map.
    apply (in_map (fun i => perform_decompression
                              (prepare hardware_concurrency
                                       (located_worker c i)))).
    apply in_seq. lia.
  - rewrite perform_decompression_output_size, prepare_output_size.
    exact Hzero.
Qed.

(** The block of [zero_block_container] inflates to nothing, and the run
    fails after the output file was created. *)
Lemma decompress_file_empty_block_witness :
  @decompress_file Stored 4 zero_block_container
  = {| exit_status := EXIT_FAILURE; diagnostics := [FailedToWrite];
       output_file := Some [] |}.
Proof.
  pose proof (decompress_file_empty_block Stored 4 zero_block_container
                ltac:(vm_compute; discriminate)
                ltac:(split; vm_compute; discriminate)) as H.
  assert (Hexit : exit_status (@decompress_file Stored 4 zero_block_container)
                  = EXIT_FAILURE).
  { apply H. exists 0%nat. split; [vm_compute; lia | vm_compute; reflexivity]. }
  apply Run_eq; [exact Hexit | vm_compute; reflexivity | vm_compute; reflexivity].
Defined.

Lemma zero_size_dec (workers : list Worker) :
  (forall w, In w workers -> output_size w <> 0)
  \/ exists w, In w workers /\ output_size w = 0.
Proof.
  induction workers as [|w ws [IH|(w0 & Hin & Hz)]].
  - left. intros w [].
  - destruct (Z.eq_dec (output_size w) 0) as [E|E].
    + right. exists w. split; [left; reflexivity | exact E].
    + left. intros w' [<-|Hw']; [exact E | apply IH; exact Hw'].
  - right. exists w0. split; [right; exact Hin | exact Hz].
Qed.

(** Whatever the codec reports, the buffer of a decompression job keeps the
    size it was allocated with. *)
Lemma perform_decompression_buffer
    {zlib : Zlib} {contract : ZlibContract zlib} w :
  0 <= output_size w < 2 ^ 32 ->
  size (output w) = output_size w ->
  size (block_record (perform_decompression w)) = output_size w.
Proof.
  intros Hcap Hbuf. unfold block_record.
  rewrite perform_decompression_output_size.
  unfold perform_decompression.
  rewrite (uInt_small (output_size w)) by exact Hcap.
  pose proof (inflate_fits (input w) (uInt (input_size w)) (output_size w)
                ltac:(lia)) as Hfit.
  destruct (zlib_inflate _ _ _) as [ok produced]. cbn [snd] in Hfit.
  assert (Hout : size (write_at (output w) 0 produced) = output_size w).
  { unfold write_at. cbn [firstn app Nat.add].
    rewrite size_app, size_skipn. unfold size in *. lia. }
  destruct ok; cbn [output unlock set_output set_failure];
    rewrite size_firstn; lia.
Qed.

(** The file written by a successful [decompress_file] is as long as the
    size prefixes of the blocks say, whatever the streams hold. *)
Theorem decompress_file_output_size
    (zlib : Zlib) (contract : ZlibContract zlib)
    (hardware_concurrency : Z) (c : list byte) :
  exit_status (decompress_file hardware_concurrency c) = EXIT_SUCCESS ->
  exists out,
    output_file (decompress_file hardware_concurrency c) = Some out
    /\ size out
       = total (map (fun i =>
                       load_uint32_t (advance c (header_block_offsets c i)))
                    (seq 0 (Z.to_nat (header_block_count c)))).
Proof.
  intros Hexit.
  destruct (Z_lt_le_dec (size c) sizeof_CompressedMapHeader) as [Hshort|Hsize].
  { rewrite decompress_file_short in Hexit by exact Hshort. discriminate. }
  destruct (Z.eq_dec (header_block_count c) 0) as [Hzero|Hnonzero].
  { rewrite decompress_file_zero_blocks in Hexit by assumption.
    discriminate. }
  destruct (Z_lt_le_dec MAX_BLOCKS (header_block_count c)) as [Hmany|Hmax].
  { rewrite decompress_file_too_many_blocks in Hexit by assumption.
    discriminate. }
  pose proof (load_uint32_t_range c) as Hrange.
  fold (header_block_count c) in Hrange.
  assert (Hcount : 1 <= header_block_count c <= 65535)
    by (unfold MAX_BLOCKS in Hmax; lia).
  rewrite decompress_file_allocates in Hexit |- * by assumption.
  destruct (allocate _ _ _) as [d|workers] eqn:Hall; [discriminate|].
  apply decompress_allocation_inv in Hall. destruct Hall as [_ ->].
  cbv zeta in Hexit |- *.
  destruct (existsb failure _); [discriminate|].
  unfold write_file in Hexit |- *.
  destruct (zero_size_dec
              (perform_job hardware_concurrency perform_decompression
                 (map (located_worker c)
                      (seq 0 (Z.to_nat (header_block_count c))))))
    as [Hnz|Hz].
  2:{ rewrite (write_workers_exit _ _ Hz) in Hexit. discriminate. }
  rewrite write_workers_ok by exact Hnz. cbn [output_file app].
  eexists. split; [reflexivity|].
  rewrite size_concat, perform_job_map, !map_map. f_equal.
  apply map_ext. intros i.
  rewrite perform_decompression_buffer.
  - rewrite prepare_output_size. reflexivity.
  - rewrite prepare_output_size. apply load_uint32_t_range.
  - unfold prepare, located_worker.
    pose proof (load_uint32_t_range
                  (advance c (header_block_offsets c i))) as R.
    destruct (_ <=? _); cbn [output output_size lock set_started];
      unfold make_unique; rewrite size_repeat; lia.
Qed.

(** The container of five bytes declares five bytes. *)
Lemma decompress_file_output_size_witness :
  exists out,
    output_file (@decompress_file Stored 4 five_bytes_container) = Some out
    /\ size out = 5.
Proof.
  destruct (decompress_file_output_size Stored Stored_contract 4
              five_bytes_container ltac:(vm_compute; reflexivity))
    as (out & Hout & Hsize).
  exists out. split; [exact Hout|].
  rewrite Hsize. vm_compute. reflexivity.
Defined.

(** ** The guards of [compress_file] *)

Lemma allocate_error_origin setup i n d :
  allocate setup i n = inl d ->
  exists k, (k < n)%nat /\ setup (i + k)%nat = inl d.
Proof.
  revert i. induction n as [|n IH]; intros i H; simpl in H; [discriminate|].
  destruct (setup i) as [d0|w0] eqn:E0.
  - injection H as <-. exists 0%nat. rewrite Nat.add_0_r. split; [lia|exact E0].
  - destruct (allocate setup (S i) n) as [d1|ws] eqn:E1; [|discriminate].
    injection H as <-. destruct (IH (S i) E1) as (k & Hk & Hd).
    exists (S k). split; [lia|].
    replace (i + S k)%nat with (S i + k)%nat by lia. exact Hd.
Qed.

Lemma compress_worker_diagnostic f i d :
  compress_worker f i = inl d -> exists o s, d = InvalidOffset i o s.
Proof.
  unfold compress_worker. destruct (_ <? _); [|discriminate].
  intros H. injection H as <-. eauto.
Qed.

Lemma existsb_failure_reported message workers :
  existsb failure workers = true ->
  report_failures message 0 workers <> [].
Proof.
  intros H. apply existsb_failure in H. destruct H as (j & w & Hj & Hf).
  assert (Hin : In (message j) (report_failures message 0 workers)).
  { apply report_failures_In. exists j, w. auto. }
  intros E. rewrite E in Hin. destruct Hin.
Qed.

(** [compress_file] refuses, before it sets up any worker, exactly the files
    of more than 65535 chunks: above 65535 * 131072 bytes it ends with the
    block-limit diagnostic and no output file, and up to that size it never
    prints that diagnostic. *)
Theorem compress_file_block_limit
    (zlib : Zlib) (hardware_concurrency : Z) (contents : list byte) :
  size contents < 2 ^ 64 ->
  (65535 * 131072 < size contents ->
   compress_file hardware_concurrency contents
   = {| exit_status := EXIT_FAILURE;
        diagnostics :=
          [MaximumBlocksExceeded ((size contents + 131071) / 131072)];
        output_file := None |})
  /\ (size contents <= 65535 * 131072 ->
      forall n,
        ~ In (MaximumBlocksExceeded n)
             (diagnostics (compress_file hardware_concurrency contents))).
Proof.
  intros Hsize. split.
  - intros Hbig. apply compress_file_too_many_blocks; [exact Hsize|].
    assert (65536 <= (size contents + 131071) / 131072); [|lia].
    apply Z.div_le_lower_bound; lia.
  - intros Hsmall n Hin.
    assert (Hcount : (size contents + 131071) / 131072 <= 65535).
    { assert ((size contents + 131071) / 131072 < 65536); [|lia].
      apply Z.div_lt_upper_bound; lia. }
    rewrite compress_file_allocates in Hin by assumption.
    destruct (allocate _ _ _) as [d|workers] eqn:Hall.
    + destruct Hin as [Hd|[]]. subst d.
      apply allocate_error_origin in Hall. destruct Hall as (k & _ & Hk).
      apply compress_worker_diagnostic in Hk.
      destruct Hk as (o & s & Hk). discriminate.
    + cbv zeta in Hin. destruct (existsb failure _).
      * apply report_failures_In in Hin.
        destruct Hin as (k & w & _ & _ & Hd). discriminate.
      * destruct (set_offsets _ _) as [d|offsets] eqn:Hoff.
        -- destruct Hin as [Hd|[]]. subst d.
           revert Hoff. generalize sizeof_CompressedMapHeader.
           induction (perform_job hardware_concurrency perform_compression
                        workers) as [|w ws IH]; intros start Hoff;
             simpl in Hoff; [discriminate|].
           destruct (_ <? start); [discriminate|].
           destruct (set_offsets _ ws) as [d|os] eqn:E; [|discriminate].
           injection Hoff as ->. apply (IH _ E).
        -- apply write_workers_diagnostics in Hin. discriminate.
Qed.

Lemma size_oversized_file : size oversized_file = 8589803521.
Proof. unfold oversized_file. rewrite size_repeat. apply Z2Nat.id. lia. Qed.

(** A file one byte above the limit is refused; a file of five bytes is
    not. *)
Lemma compress_file_block_limit_witness :
  @compress_file Stored 4 oversized_file
  = {| exit_status := EXIT_FAILURE;
       diagnostics :=
         [MaximumBlocksExceeded ((size oversized_file + 131071) / 131072)];
       output_file := None |}
  /\ (size oversized_file + 131071) / 131072 = 65536
  /\ ~ In (MaximumBlocksExceeded 1)
          (diagnostics (@compress_file Stored 4 five_bytes)).
Proof.
  pose proof size_oversized_file as Hsize.
  split; [|split].
  - apply (proj1 (compress_file_block_limit Stored 4 oversized_file
                    ltac:(rewrite Hsize; reflexivity))).
    rewrite Hsize. reflexivity.
  - rewrite Hsize. reflexivity.
  - apply (proj2 (compress_file_block_limit Stored 4 five_bytes
                    ltac:(reflexivity))).
    vm_compute. discriminate.
Defined.

(** [compress_file] writes the whole container and returns success, or
    writes no file at all and returns failure with a diagnostic. *)
Theorem compress_file_all_or_nothing
    (zlib : Zlib) (contract : ZlibContract zlib)
    (hardware_concurrency : Z) (contents : list byte) :
  size contents < 2 ^ 64 ->
  compress_file hardware_concurrency contents
  = {| exit_status := EXIT_SUCCESS; diagnostics := [];
       output_file := Some (container contents) |}
  \/ (exit_status (compress_file hardware_concurrency contents) = EXIT_FAILURE
      /\ output_file (compress_file hardware_concurrency contents) = None
      /\ diagnostics (compress_file hardware_concurrency contents) <> []).
Proof.
  intros Hsize.
  destruct (Z_le_gt_dec ((size contents + 131071) / 131072) 65535)
    as [Hcount|Hcount].
  2:{ right. rewrite compress_file_too_many_blocks by lia.
      repeat split. discriminate. }
  destruct (allocate (compress_worker contents) 0
              (Z.to_nat ((size contents + 131071) / 131072)))
    as [d|workers] eqn:Hall.
  { right. rewrite compress_file_allocates, Hall by assumption.
    repeat split. discriminate. }
  pose proof (compress_allocation_checks contents workers Hcount Hall)
    as Hchecks.
  destruct (forallb (fun i => fst (deflated contents i))
              (seq 0 (Z.to_nat ((size contents + 131071) / 131072))))
    eqn:Hforall.
  - assert (Hok : forall i,
              (i < Z.to_nat ((size contents + 131071) / 131072))%nat ->
              fst (deflated contents i) = true).
    { intros i Hi. rewrite forallb_forall in Hforall. apply Hforall.
      apply in_seq. lia. }
    destruct (compress_file_to_offsets hardware_concurrency contents Hsize
                Hcount Hchecks Hok) as [Hfit Hover].
    destruct (offsets_fit_dec
                (offsets_from sizeof_CompressedMapHeader
                              (map size (records contents)))) as [F|F].
    + left. apply Hfit. exact F.
    + right. destruct (Hover F) as (over & _ & _ & ->).
      repeat split. discriminate.
  - right. rewrite compress_file_allocates by assumption.
    rewrite compress_allocation_ok by assumption. cbv zeta.
    pose proof (compress_jobs_failure hardware_concurrency contents Hchecks)
      as Hfail.
    rewrite Hforall in Hfail. cbn [negb] in Hfail. rewrite Hfail.
    cbn [fail exit_status output_file diagnostics].
    split; [reflexivity|]. split; [reflexivity|].
    apply existsb_failure_reported. exact Hfail.
Qed.

(** Five bytes give a container; one byte gives a diagnostic and no file. *)
Lemma compress_file_all_or_nothing_witness :
  (@compress_file Stored 4 five_bytes
   = {| exit_status := EXIT_SUCCESS; diagnostics := [];
        output_file := Some (@container Stored five_bytes) |}
   \/ (exit_status (@compress_file Stored 4 five_bytes) = EXIT_FAILURE
       /\ output_file (@compress_file Stored 4 five_bytes) = None
       /\ diagnostics (@compress_file Stored 4 five_bytes) <> []))
  /\ exit_status (@compress_file Stored 4 five_bytes) = EXIT_SUCCESS
  /\ exit_status (@compress_file Stored 4 [Byte.x2a]) = EXIT_FAILURE.
Proof.
  split; [|split].
  - apply (compress_file_all_or_nothing Stored Stored_contract 4 five_bytes).
    reflexivity.
  - vm_compute. reflexivity.
  - vm_compute. reflexivity.
Defined.

(** ** The chunks handed to the compression jobs *)

Lemma size_write_at_prefix (n : Z) (v : Z) :
  4 <= n ->
  size (write_at (make_unique n) 0 (store_uint32_t v)) = n.
Proof.
  intros Hn. unfold write_at, make_unique.
  rewrite firstn_O. cbn [app].
  rewrite size_app, size_store_uint32_t, size_skipn, size_repeat.
  assert (H4 : length (store_uint32_t v) = 4%nat) by apply length_le_split.
  rewrite H4. lia.
Qed.

Lemma load_write_at_prefix (buf : list byte) (v : Z) :
  load_uint32_t (write_at buf 0 (store_uint32_t v)) = uint32_t v.
Proof.
  unfold write_at. rewrite firstn_O. cbn [app].
  apply load_store_uint32_t.
Qed.

(** The allocation loop of [compress_file] cuts the file into the inputs of
    its workers: the first [input_size] bytes of the inputs, in order, are
    the file; every chunk has 4 to 131072 bytes; and every output buffer has
    room for twice the chunk after the 4-byte prefix, which holds the length
    of the chunk. *)
Theorem compress_file_chunks (contents : list byte) (workers : list Worker) :
  size contents < 2 ^ 64 ->
  (size contents + 131071) / 131072 <= 65535 ->
  allocate (compress_worker contents) 0
           (Z.to_nat ((size contents + 131071) / 131072)) = inr workers ->
  concat (map (fun w => firstn (Z.to_nat (input_size w)) (input w)) workers)
  = contents
  /\ Forall (fun w =>
               4 <= input_size w <= 131072
               /\ output_size w = 2 * input_size w + 4
               /\ size (output w) = output_size w
               /\ load_uint32_t (output w) = input_size w
               /\ offset w = sizeof_uint32_t)
            workers.
Proof.
  intros Hsize Hcount Hall.
  pose proof (compress_allocation_checks contents workers Hcount Hall)
    as Hchecks.
  rewrite (compress_allocation_ok contents Hsize Hcount Hchecks) in Hall.
  injection Hall as <-. split.
  - rewrite map_map. apply chunks_of_file.
  - apply Forall_forall. intros w Hw. apply in_map_iff in Hw.
    destruct Hw as (i & <- & Hi). apply in_seq in Hi.
    pose proof (chunk_size_range (size contents) i
                  (Hchecks i ltac:(lia))) as Hcs.
    unfold planned_worker. cbv zeta.
    cbn [input_size output_size output offset].
    split; [exact Hcs|]. split; [lia|].
    split; [apply size_write_at_prefix; lia|].
    split; [|reflexivity].
    rewrite load_write_at_prefix. apply uint32_t_small. lia.
Qed.

(** Five bytes make one chunk of five bytes. *)
Lemma compress_file_chunks_witness :
  allocate (compress_worker five_bytes) 0
           (Z.to_nat ((size five_bytes + 131071) / 131072))
  = inr [planned_worker five_bytes 0]
  /\ concat (map (fun w => firstn (Z.to_nat (input_size w)) (input w))
                 [planned_worker five_bytes 0])
     = five_bytes
  /\ Forall (fun w =>
               4 <= input_size w <= 131072
               /\ output_size w = 2 * input_size w + 4
               /\ size (output w) = output_size w
               /\ load_uint32_t (output w) = input_size w
               /\ offset w = sizeof_uint32_t)
            [planned_worker five_bytes 0].
Proof.
  assert (Hall : allocate (compress_worker five_bytes) 0
                   (Z.to_nat ((size five_bytes + 131071) / 131072))
                 = inr [planned_worker five_bytes 0])
    by (vm_compute; reflexivity).
  split; [exact Hall|].
  apply (compress_file_chunks five_bytes [planned_worker five_bytes 0]);
    [reflexivity | vm_compute; discriminate | exact Hall].
Defined.

(** ** The declared sizes of a written container *)

Lemma total_chunk_sizes (contents : list byte) :
  (forall i, (i < Z.to_nat ((size contents + 131071) / 131072))%nat ->
             Z.of_nat i * 131072 <= size contents) ->
  total (map (chunk_size (size contents))
             (seq 0 (Z.to_nat ((size contents + 131071) / 131072))))
  = size contents.
Proof.
  intros Hchecks.
  rewrite <- (chunks_of_file contents) at 3.
  rewrite size_concat, map_map. f_equal.
  apply map_ext_in. intros i Hi. apply in_seq in Hi.
  symmetry. apply size_chunk. apply Hchecks. lia.
Qed.

(** In the container a successful [compress_file] writes, the size prefixes
    found at the block offsets of the header are between 4 and 131072, equal
    131072 for every block but the last, and add up to the size of the
    input. *)
Theorem compress_file_declared_sizes
    (zlib : Zlib) (contract : ZlibContract zlib)
    (hardware_concurrency : Z) (contents out : list byte) :
  size contents < 2 ^ 64 ->
  exit_status (compress_file hardware_concurrency contents) = EXIT_SUCCESS ->
  output_file (compress_file hardware_concurrency contents) = Some out ->
  let declared i := load_uint32_t (advance out (header_block_offsets out i)) in
  let count := Z.to_nat (header_block_count out) in
  (forall i, (i < count)%nat -> 4 <= declared i <= 131072)
  /\ (forall i, (S i < count)%nat -> declared i = 131072)
  /\ total (map declared (seq 0 count)) = size contents.
Proof.
  intros Hsize Hexit Hout declared count.
  destruct (compress_file_success hardware_concurrency contents Hsize Hexit)
    as (Hcount & Hchecks & _ & Hfit & Hrun).
  rewrite Hrun in Hout. cbn [output_file] in Hout.
  assert (Hc : out = container contents) by congruence.
  assert (Hn : count = Z.to_nat ((size contents + 131071) / 131072)).
  { subst count. rewrite Hc, container_block_count by exact Hcount.
    reflexivity. }
  assert (Hdecl : forall i, (i < count)%nat ->
                            declared i = chunk_size (size contents) i).
  { intros i Hi. subst declared. cbv beta. rewrite Hc.
    rewrite container_from_offset;
      [|exact Hcount|exact Hfit|rewrite length_records; lia].
    rewrite load_store_uint32_t. apply uint32_t_small.
    pose proof (chunk_size_range (size contents) i
                  (Hchecks i ltac:(lia))). lia. }
  split; [|split].
  - intros i Hi. rewrite (Hdecl i Hi).
    apply chunk_size_range. apply Hchecks. lia.
  - intros i Hi. rewrite (Hdecl i ltac:(lia)).
    pose proof (Hchecks (S i) ltac:(lia)) as Hnext.
    unfold chunk_size, CHUNK_SIZE. lia.
  - transitivity (total (map (chunk_size (size contents)) (seq 0 count))).
    + f_equal. apply map_ext_in. intros i Hi.
      apply in_seq in Hi. apply Hdecl. lia.
    + rewrite Hn. apply total_chunk_sizes.
      intros i Hi. pose proof (Hchecks i Hi). lia.
Qed.

(** The container of five bytes declares one block of five bytes. *)
Lemma compress_file_declared_sizes_witness :
  output_file (@compress_file Stored 4 five_bytes) = Some five_bytes_container
  /\ Z.to_nat (header_block_count five_bytes_container) = 1%nat
  /\ total (map (fun i =>
                   load_uint32_t
                     (advance five_bytes_container
                        (header_block_offsets five_bytes_container i)))
                (seq 0 (Z.to_nat (header_block_count five_bytes_container))))
     = size five_bytes.
Proof.
  assert (Hout : output_file (@compress_file Stored 4 five_bytes)
                 = Some five_bytes_container)
    by (apply holds_bytes_eq; vm_compute; reflexivity).
  split; [exact Hout|]. split; [vm_compute; reflexivity|].
  apply (compress_file_declared_sizes Stored Stored_contract 4
           five_bytes five_bytes_container
           ltac:(reflexivity) ltac:(vm_compute; reflexivity) Hout).
Defined.

(** ** A compression job and its buffer *)

Lemma size_write_at (buf data : list byte) (pos : nat) :
  Z.of_nat pos + size data <= size buf ->
  size (write_at buf pos data) = size buf.
Proof.
  intros H. unfold write_at.
  rewrite !size_app, size_firstn, size_skipn. unfold size in *. lia.
Qed.

Lemma firstn_write_at (buf data : list byte) (pos : nat) :
  (pos <= length buf)%nat ->
  firstn pos (write_at buf pos data) = firstn pos buf.
Proof.
  intros H. unfold write_at.
  rewrite firstn_app, firstn_firstn, Nat.min_id.
  rewrite length_firstn, Nat.min_l by exact H.
  rewrite Nat.sub_diag, firstn_O, app_nil_r. reflexivity.
Qed.

(** A compression job on a buffer of [output_size] bytes gives [deflate] the
    first [input_size] bytes of its input and the room behind the 4-byte
    prefix. It never writes outside the buffer and leaves the prefix as it
    was. When [deflate] fails the job is marked failed and its size is
    unchanged; otherwise its record is the prefix followed by the stream,
    and the new [output_size], 4 more than the stream, is within the
    buffer. *)
Theorem perform_compression_outcome
    (zlib : Zlib) (contract : ZlibContract zlib) (worker : Worker) :
  0 <= input_size worker < 2 ^ 32 ->
  4 <= output_size worker < 2 ^ 32 ->
  size (output worker) = output_size worker ->
  let done := perform_compression worker in
  let result :=
    zlib_deflate (firstn (Z.to_nat (input_size worker)) (input worker))
                 (output_size worker - 4) in
  mutex done = false
  /\ size (output done) = size (output worker)
  /\ firstn 4 (output done) = firstn 4 (output worker)
  /\ (fst result = false ->
      failure done = true /\ output_size done = output_size worker)
  /\ (fst result = true ->
      failure done = failure worker
      /\ output_size done = 4 + size (snd result)
      /\ output_size done <= output_size worker
      /\ block_record done = firstn 4 (output worker) ++ snd result).
Proof.
  intros Hin Hout Hbuf done result.
  subst done result. unfold perform_compression, sizeof_uint32_t.
  rewrite (uInt_small (input_size worker)) by exact Hin.
  rewrite (size_t_small (output_size worker - 4)) by lia.
  rewrite (uInt_small (output_size worker - 4)) by lia.
  pose proof (deflate_fits
                (firstn (Z.to_nat (input_size worker)) (input worker))
                (output_size worker - 4) ltac:(lia)) as Hfit.
  destruct (zlib_deflate _ _) as [ok produced]. cbn [fst snd] in *.
  pose proof (size_nonneg produced) as P0.
  assert (Hsize : size (write_at (output worker) (Z.to_nat 4) produced)
                  = size (output worker)).
  { apply size_write_at. lia. }
  assert (Hprefix : firstn 4 (write_at (output worker) (Z.to_nat 4) produced)
                    = firstn 4 (output worker)).
  { apply (firstn_write_at (output worker) produced 4).
    unfold size in *. lia. }
  destruct ok;
    cbn [mutex output output_size failure unlock set_output set_output_size
         set_failure].
  - rewrite size_t_small by lia.
    split; [reflexivity|]. split; [exact Hsize|]. split; [exact Hprefix|].
    split; [discriminate|]. intros _.
    split; [reflexivity|]. split; [lia|]. split; [lia|].
    unfold block_record.
    cbn [output output_size unlock set_output set_output_size].
    unfold write_at.
    assert (H4 : length (firstn (Z.to_nat 4) (output worker)) = 4%nat).
    { rewrite length_firstn. unfold size in *. lia. }
    rewrite firstn_app, H4.
    rewrite (firstn_all2 (firstn (Z.to_nat 4) (output worker)))
      by (rewrite H4; unfold size; lia).
    f_equal. rewrite firstn_app.
    replace (Z.to_nat (size produced + 4) - 4 - length produced)%nat
      with 0%nat by (unfold size; lia).
    rewrite firstn_O, app_nil_r.
    apply firstn_all2. unfold size. lia.
  - split; [reflexivity|]. split; [exact Hsize|]. split; [exact Hprefix|].
    split; [|discriminate]. intros _. split; reflexivity.
Qed.

(** The job of the only chunk of a five-byte file: the reference codec
    stores the chunk, and the record has 13 bytes of the 14 allocated. *)
Lemma perform_compression_outcome_witness :
  mutex (@perform_compression Stored (planned_worker five_bytes 0)) = false
  /\ output_size (planned_worker five_bytes 0) = 14
  /\ output_size (@perform_compression Stored (planned_worker five_bytes 0))
     = 13
  /\ block_record (@perform_compression Stored (planned_worker five_bytes 0))
     = store_uint32_t 5 ++ store_uint32_t 5 ++ five_bytes.
Proof.
  pose proof (perform_compression_outcome Stored Stored_contract
                (planned_worker five_bytes 0)
                ltac:(vm_compute; split; [discriminate|reflexivity])
                ltac:(vm_compute; split; [discriminate|reflexivity])
                ltac:(vm_compute; reflexivity)) as H.
  cbv zeta in H. destruct H as (Hmutex & _ & _ & _ & Hok).
  destruct (Hok ltac:(vm_compute; reflexivity)) as (_ & Hsize & _ & Hrecord).
  split; [exact Hmutex|]. split; [vm_compute; reflexivity|].
  split.
  - rewrite Hsize. vm_compute. reflexivity.
  - rewrite Hrecord. vm_compute. reflexivity.
Defined.

(** ** The number of threads *)

Section ThreadCount.
Variable f g : Worker -> Worker.
Hypothesis same_failure : forall w, failure (f w) = failure (g w).
Hypothesis same_output : forall w, output (f w) = output (g w).
Hypothesis same_output_size : forall w, output_size (f w) = output_size (g w).

Lemma existsb_failure_map ws :
  existsb failure (map f ws) = existsb failure (map g ws).
Proof.
  induction ws as [|w ws IH]; [reflexivity|].
  cbn [map existsb]. rewrite same_failure, IH. reflexivity.
Qed.

Lemma report_failures_map message i ws :
  report_failures message i (map f ws) = report_failures message i (map g ws).
Proof.
  revert i. induction ws as [|w ws IH]; intros i; [reflexivity|].
  cbn [map report_failures]. rewrite same_failure, IH. reflexivity.
Qed.

Lemma set_offsets_map current_offset ws :
  set_offsets current_offset (map f ws) = set_offsets current_offset (map g ws).
Proof.
  revert current_offset. induction ws as [|w ws IH]; intros o; [reflexivity|].
  cbn [map set_offsets]. rewrite same_output_size, IH. reflexivity.
Qed.

Lemma write_workers_map ws file :
  write_workers (map f ws) file = write_workers (map g ws) file.
Proof.
  revert file. induction ws as [|w ws IH]; intros file; [reflexivity|].
  cbn [map write_workers]. rewrite same_output_size, same_output, IH.
  reflexivity.
Qed.
End ThreadCount.

Lemma perform_compression_prepare {zlib : Zlib} a b w :
  failure (perform_compression (prepare a w))
  = failure (perform_compression (prepare b w))
  /\ output (perform_compression (prepare a w))
     = output (perform_compression (prepare b w))
  /\ output_size (perform_compression (prepare a w))
     = output_size (perform_compression (prepare b w)).
Proof.
  unfold perform_compression, prepare.
  destruct (a <=? 1), (b <=? 1);
    cbn [input input_size output output_size failure lock set_started];
    destruct (zlib_deflate _ _) as [[|] produced];
    repeat split; reflexivity.
Qed.

Lemma perform_decompression_prepare {zlib : Zlib} a b w :
  failure (perform_decompression (prepare a w))
  = failure (perform_decompression (prepare b w))
  /\ output (perform_decompression (prepare a w))
     = output (perform_decompression (prepare b w))
  /\ output_size (perform_decompression (prepare a w))
     = output_size (perform_decompression (prepare b w)).
Proof.
  unfold perform_decompression, prepare.
  destruct (a <=? 1), (b <=? 1);
    cbn [input input_size output output_size failure lock set_started];
    destruct (zlib_inflate _ _ _) as [[|] produced];
    repeat split; reflexivity.
Qed.

(** The threaded dispatch leaves the workers as the sequential loop does:
    for the two codec jobs, every run of the dispatch loop that leaves the
    loop, in whatever order the threads were started and came to their
    ends, holds workers with the failure flags, buffers and sizes that the
    [for] loop of [perform_job] gives; what the drivers print, the offsets
    they set and the file they write are then the same. *)
Theorem threaded_dispatch_outcome
    (zlib : Zlib) (hardware_concurrency threads : Z)
    (function : Worker -> Worker) (workers : list Worker) (s : Sched) :
  1 < hardware_concurrency ->
  threads <= 1 ->
  function = perform_compression \/ function = perform_decompression ->
  (forall j w, nth_error workers j = Some w -> started w = false) ->
  reachable hardware_concurrency function workers s ->
  phase s = Exited ->
  let sequential := perform_job threads function workers in
  map failure (jobs s) = map failure sequential
  /\ map output (jobs s) = map output sequential
  /\ map output_size (jobs s) = map output_size sequential
  /\ (forall message,
         report_failures message 0 (jobs s)
         = report_failures message 0 sequential)
  /\ (forall current_offset,
         set_offsets current_offset (jobs s)
         = set_offsets current_offset sequential)
  /\ (forall start, write_file (jobs s) start = write_file sequential start).
Proof.
  intros Hthreaded Hsequential Hfunction Hfresh Hreach Hphase sequential.
  assert (Hjob : (forall w, mutex (function w) = false)
                 /\ (forall w, started (function w) = started w)
                 /\ forall w,
                      failure (function (set_started (lock w)))
                      = failure (function (lock w))
                      /\ output (function (set_started (lock w)))
                         = output (function (lock w))
                      /\ output_size (function (set_started (lock w)))
                         = output_size (function (lock w))).
  { destruct Hfunction as [-> | ->].
    - split; [apply perform_compression_mutex|].
      split; [apply perform_compression_started|].
      intros w. apply (perform_compression_prepare 2 1 w).
    - split; [apply perform_decompression_mutex|].
      split; [apply perform_decompression_started|].
      intros w. apply (perform_decompression_prepare 2 1 w). }
  destruct Hjob as (Hmutex & Hstarted & Hsame).
  assert (Hjobs : jobs s
                  = map (fun w => function (set_started (lock w))) workers).
  { apply (dispatch_loop_result hardware_concurrency function workers
             Hthreaded Hmutex Hstarted Hfresh s Hreach Hphase). }
  assert (Hseq : sequential = map (fun w => function (lock w)) workers).
  { subst sequential. rewrite perform_job_map. apply map_ext. intros w.
    unfold prepare. destruct (Z.leb_spec threads 1); [reflexivity|lia]. }
  rewrite Hjobs, Hseq. rewrite !map_map.
  split; [apply map_ext; intros w; apply Hsame|].
  split; [apply map_ext; intros w; apply Hsame|].
  split; [apply map_ext; intros w; apply Hsame|].
  split; [|split].
  - intros message.
    apply (report_failures_map _ _ (fun w => proj1 (Hsame w))).
  - intros current_offset.
    apply (set_offsets_map _ _ (fun w => proj2 (proj2 (Hsame w)))).
  - intros start. unfold write_file.
    apply (write_workers_map _ _
             (fun w => proj1 (proj2 (Hsame w)))
             (fun w => proj2 (proj2 (Hsame w)))).
Qed.

Lemma exited_state_reachable :
  reachable 4 (@perform_decompression Stored) [fresh_job] exited_state.
Proof.
  set (done := @perform_decompression Stored (set_started (lock fresh_job))).
  eapply reach_step; [|apply (step_break _ _ [done])].
  eapply reach_step; [|apply (step_counted _ _ [done] None 0)].
  eapply reach_step;
    [|apply (step_try_lock_ok _ _ [done] None 0 0 done eq_refl);
      apply perform_decompression_mutex].
  eapply reach_step; [|apply (step_next_worker _ _ [done])].
  eapply reach_step;
    [|apply (step_thread _ _ [set_started (lock fresh_job)] Polling 0
               (set_started (lock fresh_job)) eq_refl eq_refl eq_refl)].
  eapply reach_step;
    [|apply (step_launch _ _ [lock fresh_job] 0 0 (lock fresh_job) eq_refl);
      lia].
  eapply reach_step;
    [|apply (step_counted _ _ [lock fresh_job] (Some 0%nat) 0)].
  eapply reach_step;
    [|apply (step_try_lock_fail _ _ [lock fresh_job] (Some 0%nat) 0 0
               (lock fresh_job) eq_refl)].
  eapply reach_step; [apply reach_enter|].
  apply (step_next_worker _ _ [lock fresh_job]).
Qed.

(** One worker, dispatched to a thread and run to its end: the file written
    from it is the one the sequential loop gives. *)
Lemma threaded_dispatch_outcome_witness :
  reachable 4 (@perform_decompression Stored) [fresh_job] exited_state
  /\ write_file (jobs exited_state) []
     = write_file (perform_job 0 (@perform_decompression Stored) [fresh_job])
                  []
  /\ write_file (jobs exited_state) []
     = {| exit_status := EXIT_SUCCESS; diagnostics := [];
          output_file := Some [Byte.x61; Byte.x62] |}.
Proof.
  split; [exact exited_state_reachable|]. split.
  - apply (threaded_dispatch_outcome Stored 4 0
             (@perform_decompression Stored) [fresh_job] exited_state
             ltac:(lia) ltac:(lia) (or_intror eq_refl)).
    + intros [|[|j]] w Hw; simpl in Hw; try discriminate.
      injection Hw as <-. reflexivity.
    + exact exited_state_reachable.
    + reflexivity.
  - vm_compute. reflexivity.
Defined.

(** ** The dispatch loop comes to its end *)

Section DispatchLoopProgress.
Variable max_threads : Z.
Variable function : Worker -> Worker.
Variable workers : list Worker.
Hypothesis threaded : 1 < max_threads.
Hypothesis function_mutex : forall w, mutex (function w) = false.
Hypothesis function_started : forall w, started (function w) = started w.
Hypothesis workers_fresh :
  forall j w, nth_error workers j = Some w -> started w = false.

Lemma continues_trans s s' s'' :
  continues max_threads function s s' ->
  continues max_threads function s' s'' ->
  continues max_threads function s s''.
Proof.
  induction 1 as [|s e s1 s2 Hstep _ IH]; intros H; [exact H|].
  apply (continues_step _ _ s e s1 s'' Hstep). apply IH. exact H.
Qed.

Lemma continues_one s e s' :
  step max_threads function s e s' -> continues max_threads function s s'.
Proof.
  intros H. apply (continues_step _ _ s e s' s' H). apply continues_here.
Qed.

Lemma continues_reachable s s' :
  continues max_threads function s s' ->
  reachable max_threads function workers s ->
  reachable max_threads function workers s'.
Proof.
  induction 1 as [|s e s1 s2 Hstep _ IH]; intros H; [exact H|].
  apply IH. apply (reach_step _ _ _ s e s1 H Hstep).
Qed.

(** The threads that run come to their ends: afterwards every worker is
    free or was not started. *)
Lemma threads_complete post : forall pre ph,
  (forall w, In w pre -> mutex w = false \/ started w = false) ->
  exists ws,
    continues max_threads function (mkSched (pre ++ post) ph) (mkSched ws ph)
    /\ forall w, In w ws -> mutex w = false \/ started w = false.
Proof.
  induction post as [|w post IH]; intros pre ph Hpre.
  - exists pre. rewrite app_nil_r. split; [apply continues_here|exact Hpre].
  - destruct (mutex w) eqn:Hm; [destruct (started w) eqn:Hs|].
    + destruct (IH (pre ++ [function w]) ph) as (ws & Hrun & Hidle).
      { intros w' Hw'. apply in_app_or in Hw'. destruct Hw' as [Hw'|[<-|[]]].
        - apply Hpre. exact Hw'.
        - left. apply function_mutex. }
      exists ws. split; [|exact Hidle].
      rewrite <- app_assoc in Hrun. cbn [app] in Hrun.
      eapply continues_step; [|exact Hrun].
      rewrite <- (put_middle pre post w (function w)).
      apply (step_thread _ _ _ ph (length pre) w);
        [apply nth_error_middle | exact Hs | exact Hm].
    + destruct (IH (pre ++ [w]) ph) as (ws & Hrun & Hidle).
      { intros w' Hw'. apply in_app_or in Hw'. destruct Hw' as [Hw'|[<-|[]]].
        - apply Hpre. exact Hw'.
        - right. exact Hs. }
      exists ws. rewrite <- app_assoc in Hrun. split; assumption.
    + destruct (IH (pre ++ [w]) ph) as (ws & Hrun & Hidle).
      { intros w' Hw'. apply in_app_or in Hw'. destruct Hw' as [Hw'|[<-|[]]].
        - apply Hpre. exact Hw'.
        - left. exact Hm. }
      exists ws. rewrite <- app_assoc in Hrun. split; assumption.
Qed.

(** [busy_workers] comes to the end of the workers, whatever it counts. *)
Lemma scan_completes ws next k : forall i count,
  (i + k = length ws)%nat ->
  exists count',
    continues max_threads function
              (mkSched ws (Counting next i count))
              (mkSched ws (Deciding next count')).
Proof.
  induction k as [|k IH]; intros i count Hi.
  - exists count. apply (continues_one _ Silent).
    replace i with (length ws) by lia. apply step_counted.
  - destruct (nth_error ws i) as [w|] eqn:Ew.
    + destruct (IH (S i) (count + Z.b2z (started w)) ltac:(lia))
        as (count' & Hrun).
      exists count'. eapply continues_step; [|exact Hrun].
      apply (step_try_lock_fail _ _ ws next i count w Ew).
    + apply nth_error_None in Ew. lia.
Qed.

(** With no thread running, [busy_workers] can count zero. *)
Lemma scan_idle ws next k : forall i,
  (forall w, In w ws -> mutex w = false \/ started w = false) ->
  (i + k = length ws)%nat ->
  continues max_threads function
            (mkSched ws (Counting next i 0)) (mkSched ws (Deciding next 0)).
Proof.
  induction k as [|k IH]; intros i Hidle Hi.
  - apply (continues_one _ Silent).
    replace i with (length ws) by lia. apply step_counted.
  - destruct (nth_error ws i) as [w|] eqn:Ew.
    + eapply continues_step; [|apply (IH (S i) Hidle); lia].
      destruct (Hidle w (nth_error_In _ _ Ew)) as [Hfree|Hfresh].
      * apply (step_try_lock_ok _ _ ws next i 0 w Ew Hfree).
      * pose proof (step_try_lock_fail max_threads function
                      ws next i 0 w Ew) as Hstep.
        rewrite Hfresh in Hstep. exact Hstep.
    + apply nth_error_None in Ew. lia.
Qed.

(** A worker that was not started holds its mutex. *)
Lemma pending_locked s j w :
  reachable max_threads function workers s ->
  nth_error (jobs s) j = Some w -> started w = false -> mutex w = true.
Proof.
  intros Hreach Hj Hs.
  destruct (reachable_invariant max_threads function workers threaded
              function_mutex function_started workers_fresh s Hreach)
    as (Hlen & Hstate & _ & _).
  destruct (nth_error workers j) as [w0|] eqn:E0.
  - destruct (Hstate j w0 w E0 Hj) as [->|[->| ->]].
    + reflexivity.
    + discriminate.
    + rewrite function_started in Hs. discriminate.
  - apply nth_error_None in E0.
    assert (j < length (jobs s))%nat by (apply nth_error_Some; congruence).
    lia.
Qed.

(** From the top of the loop with no thread running, the workers that were
    not started are started and run one after the other, and the loop is
    left. *)
Lemma polling_finishes post : forall pre,
  (forall w, In w pre -> mutex w = false /\ started w = true) ->
  (forall w, In w post -> mutex w = false \/ started w = false) ->
  reachable max_threads function workers (mkSched (pre ++ post) Polling) ->
  exists ws,
    continues max_threads function
              (mkSched (pre ++ post) Polling) (mkSched ws Exited).
Proof.
  induction post as [|w post IH]; intros pre Hpre Hpost Hreach.
  - rewrite app_nil_r. exists pre.
    assert (Hnone : next_worker pre = None).
    { rewrite <- (app_nil_r pre), next_worker_app; [reflexivity|].
      intros w Hw. apply Hpre. exact Hw. }
    eapply continues_step; [apply step_next_worker|]. rewrite Hnone.
    eapply continues_trans;
      [apply (scan_idle pre None (length pre) 0);
       [intros w Hw; left; apply Hpre; exact Hw | lia]|].
    apply (continues_one _ Silent). apply step_break.
  - destruct (started w) eqn:Hs.
    + destruct (IH (pre ++ [w])) as (ws & Hrun).
      * intros w' Hw'. apply in_app_or in Hw'. destruct Hw' as [Hw'|[<-|[]]].
        -- apply Hpre. exact Hw'.
        -- destruct (Hpost w (or_introl eq_refl)) as [Hm|Hf];
             [split; assumption | congruence].
      * intros w' Hw'. apply Hpost. right. exact Hw'.
      * rewrite <- app_assoc. exact Hreach.
      * exists ws. rewrite <- app_assoc in Hrun. exact Hrun.
    + assert (Hm : mutex w = true).
      { apply (pending_locked _ (length pre) w Hreach);
          [apply nth_error_middle | exact Hs]. }
      assert (Hnext : next_worker (pre ++ w :: post) = Some (length pre)).
      { rewrite next_worker_app by (intros w' Hw'; apply Hpre; exact Hw').
        cbn [next_worker]. rewrite Hs. cbn [option_map]. f_equal. lia. }
      assert (Hrun : continues max_threads function
                       (mkSched (pre ++ w :: post) Polling)
                       (mkSched ((pre ++ [function (set_started w)]) ++ post)
                                Polling)).
      { eapply continues_step; [apply step_next_worker|]. rewrite Hnext.
        eapply continues_trans;
          [apply (scan_idle _ _ (length (pre ++ w :: post)) 0);
           [|lia]|].
        { intros w' Hw'. apply in_app_or in Hw'. destruct Hw' as [Hw'|Hw'].
          - left. apply Hpre. exact Hw'.
          - apply Hpost. exact Hw'. }
        eapply continues_step;
          [apply (step_launch _ _ _ (length pre) 0 w);
           [apply nth_error_middle | lia]|].
        rewrite put_middle.
        apply (continues_one _ (Complete (length pre))).
        rewrite <- app_assoc. cbn [app].
        rewrite <- (put_middle pre post (set_started w)
                      (function (set_started w))).
        apply (step_thread _ _ _ Polling (length pre) (set_started w));
          [apply nth_error_middle | reflexivity | exact Hm]. }
      destruct (IH (pre ++ [function (set_started w)])) as (ws & Hend).
      * intros w' Hw'. apply in_app_or in Hw'. destruct Hw' as [Hw'|[<-|[]]].
        -- apply Hpre. exact Hw'.
        -- rewrite function_mutex, function_started. split; reflexivity.
      * intros w' Hw'. apply Hpost. right. exact Hw'.
      * apply (continues_reachable _ _ Hrun Hreach).
      * exists ws. apply (continues_trans _ _ _ Hrun Hend).
Qed.

(** From any state of the loop the top of the loop, or its end, is reached
    with no thread running. *)
Lemma loop_turns s :
  reachable max_threads function workers s ->
  exists ws ph,
    continues max_threads function s (mkSched ws ph)
    /\ (ph = Polling \/ ph = Exited)
    /\ forall w, In w ws -> mutex w = false \/ started w = false.
Proof.
  intros Hreach. destruct s as [ws0 ph0].
  destruct (threads_complete ws0 [] ph0) as (ws & Hrun & Hidle);
    [intros w []|].
  cbn [app] in Hrun.
  pose proof (continues_reachable _ _ Hrun Hreach) as Hreach1.
  assert (Hdecide : forall next count,
            reachable max_threads function workers
                      (mkSched ws (Deciding next count)) ->
            exists ws' ph',
              continues max_threads function
                        (mkSched ws (Deciding next count)) (mkSched ws' ph')
              /\ (ph' = Polling \/ ph' = Exited)
              /\ forall w, In w ws' -> mutex w = false \/ started w = false).
  { intros next count Hr.
    destruct (reachable_invariant max_threads function workers threaded
                function_mutex function_started workers_fresh _ Hr)
      as (_ & _ & _ & Hinv).
    cbn [jobs phase phase_invariant] in Hinv. destruct Hinv as (Hn & _).
    destruct next as [i|].
    - destruct (Z_lt_le_dec count max_threads) as [Hroom|Hfull].
      + destruct (next_worker_Some ws i (eq_sym Hn)) as [(w & Hw & Hs) _].
        destruct (threads_complete (put ws i (set_started w)) [] Polling)
          as (ws' & Hrun' & Hidle'); [intros w' []|].
        cbn [app] in Hrun'.
        exists ws', Polling. split; [|split; [left; reflexivity|exact Hidle']].
        eapply continues_step; [|exact Hrun'].
        apply (step_launch _ _ ws i count w Hw Hroom).
      + exists ws, Polling. split; [|split; [left; reflexivity|exact Hidle]].
        apply (continues_one _ Silent). apply step_sleep.
        * intros [_ H]. discriminate.
        * intros [_ H]. lia.
    - destruct (Z.eq_dec count 0) as [->|Hcount].
      + exists ws, Exited. split; [|split; [right; reflexivity|exact Hidle]].
        apply (continues_one _ Silent). apply step_break.
      + exists ws, Polling. split; [|split; [left; reflexivity|exact Hidle]].
        apply (continues_one _ Silent). apply step_sleep.
        * intros [H _]. contradiction.
        * intros [H _]. contradiction. }
  destruct ph0 as [|next i count|next count|].
  - exists ws, Polling. split; [exact Hrun|]. split; [left; reflexivity|].
    exact Hidle.
  - destruct (reachable_invariant max_threads function workers threaded
                function_mutex function_started workers_fresh _ Hreach1)
      as (_ & _ & _ & Hinv).
    cbn [jobs phase phase_invariant] in Hinv. destruct Hinv as (_ & Hi & _).
    destruct (scan_completes ws next (length ws - i) i count ltac:(lia))
      as (count' & Hscan).
    destruct (Hdecide next count'
                (continues_reachable _ _ Hscan Hreach1))
      as (ws' & ph' & Hrun' & Hph & Hidle').
    exists ws', ph'. split; [|split; assumption].
    apply (continues_trans _ _ _ Hrun). apply (continues_trans _ _ _ Hscan).
    exact Hrun'.
  - destruct (Hdecide next count Hreach1)
      as (ws' & ph' & Hrun' & Hph & Hidle').
    exists ws', ph'. split; [|split; assumption].
    apply (continues_trans _ _ _ Hrun). exact Hrun'.
  - exists ws, Exited. split; [exact Hrun|]. split; [right; reflexivity|].
    exact Hidle.
Qed.
End DispatchLoopProgress.

(** The dispatch loop of [perform_job] cannot get stuck: from every state it
    passes through, some continuation leaves the loop, and it does so with
    the workers [perform_job] returns. *)
Theorem dispatch_loop_no_deadlock
    (hardware_concurrency : Z) (function : Worker -> Worker)
    (workers : list Worker) (s : Sched) :
  1 < hardware_concurrency ->
  (forall w, mutex (function w) = false) ->
  (forall w, started (function w) = started w) ->
  (forall j w, nth_error workers j = Some w -> started w = false) ->
  reachable hardware_concurrency function workers s ->
  exists s',
    continues hardware_concurrency function s s'
    /\ phase s' = Exited
    /\ jobs s' = perform_job hardware_concurrency function workers.
Proof.
  intros Hthreaded Hmutex Hstarted Hfresh Hreach.
  assert (Hend : exists ws,
             continues hardware_concurrency function s (mkSched ws Exited)).
  { destruct (loop_turns hardware_concurrency function workers
                Hthreaded Hmutex Hstarted Hfresh s Hreach)
      as (ws & ph & Hrun & [-> | ->] & Hidle).
    - destruct (polling_finishes hardware_concurrency function workers
                  Hthreaded Hmutex Hstarted Hfresh ws [])
        as (ws' & Hrun').
      + intros w [].
      + exact Hidle.
      + apply (continues_reachable _ _ _ _ _ Hrun Hreach).
      + exists ws'.
        apply (continues_trans _ _ _ _ _ Hrun Hrun').
    - exists ws. exact Hrun. }
  destruct Hend as (ws & Hrun).
  exists (mkSched ws Exited). split; [exact Hrun|]. split; [reflexivity|].
  rewrite (dispatch_loop_result hardware_concurrency function workers
             Hthreaded Hmutex Hstarted Hfresh (mkSched ws Exited)
             (continues_reachable _ _ _ _ _ Hrun Hreach) eq_refl).
  rewrite perform_job_map. apply map_ext. intros w. unfold prepare.
  destruct (Z.leb_spec hardware_concurrency 1); [lia|reflexivity].
Qed.

(** The state after a worker was dispatched, with its thread running: the
    loop still comes to its end. *)
Lemma dispatch_loop_no_deadlock_witness :
  reachable 4 (@perform_decompression Stored) [fresh_job] dispatched_state
  /\ exists s',
       continues 4 (@perform_decompression Stored) dispatched_state s'
       /\ phase s' = Exited
       /\ jobs s' = perform_job 4 (@perform_decompression Stored) [fresh_job].
Proof.
  assert (Hreach : reachable 4 (@perform_decompression Stored) [fresh_job]
                             dispatched_state).
  { eapply reach_step;
      [|apply (step_launch _ _ [lock fresh_job] 0 0 (lock fresh_job) eq_refl);
        lia].
    eapply reach_step;
      [|apply (step_counted _ _ [lock fresh_job] (Some 0%nat) 0)].
    eapply reach_step;
      [|apply (step_try_lock_fail _ _ [lock fresh_job] (Some 0%nat) 0 0
                 (lock fresh_job) eq_refl)].
    eapply reach_step; [apply reach_enter|].
    apply (step_next_worker _ _ [lock fresh_job]). }
  split; [exact Hreach|].
  apply (dispatch_loop_no_deadlock 4 (@perform_decompression Stored)
           [fresh_job] dispatched_state ltac:(lia)
           (@perform_decompression_mutex Stored)
           (@perform_decompression_started Stored)).
  - intros [|[|j]] w Hw; simpl in Hw; try discriminate.
    injection Hw as <-. reflexivity.
  - exact Hreach.
Defined.

(** When the dispatch loop is left no thread is running: every worker has
    released its mutex, and no scheduler step or thread completion can
    follow, so [perform_job] returns with nothing still at work on the
    workers. *)
Theorem dispatch_loop_exit_quiescent
    (hardware_concurrency : Z) (function : Worker -> Worker)
    (workers : list Worker) (s : Sched) :
  1 < hardware_concurrency ->
  (forall w, mutex (function w) = false) ->
  (forall w, started (function w) = started w) ->
  (forall j w, nth_error workers j = Some w -> started w = false) ->
  reachable hardware_concurrency function workers s ->
  phase s = Exited ->
  (forall w, In w (jobs s) -> mutex w = false /\ started w = true)
  /\ busy_workers (jobs s) = 0
  /\ forall e s', ~ step hardware_concurrency function s e s'.
Proof.
  intros Hthreaded Hmutex Hstarted Hfresh Hreach Hphase.
  destruct (reachable_invariant hardware_concurrency function workers
              Hthreaded Hmutex Hstarted Hfresh s Hreach)
    as (_ & _ & _ & Hinv).
  rewrite Hphase in Hinv. cbn [phase_invariant] in Hinv.
  assert (Hfree : forall w, In w (jobs s) -> mutex w = false).
  { intros w Hw. apply In_nth_error in Hw. destruct Hw as [j Hj].
    apply (Hinv j w Hj). }
  split; [|split].
  - intros w Hw. split; [apply Hfree; exact Hw|].
    rewrite (dispatch_loop_result hardware_concurrency function workers
               Hthreaded Hmutex Hstarted Hfresh s Hreach Hphase) in Hw.
    apply in_map_iff in Hw. destruct Hw as (w0 & <- & _).
    rewrite Hstarted. reflexivity.
  - revert Hfree. generalize (jobs s). intros ws.
    induction ws as [|w ws IH]; intros Hfree; [reflexivity|].
    rewrite busy_workers_cons, (Hfree w (or_introl eq_refl)).
    rewrite IH by (intros w' Hw'; apply Hfree; right; exact Hw').
    reflexivity.
  - intros e s' Hstep. destruct s as [ws ph]. cbn [phase jobs] in *.
    subst ph. inversion Hstep as [ | | | | | | | ws' ph i w Hw Hs Hm]; subst.
    pose proof (Hfree w (nth_error_In _ _ Hw)) as Hf. congruence.
Qed.

(** One worker run to its end: the loop is left, and nothing follows. *)
Lemma dispatch_loop_exit_quiescent_witness :
  reachable 4 (@perform_decompression Stored) [fresh_job] exited_state
  /\ busy_workers (jobs exited_state) = 0
  /\ forall e s', ~ step 4 (@perform_decompression Stored) exited_state e s'.
Proof.
  assert (Hreach : reachable 4 (@perform_decompression Stored) [fresh_job]
                             exited_state).
  { set (done := @perform_decompression Stored (set_started (lock fresh_job))).
    eapply reach_step; [|apply (step_break _ _ [done])].
    eapply reach_step; [|apply (step_counted _ _ [done] None 0)].
    eapply reach_step;
      [|apply (step_try_lock_ok _ _ [done] None 0 0 done eq_refl);
        apply perform_decompression_mutex].
    eapply reach_step;
      [|apply (step_next_worker _ _ [done])].
    eapply reach_step;
      [|apply (step_thread _ _ [set_started (lock fresh_job)] Polling 0
                 (set_started (lock fresh_job)) eq_refl eq_refl eq_refl)].
    eapply reach_step;
      [|apply (step_launch _ _ [lock fresh_job] 0 0 (lock fresh_job) eq_refl);
        lia].
    eapply reach_step;
      [|apply (step_counted _ _ [lock fresh_job] (Some 0%nat) 0)].
    eapply reach_step;
      [|apply (step_try_lock_fail _ _ [lock fresh_job] (Some 0%nat) 0 0
                 (lock fresh_job) eq_refl)].
    eapply reach_step; [apply reach_enter|].
    apply (step_next_worker _ _ [lock fresh_job]). }
  split; [exact Hreach|].
  apply (dispatch_loop_exit_quiescent 4 (@perform_decompression Stored)
           [fresh_job] exited_state ltac:(lia)
           (@perform_decompression_mutex Stored)
           (@perform_decompression_started Stored)).
  - intros [|[|j]] w Hw; simpl in Hw; try discriminate.
    injection Hw as <-. reflexivity.
  - exact Hreach.
  - reflexivity.
Defined.

(** ** The exit status of [decompress_file] *)

Lemma write_workers_cases workers f :
  (exists out,
      write_workers workers f
      = {| exit_status := EXIT_SUCCESS; diagnostics := [];
           output_file := Some out |})
  \/ (exists out,
         write_workers workers f
         = {| exit_status := EXIT_FAILURE; diagnostics := [FailedToWrite];
              output_file := Some out |}).
Proof.
  revert f. induction workers as [|w ws IH]; intros f; cbn [write_workers].
  - left. eexists. reflexivity.
  - destruct (output_size w =? 0); [|apply IH].
    right. eexists. reflexivity.
Qed.

Lemma skipn_repeat (x : byte) (k n : nat) :
  skipn k (repeat x n) = repeat x (n - k).
Proof.
  revert k. induction n as [|n IH]; intros [|k]; cbn [repeat skipn Nat.sub];
    try reflexivity.
  apply IH.
Qed.

(** What [write_file] writes for the job of block [i]: the bytes [inflate]
    produced, and zeros up to the declared size. *)
Lemma block_record_located
    {zlib : Zlib} {contract : ZlibContract zlib}
    (hardware_concurrency : Z) (c : list byte) (i : nat) :
  let offset := header_block_offsets c i in
  let declared := load_uint32_t (advance c offset) in
  let result :=
    zlib_inflate (advance (advance c offset) sizeof_uint32_t)
                 (uInt (size_t (size_t (size c - offset) + sizeof_uint32_t)))
                 declared in
  let done :=
    perform_decompression
      (prepare hardware_concurrency (located_worker c i)) in
  failure done = negb (fst result)
  /\ block_record done
     = snd result
       ++ repeat Byte.x00 (Z.to_nat declared - length (snd result)).
Proof.
  intros offset declared result done.
  pose proof (load_uint32_t_range (advance c offset)) as Hrange.
  fold declared in Hrange.
  pose proof (inflate_fits
                (advance (advance c offset) sizeof_uint32_t)
                (uInt (size_t (size_t (size c - offset) + sizeof_uint32_t)))
                declared ltac:(lia)) as Hfit.
  fold result in Hfit.
  assert (Hfields :
            input (prepare hardware_concurrency (located_worker c i))
            = advance (advance c offset) sizeof_uint32_t
            /\ input_size (prepare hardware_concurrency (located_worker c i))
               = size_t (size_t (size c - offset) + sizeof_uint32_t)
            /\ output (prepare hardware_concurrency (located_worker c i))
               = make_unique declared
            /\ output_size (prepare hardware_concurrency (located_worker c i))
               = declared
            /\ failure (prepare hardware_concurrency (located_worker c i))
               = false).
  { unfold prepare. destruct (hardware_concurrency <=? 1);
      repeat split; reflexivity. }
  destruct Hfields as (Hin & Hsize & Hout & Hcap & Hfail).
  subst done. unfold block_record, perform_decompression.
  rewrite Hin, Hsize, Hout, Hcap, (uInt_small declared) by exact Hrange.
  fold result. destruct result as [ok produced]. cbn [fst snd] in *.
  assert (Hrecord : firstn (Z.to_nat declared)
                           (write_at (make_unique declared) 0 produced)
                    = produced
                      ++ repeat Byte.x00 (Z.to_nat declared - length produced)).
  { unfold write_at, make_unique. rewrite firstn_O. cbn [app Nat.add].
    rewrite skipn_repeat. apply firstn_all2.
    rewrite length_app, repeat_length. unfold size in Hfit. lia. }
  destruct ok;
    cbn [failure output output_size unlock set_output set_failure negb];
    rewrite ?Hcap, ?Hfail; split; try reflexivity; exact Hrecord.
Qed.

(** [decompress_file] returns success only when every block has a size
    prefix other than 0 and a stream that [inflate] ended, with no message
    and the output file written to its end: block after block, the bytes
    [inflate] produced followed by zeros up to the size the prefix
    declares. Every failure comes with a message, and on failure a file was
    opened only when the message is that of a failed write. *)
Theorem decompress_file_exit_status
    (zlib : Zlib) (contract : ZlibContract zlib)
    (hardware_concurrency : Z) (c : list byte) :
  let run := decompress_file hardware_concurrency c in
  let count := Z.to_nat (header_block_count c) in
  let declared i := load_uint32_t (advance c (header_block_offsets c i)) in
  let result i :=
    zlib_inflate
      (advance (advance c (header_block_offsets c i)) sizeof_uint32_t)
      (uInt (size_t (size_t (size c - header_block_offsets c i)
                     + sizeof_uint32_t)))
      (declared i) in
  (exit_status run = EXIT_SUCCESS
   /\ diagnostics run = []
   /\ (forall i, (i < count)%nat ->
                 fst (result i) = true /\ declared i <> 0)
   /\ output_file run
      = Some (concat
                (map (fun i =>
                        snd (result i)
                        ++ repeat Byte.x00
                             (Z.to_nat (declared i) - length (snd (result i))))
                     (seq 0 count))))
  \/ (exit_status run = EXIT_FAILURE
      /\ diagnostics run <> []
      /\ (output_file run = None \/ diagnostics run = [FailedToWrite])).
Proof.
  intros run count declared result. subst run.
  unfold decompress_file.
  destruct (read_file c _) as [d|file] eqn:Hread;
    [right; repeat split; [discriminate | left; reflexivity]|].
  assert (file = c).
  { unfold read_file in Hread. destruct (_ && _); congruence. }
  subst file. cbv zeta.
  destruct (MAX_BLOCKS <? _);
    [right; repeat split; [discriminate | left; reflexivity]|].
  destruct (_ =? 0);
    [right; repeat split; [discriminate | left; reflexivity]|].
  fold count.
  destruct (allocate _ _ _) as [d|workers] eqn:Hall;
    [right; repeat split; [discriminate | left; reflexivity]|].
  apply decompress_allocation_inv in Hall. destruct Hall as [_ ->].
  set (done := perform_job hardware_concurrency perform_decompression
                 (map (located_worker c) (seq 0 count))).
  assert (Hdone : done
                  = map (fun i => perform_decompression
                                    (prepare hardware_concurrency
                                             (located_worker c i)))
                        (seq 0 count)).
  { subst done. rewrite perform_job_map, map_map. reflexivity. }
  destruct (existsb failure done) eqn:Hfail.
  - right. cbn [fail exit_status diagnostics output_file].
    split; [reflexivity|]. split; [|left; reflexivity].
    apply existsb_failure_reported. exact Hfail.
  - unfold write_file.
    destruct (zero_size_dec done) as [Hnz|Hz].
    + left. rewrite write_workers_ok by exact Hnz.
      cbn [exit_status diagnostics output_file app].
      split; [reflexivity|]. split; [reflexivity|]. split.
      * intros i Hi.
        assert (Hin : In (perform_decompression
                            (prepare hardware_concurrency
                                     (located_worker c i))) done).
        { rewrite Hdone.
          apply (in_map (fun i => perform_decompression
                                    (prepare hardware_concurrency
                                             (located_worker c i)))).
          apply in_seq. lia. }
        split.
        -- destruct (block_record_located hardware_concurrency c i)
             as [Hf _].
           fold (declared i) in Hf. fold (result i) in Hf.
           destruct (fst (result i)); [reflexivity|].
           assert (Hex : existsb failure done = true).
           { apply existsb_exists. eexists. split; [exact Hin|exact Hf]. }
           congruence.
        -- intros Hzero. apply (Hnz _ Hin).
           rewrite perform_decompression_output_size, prepare_output_size.
           exact Hzero.
      * f_equal. f_equal. rewrite Hdone, map_map. apply map_ext. intros i.
        apply (block_record_located hardware_concurrency c i).
    + right.
      destruct (write_workers_cases done []) as [(out & E)|(out & E)].
      * pose proof (write_workers_exit done [] Hz) as Hexit.
        rewrite E in Hexit. discriminate.
      * rewrite E. cbn [exit_status diagnostics output_file].
        split; [reflexivity|]. split; [discriminate|]. right. reflexivity.
Qed.

(** The container of five bytes: one block, its stream ended, five bytes
    written. *)
Lemma decompress_file_exit_status_witness :
  exit_status (@decompress_file Stored 4 five_bytes_container) = EXIT_SUCCESS
  /\ output_file (@decompress_file Stored 4 five_bytes_container)
     = Some five_bytes.
Proof.
  assert (Hexit : exit_status (@decompress_file Stored 4 five_bytes_container)
                  = EXIT_SUCCESS) by (vm_compute; reflexivity).
  split; [exact Hexit|].
  pose proof (decompress_file_exit_status Stored Stored_contract 4
                five_bytes_container) as H.
  cbv zeta in H. destruct H as [(_ & _ & _ & Hout)|(Hfail & _)].
  - rewrite Hout. vm_compute. reflexivity.
  - rewrite Hexit in Hfail. discriminate.
Defined.

(** ** The size of a written container *)

(** The container a successful [compress_file] writes has the 262144 bytes
    of the header and, for every chunk, 4 bytes and the stream [deflate]
    made of it; it is never longer than the header, 4 bytes a block and
    twice the input. *)
Theorem compress_file_output_size
    (zlib : Zlib) (contract : ZlibContract zlib)
    (hardware_concurrency : Z) (contents out : list byte) :
  size contents < 2 ^ 64 ->
  exit_status (compress_file hardware_concurrency contents) = EXIT_SUCCESS ->
  output_file (compress_file hardware_concurrency contents) = Some out ->
  let blocks := Z.to_nat ((size contents + 131071) / 131072) in
  size out
  = 262144
    + total (map (fun i => 4 + size (snd (zlib_deflate
                                            (chunk contents i)
                                            (2 * chunk_size (size contents) i))))
                 (seq 0 blocks))
  /\ size out <= 262144 + 4 * Z.of_nat blocks + 2 * size contents.
Proof.
  intros Hsize Hexit Hout blocks.
  destruct (compress_file_success hardware_concurrency contents Hsize Hexit)
    as (Hcount & Hchecks & _ & _ & Hrun).
  rewrite Hrun in Hout. cbn [output_file] in Hout.
  assert (Hc : out = container contents) by congruence.
  assert (Hlen : size out
                 = 262144
                   + total (map (fun i => 4 + size (snd (deflated contents i)))
                                (seq 0 blocks))).
  { rewrite Hc, size_container by exact Hcount.
    unfold records. rewrite map_map. f_equal. f_equal.
    apply map_ext. intros i. apply size_record. }
  split; [exact Hlen|].
  rewrite Hlen.
  assert (Hsum : forall k, (k <= blocks)%nat ->
            total (map (fun i => 4 + size (snd (deflated contents i)))
                       (seq 0 k))
            <= 4 * Z.of_nat k
               + 2 * total (map (chunk_size (size contents)) (seq 0 k))).
  { induction k as [|k IH]; intros Hk; [reflexivity|].
    rewrite seq_S, !map_app, !total_app. cbn [map Nat.add].
    rewrite !total_cons. cbn [total fold_right].
    specialize (IH ltac:(lia)).
    pose proof (chunk_size_range (size contents) k
                  (Hchecks k ltac:(lia))) as Hcs.
    pose proof (size_deflated contents k ltac:(lia)). lia. }
  specialize (Hsum blocks ltac:(lia)).
  rewrite total_chunk_sizes in Hsum; [lia|].
  intros i Hi. pose proof (Hchecks i Hi). lia.
Qed.

(** Five bytes under the reference codec: 262144 + 4 + 9 bytes. *)
Lemma compress_file_output_size_witness :
  output_file (@compress_file Stored 4 five_bytes) = Some five_bytes_container
  /\ size five_bytes_container = 262157
  /\ size five_bytes_container <= 262144 + 4 * 1 + 2 * size five_bytes.
Proof.
  assert (Hout : output_file (@compress_file Stored 4 five_bytes)
                 = Some five_bytes_container)
    by (apply holds_bytes_eq; vm_compute; reflexivity).
  split; [exact Hout|].
  pose proof (compress_file_output_size Stored Stored_contract 4
                five_bytes five_bytes_container
                ltac:(reflexivity) ltac:(vm_compute; reflexivity) Hout) as H.
  cbv zeta in H. destruct H as [Hlen Hbound].
  split; [vm_compute; reflexivity|exact Hbound].
Defined.
